(** * autotidal: text normalisation, match resolution and playlist
    reconciliation

    A shallow embedding of [src/autotidal.py].  Pure helpers become Rocq
    functions on strings; the code that talks to the Tidal session, the
    terminal and the ledger file becomes a state-and-exception monad over an
    abstract world.

    Text.  A Python [str] is modelled as a Rocq [string].  The character
    codes 0..127 are the ASCII characters; the codes 128..255 stand for
    characters outside ASCII.  What the program asks of the Unicode character
    database ([str.isspace], which is also the regex class [\s] and the white
    space of [strip] and [split]; the regex class [\w]; [str.lower];
    [unicodedata.normalize('NFD', s)]; the general category [Mn]) is a
    parameter of the model, the class [PyStr.Unicode]: the properties hold
    for every database that has the ASCII range as Unicode has it and in
    which no word character is white space.  [PyStr.ascii_tables] is the
    database cut down to the ASCII range; the examples, which are on ASCII
    text, are evaluated with it.

    Effects.  The session, its user, playlists and albums, and the terminal
    answer through the class [Tidal]: any of their calls may raise.  Printing
    and appending a row to the ledger always succeed.  The objects of the
    Tidal library count as true where the code tests them ([if found_track],
    [if not playlist]); only [None] counts as false. *)

From Stdlib Require Import ZArith Lia Ascii PrimFloat Uint63.
From stdpp Require Import base option list gmap sets strings pretty sorting.

Local Open Scope stdpp_scope.

(** ** Python string operations *)

Module PyStr.

Definition in_range (lo hi : nat) (c : ascii) : bool :=
  (lo <=? nat_of_ascii c)%nat && (nat_of_ascii c <=? hi)%nat.

(** Every character of [s] passes the test [p]. *)
Fixpoint every (p : ascii -> bool) (s : string) : Prop :=
  match s with
  | EmptyString => True
  | String c s' => p c = true /\ every p s'
  end.

(** *** The ASCII range

    White space: TAB, LF, VT, FF, CR, the four separators FS, GS, RS, US,
    and SPACE.  Word characters: letters, digits and the underscore. *)

Definition is_ascii (c : ascii) : bool := in_range 0 127 c.

Definition ascii_space (c : ascii) : bool :=
  in_range 9 13 c || in_range 28 31 c || in_range 32 32 c.

Definition is_upper (c : ascii) : bool := in_range 65 90 c.
Definition is_lower (c : ascii) : bool := in_range 97 122 c.
Definition is_digit (c : ascii) : bool := in_range 48 57 c.

Definition ascii_word (c : ascii) : bool :=
  is_upper c || is_lower c || is_digit c || in_range 95 95 c.

Definition lower_char (c : ascii) : ascii :=
  if is_upper c then ascii_of_nat (nat_of_ascii c + 32) else c.

(** *** The Unicode character database

    [is_space c] is [c.isspace()], the test behind [\s], [strip] and
    [split]; [is_word c] is the regex class [\w]; [lower_at before c after]
    is what [str.lower] puts in the place of the character [c] that stands
    between [before] and [after] (one character or several; the neighbours
    matter to the Greek capital sigma); [nfd s] is
    [unicodedata.normalize('NFD', s)]; [category_Mn c] is
    [unicodedata.category(c) == 'Mn'].  The laws say what all of these are
    on ASCII characters, and that no word character is white space. *)
Class Unicode := {
  is_space : ascii -> bool;
  is_word : ascii -> bool;
  lower_at : string -> ascii -> string -> string;
  nfd : string -> string;
  category_Mn : ascii -> bool;
  is_space_ascii : forall c, is_ascii c = true -> is_space c = ascii_space c;
  is_word_ascii : forall c, is_ascii c = true -> is_word c = ascii_word c;
  is_word_not_space : forall c, is_word c = true -> is_space c = false;
  lower_at_ascii : forall before c after,
    is_ascii c = true -> lower_at before c after = String (lower_char c) EmptyString;
  nfd_ascii : forall s, every is_ascii s -> nfd s = s;
  category_Mn_ascii : forall c, is_ascii c = true -> category_Mn c = false
}.

Definition ascii_word_not_space (c : ascii) :
  ascii_word c = true -> ascii_space c = false.
Proof. destruct c as [[] [] [] [] [] [] [] []]; vm_compute; congruence. Qed.

(** The database cut down to the ASCII range: a character outside ASCII
    is neither white space nor a word character nor a mark, and the
    functions leave it as it is. *)
Definition ascii_tables : Unicode := {|
  is_space := ascii_space;
  is_word := ascii_word;
  lower_at := fun _ c _ => String (lower_char c) EmptyString;
  nfd := fun s => s;
  category_Mn := fun _ => false;
  is_space_ascii := fun _ _ => eq_refl;
  is_word_ascii := fun _ _ => eq_refl;
  is_word_not_space := ascii_word_not_space;
  lower_at_ascii := fun _ _ _ _ => eq_refl;
  nfd_ascii := fun _ _ => eq_refl;
  category_Mn_ascii := fun _ _ => eq_refl
|}.

Fixpoint map_chars (f : ascii -> ascii) (s : string) : string :=
  match s with
  | EmptyString => EmptyString
  | String c s' => String (f c) (map_chars f s')
  end.

Fixpoint filter_chars (p : ascii -> bool) (s : string) : string :=
  match s with
  | EmptyString => EmptyString
  | String c s' => if p c then String c (filter_chars p s') else filter_chars p s'
  end.

Section Tables.
Context {U : Unicode}.

(** [s.lower()]: every character is mapped where it stands. *)
Fixpoint lower_from (before s : string) : string :=
  match s with
  | EmptyString => EmptyString
  | String c after =>
      lower_at before c after +:+ lower_from (before +:+ String c EmptyString) after
  end.

Definition lower (s : string) : string := lower_from EmptyString s.

(** [s.lstrip()], [s.rstrip()], [s.strip()] *)
Fixpoint lstrip (s : string) : string :=
  match s with
  | EmptyString => EmptyString
  | String c s' => if is_space c then lstrip s' else s
  end.

Fixpoint rstrip (s : string) : string :=
  match s with
  | EmptyString => EmptyString
  | String c s' =>
      match rstrip s' with
      | EmptyString => if is_space c then EmptyString else String c EmptyString
      | r => String c r
      end
  end.

Definition strip (s : string) : string := rstrip (lstrip s).

Definition starts_word (s : string) : bool :=
  match s with
  | EmptyString => false
  | String c _ => negb (is_space c)
  end.

(** [s.split()]: the maximal runs of characters that are not white space. *)
Fixpoint split (s : string) : list string :=
  match s with
  | EmptyString => []
  | String c s' =>
      if is_space c then split s'
      else if starts_word s' then
        match split s' with
        | w :: ws => String c w :: ws
        | [] => [String c EmptyString]
        end
      else String c EmptyString :: split s'
  end.

End Tables.

(** [s.startswith(p)] *)
Fixpoint startswith (p s : string) : bool :=
  match p, s with
  | EmptyString, _ => true
  | String a p', String b s' => if decide (a = b) then startswith p' s' else false
  | String _ _, EmptyString => false
  end.

(** [sub in s] *)
Fixpoint contains (sub s : string) : bool :=
  startswith sub s ||
  match s with
  | EmptyString => false
  | String _ s' => contains sub s'
  end.

(** [s.split(sep)[0]] for a separator that is not empty: the text before
    the first occurrence of [sep], the whole of [s] when there is none. *)
Fixpoint split_first (sep s : string) : string :=
  if startswith sep s then EmptyString
  else match s with
       | EmptyString => EmptyString
       | String c s' => String c (split_first sep s')
       end.

(** *** Regular-expression substitution

    [re.sub(pattern, repl, s)] replaces the leftmost non-overlapping
    matches, scanning [s] from left to right.  A pattern is given by its
    matcher at one position: from whether the character before the position
    is a word character (all that [\b] needs to know of the left context)
    and the text from the position on, the length of the match that the
    backtracking engine finds there, if any.  None of the patterns of this
    program matches the empty string. *)

Definition matcher := bool -> string -> option nat.

Section Regex.
Context {U : Unicode}.

Fixpoint re_sub_from (m : matcher) (repl : string) (skip : nat) (prev : bool)
    (s : string) : string :=
  match s with
  | EmptyString => EmptyString
  | String c s' =>
      match skip with
      | S k => re_sub_from m repl k (is_word c) s'
      | O =>
          match m prev s with
          | Some (S k) => repl +:+ re_sub_from m repl k (is_word c) s'
          | _ => String c (re_sub_from m repl O (is_word c) s')
          end
      end
  end.

Definition re_sub (m : matcher) (repl : string) (s : string) : string :=
  re_sub_from m repl 0 false s.

(** [\b] at a position: exactly one of the two neighbours is a word
    character (a missing neighbour counts as none). *)
Definition word_boundary (prev : bool) (s : string) : bool :=
  xorb prev (match s with String c _ => is_word c | EmptyString => false end).

(** The text after a literal prefix. *)
Fixpoint after_literal (lit s : string) : option string :=
  match lit, s with
  | EmptyString, _ => Some s
  | String a lit', String b s' => if decide (a = b) then after_literal lit' s' else None
  | String _ _, EmptyString => None
  end.

Fixpoint first_match {A} (l : list (option A)) : option A :=
  match l with
  | [] => None
  | Some x :: _ => Some x
  | None :: l' => first_match l'
  end.

Fixpoint index_of (p : ascii -> bool) (s : string) : option nat :=
  match s with
  | EmptyString => None
  | String c s' => if p c then Some 0%nat else S <$> index_of p s'
  end.

Fixpoint run_length (p : ascii -> bool) (s : string) : nat :=
  match s with
  | EmptyString => 0
  | String c s' => if p c then S (run_length p s') else 0
  end.

(** [r'\([^)]*\)']: an opening parenthesis, up to the first closing one. *)
Definition pat_parens : matcher := fun _ s =>
  match s with
  | String c s' =>
      if decide (c = "("%char) then
        (fun i => i + 2)%nat <$> index_of (fun c' => bool_decide (c' = ")"%char)) s'
      else None
  | EmptyString => None
  end.

(** One alternative [w] of [(feat|featuring|ft)] followed by [\.?\s]: the
    optional dot is tried first, then its absence (which fails on a dot,
    a dot being no white space). *)
Definition feat_alternative (w s : string) : option nat :=
  match after_literal w s with
  | Some (String c rest) =>
      if decide (c = "."%char) then
        match rest with
        | String c' _ => if is_space c' then Some (String.length w + 2)%nat else None
        | EmptyString => None
        end
      else if is_space c then Some (String.length w + 1)%nat else None
  | _ => None
  end.

(** [r'\b(feat|featuring|ft)\.?\s'] *)
Definition pat_feat : matcher := fun prev s =>
  if word_boundary prev s then
    first_match [feat_alternative "feat" s; feat_alternative "featuring" s;
                 feat_alternative "ft" s]
  else None.

(** One alternative [w] of [(remix|remaster|remastered)] followed by [\b];
    the alternative ends in a word character. *)
Definition remix_alternative (w s : string) : option nat :=
  match after_literal w s with
  | Some rest => if word_boundary true rest then Some (String.length w) else None
  | None => None
  end.

(** [r'\b(remix|remaster|remastered)\b'] *)
Definition pat_remix : matcher := fun prev s =>
  if word_boundary prev s then
    first_match [remix_alternative "remix" s; remix_alternative "remaster" s;
                 remix_alternative "remastered" s]
  else None.

(** [r'[^\w\s]'] *)
Definition pat_punct : matcher := fun _ s =>
  match s with
  | String c _ => if is_word c || is_space c then None else Some 1%nat
  | EmptyString => None
  end.

(** [r'\s+'] *)
Definition pat_spaces : matcher := fun _ s =>
  match run_length is_space s with
  | O => None
  | n => Some n
  end.

End Regex.

End PyStr.

Abbreviation every := PyStr.every.

(** ** Normalizer (lines 18-71) *)

Section Text.
Context {U : PyStr.Unicode}.

Definition normalize_text (text : string) : string :=
  if decide (text = "") then ""
  else
    let text := PyStr.nfd text in
    let text := PyStr.filter_chars (fun char => negb (PyStr.category_Mn char)) text in
    let text := PyStr.lower text in
    let text := PyStr.re_sub PyStr.pat_parens "" text in
    let text := PyStr.re_sub PyStr.pat_feat "" text in
    let text := PyStr.re_sub PyStr.pat_remix "" text in
    let text := PyStr.re_sub PyStr.pat_punct "" text in
    let text := PyStr.strip (PyStr.re_sub PyStr.pat_spaces " " text) in
    text.

Definition clean_track_name (track_name : string) : string :=
  if decide (track_name = "") then ""
  else
    let cleaned := PyStr.re_sub PyStr.pat_parens "" track_name in
    let cleaned := PyStr.nfd cleaned in
    let cleaned := PyStr.filter_chars (fun char => negb (PyStr.category_Mn char)) cleaned in
    PyStr.strip cleaned.

Definition separators : list string :=
  [", "; " & "; " and "; " feat. "; " feat "; " featuring "; " ft. "; " ft "].

(** The loop over [separators] stops at the first one found in the
    lower-cased string; the split is done on the string as given. *)
Definition get_primary_artist (artist_string : string) : string :=
  if decide (artist_string = "") then ""
  else
    let primary_artist :=
      match List.find (fun separator => PyStr.contains separator (PyStr.lower artist_string))
                      separators with
      | Some separator => PyStr.split_first separator artist_string
      | None => artist_string
      end in
    PyStr.strip primary_artist.


(** ** Similarity scorer (lines 74-89)

    [len(common_words) / max_words] is Python's true division of two
    integers and [>=] a comparison of binary64 floats; both are the IEEE 754
    operations of Rocq's primitive floats (the conversion of a length is exact
    below 2^53). *)

Definition float_of_len (n : nat) : float :=
  PrimFloat.of_uint63 (Uint63.of_Z (Z.of_nat n)).

(** [set(normalize_text(text).split())] *)
Definition word_set (text : string) : gset string :=
  list_to_set (PyStr.split (normalize_text text)).

Definition fuzzy_match_words (text1 text2 : string) (threshold : float) : bool :=
  let words1 := word_set text1 in
  let words2 := word_set text2 in
  if bool_decide (words1 = ∅) || bool_decide (words2 = ∅) then false
  else
    let common_words := words1 ∩ words2 in
    let max_words := Nat.max (size words1) (size words2) in
    let match_percentage :=
      PrimFloat.div (float_of_len (size common_words)) (float_of_len max_words) in
    PrimFloat.leb threshold match_percentage.

(** The default [threshold=0.7]: the binary64 number nearest to 0.7. *)
Definition default_threshold : float := 0x1.6666666666666p-1%float.

(** The float test [common / larger >= 0.7] gives the answer of the exact
    comparison [7 * larger <= 10 * common]. *)
Definition threshold_exact (common larger : nat) : bool :=
  Bool.eqb (PrimFloat.leb default_threshold
                          (PrimFloat.div (float_of_len common) (float_of_len larger)))
           (7 * larger <=? 10 * common)%nat.

End Text.

(** ** Data (the dictionaries and objects the code passes around) *)

(** One row of the source export, as [get_playlist_tracks] builds it; [isrc]
    is [None] when the cell is empty. *)
Record SourceTrack := {
  playlist_name : string;
  track_name : string;
  artist_names : string;
  isrc : option string;
  album_name : string
}.

(** What reading the attribute [isrc] of a search result can give: the
    object may have no such attribute, reading it may raise, or it has a
    value, which may be [None]. *)
Inductive attribute :=
| AttrMissing
| AttrRaises
| AttrValue (v : option string).

Record TidalTrack := { tt_id : Z; tt_name : string; tt_isrc : attribute }.
Record TidalAlbum := { al_id : Z }.
Record TidalPlaylist := { pl_id : Z; pl_name : string }.

Record LedgerRow := {
  row_playlist_name : string;
  row_track_name : string;
  row_artist_names : string;
  row_album_name : string;
  row_isrc : string;
  row_reason : string
}.

(** An entry of the list [not_found]. *)
Record NotFound := { nf_name : string; nf_artist : string; nf_reason : string }.

(** What [create_tidal_playlist] returns: its list [not_found], or, from
    its outer handler, the list [tracks] it was given. *)
Inductive reply :=
| NotFoundList (not_found : list NotFound)
| TrackList (tracks : list SourceTrack).

Global Instance attribute_eq_dec : EqDecision attribute.
Proof. solve_decision. Defined.
Global Instance TidalTrack_eq_dec : EqDecision TidalTrack.
Proof. solve_decision. Defined.
Global Instance TidalPlaylist_eq_dec : EqDecision TidalPlaylist.
Proof. solve_decision. Defined.
Global Instance LedgerRow_eq_dec : EqDecision LedgerRow.
Proof. solve_decision. Defined.

(** ** Effects

    Every call that leaves the program is an event of one chronological
    trace: calls on the Tidal session and its objects, terminal input and
    output, and rows appended to [not_found.csv]. *)

Inductive models := Tracks | Albums.

Inductive event :=
| Search (m : models) (query : string)
| AlbumTracks (album : TidalAlbum)
| UserPlaylists
| CreatePlaylist (name description : string)
| PlaylistAdd (playlist : TidalPlaylist) (ids : list Z)
| CheckLogin
| OAuthLogin
| Input
| Print (text : string)
| LedgerAppend (row : LedgerRow).

(** The answer of an external call: a value, or an exception [e] of class
    [Exception] with [str(e) = msg]. *)
Inductive answer (A : Type) :=
| Ok (a : A)
| Raise (msg : string).
Arguments Ok {A} a.
Arguments Raise {A} msg.

(** The outside world: for every external call, its answer and the world
    after it.  [oauth_login] stands for the body of the [try] of
    [authenticate_tidal] up to [session.check_login()]. *)
Class Tidal (W : Type) := {
  session_search_tracks : string -> W -> answer (list TidalTrack) * W;
  session_search_albums : string -> W -> answer (list TidalAlbum) * W;
  album_tracks : TidalAlbum -> W -> answer (list TidalTrack) * W;
  user_playlists : W -> answer (list TidalPlaylist) * W;
  user_create_playlist : string -> string -> W -> answer TidalPlaylist * W;
  playlist_add : TidalPlaylist -> list Z -> W -> answer unit * W;
  session_check_login : W -> answer bool * W;
  oauth_login : W -> answer bool * W;
  input : W -> answer string * W
}.

(** How a computation ends: with a value, with an exception of class
    [Exception], with [sys.exit(code)] (which no [except Exception] catches),
    or still running when the fuel of an unbounded loop is used up. *)
Inductive outcome (A : Type) :=
| Return (a : A)
| Raised (msg : string)
| Exited (code : Z)
| OutOfFuel.
Arguments Return {A} a.
Arguments Raised {A} msg.
Arguments Exited {A} code.
Arguments OutOfFuel {A}.

(** The state: the world, the trace so far, and the local variables of
    [create_tidal_playlist] that its [try] blocks assign ([playlist] is
    [None] before the playlist is created and after a failed lookup). *)
Record state (W : Type) := {
  world : W;
  trace : list event;
  unique_playlist_name : option string;
  playlist : option TidalPlaylist;
  added_tracks : gset string;
  not_found : list NotFound
}.
Arguments world {W} s.
Arguments trace {W} s.
Arguments unique_playlist_name {W} s.
Arguments playlist {W} s.
Arguments added_tracks {W} s.
Arguments not_found {W} s.

Definition M (W A : Type) : Type := state W -> outcome A * state W.

Definition ret {W A} (a : A) : M W A := fun s => (Return a, s).

Definition bind {W A B} (m : M W A) (k : A -> M W B) : M W B :=
  fun s =>
    match m s with
    | (Return a, s') => k a s'
    | (Raised msg, s') => (Raised msg, s')
    | (Exited code, s') => (Exited code, s')
    | (OutOfFuel, s') => (OutOfFuel, s')
    end.

Declare Scope eff_scope.
Delimit Scope eff_scope with eff.
Notation "'let*' x ':=' m 'in' k" := (bind m (fun x => k))
  (at level 10, x name, m at level 100, k at level 200, only parsing) : eff_scope.
Local Open Scope eff_scope.

Definition raise {W A} (msg : string) : M W A := fun s => (Raised msg, s).
Definition sys_exit {W A} (code : Z) : M W A := fun s => (Exited code, s).
Definition out_of_fuel {W A} : M W A := fun s => (OutOfFuel, s).

(** [try: body except Exception as e: handler(str(e))] *)
Definition try_except {W A} (body : M W A) (handler : string -> M W A) : M W A :=
  fun s =>
    match body s with
    | (Raised msg, s') => handler msg s'
    | r => r
    end.

Definition emit {W} (e : event) : M W unit :=
  fun s => (Return tt,
            {| world := world s; trace := trace s ++ [e];
               unique_playlist_name := unique_playlist_name s;
               playlist := playlist s; added_tracks := added_tracks s;
               not_found := not_found s |}).

Definition set_world {W} (w : W) : M W unit :=
  fun s => (Return tt,
            {| world := w; trace := trace s;
               unique_playlist_name := unique_playlist_name s;
               playlist := playlist s; added_tracks := added_tracks s;
               not_found := not_found s |}).

(** An external call: the event is recorded, the world moves on, and the
    answer is returned or raised. *)
Definition call {W A} (e : event) (oracle : W -> answer A * W) : M W A :=
  fun s =>
    let '(r, w) := oracle (world s) in
    (let* _ := emit e in
     let* _ := set_world w in
     match r with Ok a => ret a | Raise msg => raise msg end) s.

Definition print {W} (text : string) : M W unit := emit (Print text).

Section Program.
Context {U : PyStr.Unicode} {W : Type} `{!Tidal W}.

(** [session.search(query, models=[tidalapi.Track])['tracks']] *)
Definition search_tracks (query : string) : M W (list TidalTrack) :=
  call (Search Tracks query) (session_search_tracks query).

(** [session.search(query, models=[tidalapi.Album])['albums']] *)
Definition search_albums (query : string) : M W (list TidalAlbum) :=
  call (Search Albums query) (session_search_albums query).

(** ** Match resolver (lines 92-172) *)

(** The test of step 1,
    [hasattr(result_track, 'isrc') and result_track.isrc == track['isrc']],
    inside [try: ... except: pass]. *)
Definition isrc_equal (result_track : TidalTrack) (track : SourceTrack) : bool :=
  match tt_isrc result_track with
  | AttrMissing => false
  | AttrRaises => false
  | AttrValue v => bool_decide (v = isrc track)
  end.

(** The three loops over [search_results['tracks'][:5]]; each returns the
    first result that passes its test.  On an empty list they find nothing,
    which is all that the guards [if search_results['tracks']] add. *)
Definition isrc_match (results : list TidalTrack) (track : SourceTrack)
    : option TidalTrack :=
  List.find (fun result_track => isrc_equal result_track track) (take 5 results).

Definition exact_name_match (results : list TidalTrack) (track : SourceTrack)
    : option TidalTrack :=
  List.find (fun result_track =>
               bool_decide (PyStr.strip (PyStr.lower (tt_name result_track))
                            = PyStr.strip (PyStr.lower (track_name track))))
            (take 5 results).

Definition fuzzy_name_match (results : list TidalTrack) (cleaned_track_name : string)
    : option TidalTrack :=
  List.find (fun result_track =>
               fuzzy_match_words (tt_name result_track) cleaned_track_name
                                 default_threshold)
            (take 5 results).

(** The loop over [album_results['albums'][:3]]: an album whose listing
    raises is skipped. *)
Fixpoint scan_albums (albums : list TidalAlbum) (cleaned_track_name : string)
    : M W (option TidalTrack) :=
  match albums with
  | [] => ret None
  | album :: rest =>
      let* hit :=
        try_except
          (let* tracks := call (AlbumTracks album) (album_tracks album) in
           ret (List.find (fun album_track =>
                             fuzzy_match_words (tt_name album_track) cleaned_track_name
                                               default_threshold)
                          tracks))
          (fun _ => ret None) in
      match hit with
      | Some album_track => ret (Some album_track)
      | None => scan_albums rest cleaned_track_name
      end
  end.

Definition search_track_in_album (track : SourceTrack) (cleaned_track_name : string)
    : M W (option TidalTrack) :=
  if decide (album_name track = "") then ret None
  else
    try_except
      (let album_query := album_name track +:+ " " +:+ artist_names track in
       let* albums := search_albums album_query in
       scan_albums (take 3 albums) cleaned_track_name)
      (fun _ => ret None).

Definition find_best_track_match (track : SourceTrack) : M W (option TidalTrack) :=
  (* Step 1: search by original track name and artist *)
  let search_query := track_name track +:+ " " +:+ artist_names track in
  let* search_results := search_tracks search_query in
  match isrc_match search_results track with
  | Some result_track => ret (Some result_track)
  | None =>
  (* Step 2: exact name matching *)
  match exact_name_match search_results track with
  | Some result_track => ret (Some result_track)
  | None =>
  (* Step 3: clean the track name and search with the modified name *)
  let cleaned_track_name := clean_track_name (track_name track) in
  let* search_results :=
    if decide (cleaned_track_name <> track_name track) then
      search_tracks (cleaned_track_name +:+ " " +:+ artist_names track)
    else ret search_results in
  match fuzzy_name_match search_results cleaned_track_name with
  | Some result_track => ret (Some result_track)
  | None =>
  (* Step 4: artist name simplification *)
  let primary_artist := get_primary_artist (artist_names track) in
  let* simplified :=
    if decide (primary_artist <> artist_names track) then
      let* simplified_results :=
        search_tracks (cleaned_track_name +:+ " " +:+ primary_artist) in
      ret (fuzzy_name_match simplified_results cleaned_track_name)
    else ret None in
  match simplified with
  | Some result_track => ret (Some result_track)
  | None =>
  (* Step 5: album search; step 6: not found *)
  search_track_in_album track cleaned_track_name
  end end end end.

(** ** Unresolved ledger (lines 317-336)

    One row is appended to [not_found.csv]; the header written before the
    first row of a new file is left to the file. *)
Definition write_not_found_track (track : SourceTrack) (reason : string) : M W unit :=
  emit (LedgerAppend
          {| row_playlist_name := playlist_name track;
             row_track_name := track_name track;
             row_artist_names := artist_names track;
             row_album_name := album_name track;
             row_isrc := match isrc track with Some i => i | None => "" end;
             row_reason := reason |}).

(** ** Reconciliation engine (lines 339-490) *)

Definition gets {A} (f : state W -> A) : M W A := fun s => (Return (f s), s).

Definition set_unique_playlist_name (v : option string) : M W unit :=
  fun s => (Return tt,
            {| world := world s; trace := trace s; unique_playlist_name := v;
               playlist := playlist s; added_tracks := added_tracks s;
               not_found := not_found s |}).

Definition set_playlist (v : option TidalPlaylist) : M W unit :=
  fun s => (Return tt,
            {| world := world s; trace := trace s;
               unique_playlist_name := unique_playlist_name s;
               playlist := v; added_tracks := added_tracks s;
               not_found := not_found s |}).

Definition set_added_tracks (v : gset string) : M W unit :=
  fun s => (Return tt,
            {| world := world s; trace := trace s;
               unique_playlist_name := unique_playlist_name s;
               playlist := playlist s; added_tracks := v;
               not_found := not_found s |}).

Definition set_not_found (v : list NotFound) : M W unit :=
  fun s => (Return tt,
            {| world := world s; trace := trace s;
               unique_playlist_name := unique_playlist_name s;
               playlist := playlist s; added_tracks := added_tracks s;
               not_found := v |}).

(** [str(e)] of the [UnboundLocalError] raised by reading a local variable
    that holds no value (the wording of CPython 3.11 and later). *)
Definition unbound_local (name : string) : string :=
  "cannot access local variable '" +:+ name
    +:+ "' where it is not associated with a value".

Definition CR : string := String "013"%char EmptyString.
Definition LF : string := String "010"%char EmptyString.

Definition versioned_name (desired_name : string) (version : nat) : string :=
  desired_name +:+ " version " +:+ pretty version.

(** The loop [while True] of [get_unique_playlist_name], run for at most
    [fuel] iterations; [None] when it is still running then. *)
Fixpoint next_version_name (existing_names : gset string) (desired_name : string)
    (fuel version : nat) : option string :=
  match fuel with
  | O => None
  | S fuel' =>
      let versioned := versioned_name desired_name version in
      if decide (versioned ∈ existing_names)
      then next_version_name existing_names desired_name fuel' (S version)
      else Some versioned
  end.

(** [get_unique_playlist_name] after [user.playlists()] has answered. *)
Definition unique_name (fuel : nat) (existing_playlists : list TidalPlaylist)
    (desired_name : string) : option string :=
  let existing_names : gset string := list_to_set (pl_name <$> existing_playlists) in
  if decide (desired_name ∈ existing_names)
  then next_version_name existing_names desired_name fuel 2
  else Some desired_name.

(** The engine gives the loop one iteration more than there are playlists;
    [unique_name_spec] shows that it never needs more. *)
Definition get_unique_playlist_name (desired_name : string) : M W string :=
  let* existing_playlists := call UserPlaylists user_playlists in
  match unique_name (S (length existing_playlists)) existing_playlists desired_name with
  | Some name => ret name
  | None => out_of_fuel
  end.

(** [authenticate_tidal] (lines 184-230): returns, or leaves the program
    with [sys.exit(1)]. *)
Definition authenticate_tidal : M W unit :=
  let* _ := print "Please follow the steps in your browser to authenticate with your Tidal profile." in
  let* _ := print "" in
  try_except
    (let* logged_in := call OAuthLogin oauth_login in
     if logged_in : bool then print "Authentication successful!"
     else let* _ := print "Authentication failed. Please try again." in sys_exit 1)
    (fun e => let* _ := print ("Authentication failed: " +:+ e) in sys_exit 1).

(** [write_not_found_track(track, reason)] followed by
    [not_found.append({...})], as the code does in four places. *)
Definition log_not_found (track : SourceTrack) (reason : string) : M W unit :=
  let* _ := write_not_found_track track reason in
  let* l := gets not_found in
  set_not_found (l ++ [{| nf_name := track_name track;
                          nf_artist := artist_names track;
                          nf_reason := reason |}]).

(** [not track['isrc']] *)
Definition isrc_blank (track : SourceTrack) : bool :=
  match isrc track with
  | None => true
  | Some i => bool_decide (i = "")
  end.

(** ["412" in error_str and "Client Error" in error_str] *)
Definition is_412 (error_str : string) : bool :=
  PyStr.contains "412" error_str && PyStr.contains "Client Error" error_str.

(** [playlist.add(ids)]; on [playlist = None] the attribute lookup raises. *)
Definition add_call (ids : list Z) : M W unit :=
  let* pl := gets playlist in
  match pl with
  | Some p => call (PlaylistAdd p ids) (playlist_add p ids)
  | None => raise "'NoneType' object has no attribute 'add'"
  end.

(** Lines 427-448, after the user agreed to authenticate again. *)
Definition reauthenticate (track : SourceTrack) (unique : string) : M W unit :=
  let* _ := print "Re-authenticating..." in
  let* logged_in := call CheckLogin session_check_login in
  let* _ := if logged_in : bool then ret tt else authenticate_tidal in
  let* playlists := call UserPlaylists user_playlists in
  let* _ := set_playlist
              (List.find (fun pl => bool_decide (pl_name pl = unique)) playlists) in
  let* pl := gets playlist in
  match pl with
  | None => raise ("Could not find playlist '" +:+ unique
                     +:+ "' after re-authentication")
  | Some _ => print ("Retrying track: " +:+ track_name track)
  end.

(** The loop [while retry_count <= max_retries] (lines 410-455), by the
    number [attempts = max_retries + 1 - retry_count] of iterations it has
    left: every [continue] follows [retry_count += 1]. *)
Fixpoint add_to_playlist (attempts : nat) (found_track : TidalTrack)
    (track : SourceTrack) (track_id_key unique : string) : M W unit :=
  match attempts with
  | O => ret tt
  | S attempts' =>
      try_except
        (let* _ := add_call [tt_id found_track] in
         let* added := gets added_tracks in
         set_added_tracks ({[track_id_key]} ∪ added))
        (fun error_str =>
           if is_412 error_str then
             let* _ := print (LF +:+ LF +:+ "Re-authentication required for track: "
                                +:+ track_name track +:+ " by " +:+ artist_names track) in
             let* _ := print "Would you like to authenticate again? (y/n): " in
             let* user_response := call Input input in
             if PyStr.contains "y" (PyStr.lower (PyStr.strip user_response)) then
               let* _ := reauthenticate track unique in
               add_to_playlist attempts' found_track track track_id_key unique
             else
               let* _ := print "Exiting program as requested." in
               sys_exit 0
           else raise error_str)
  end.

Definition max_retries : nat := 1.

(** The body of the [try] of lines 401-472: the track is resolved and
    added.  After the retry loop, line 459 reads [add_error], which the
    [except] clause unbound when it was left: whenever the key is not in
    [added_tracks] there, that read raises. *)
Definition resolve_and_add (unique : string) (track : SourceTrack)
    (track_id_key : string) : M W unit :=
  let* found := find_best_track_match track in
  match found with
  | Some found_track =>
      let* _ := add_to_playlist (S max_retries) found_track track
                                track_id_key unique in
      let* added := gets added_tracks in
      if decide (track_id_key ∈ added) then ret tt
      else raise (unbound_local "add_error")
  | None => log_not_found track "track not found on Tidal"
  end.

(** The body of the loop over [tracks] (lines 379-481). *)
Definition process_track (unique : string) (total_tracks processed_count : nat)
    (track : SourceTrack) : M W unit :=
  let* _ := print (CR +:+ "Generating playlist '" +:+ unique +:+ "'! ("
                     +:+ pretty processed_count +:+ "/" +:+ pretty total_tracks +:+ ")") in
  if isrc_blank track then log_not_found track "isrc blank in input"
  else
    let track_id_key := track_name track +:+ "|" +:+ artist_names track in
    let* added := gets added_tracks in
    if decide (track_id_key ∈ added) then ret tt
    else
      try_except
        (resolve_and_add unique track track_id_key)
        (fun e => log_not_found track ("search error: " +:+ e)).

Fixpoint process_tracks (unique : string) (total_tracks processed_count : nat)
    (tracks : list SourceTrack) : M W unit :=
  match tracks with
  | [] => ret tt
  | track :: rest =>
      let* _ := process_track unique total_tracks (S processed_count) track in
      process_tracks unique total_tracks (S processed_count) rest
  end.

Definition create_tidal_playlist (playlist_name : string) (tracks : list SourceTrack)
    : M W reply :=
  let* _ := print ("Generating playlist '" +:+ playlist_name +:+ "'!") in
  let* _ := set_not_found [] in
  let* _ := set_unique_playlist_name None in
  let* _ := set_playlist None in
  try_except
    (let* unique := get_unique_playlist_name playlist_name in
     let* _ := set_unique_playlist_name (Some unique) in
     let* _ := if decide (unique <> playlist_name)
               then print ("Playlist '" +:+ playlist_name
                             +:+ "' already exists. Creating '" +:+ unique +:+ "' instead.")
               else ret tt in
     let* created := call (CreatePlaylist unique "Migrated from Spotify")
                          (user_create_playlist unique "Migrated from Spotify") in
     let* _ := set_playlist (Some created) in
     let* _ := set_added_tracks ∅ in
     let* _ := process_tracks unique (length tracks) 0 tracks in
     let* _ := print "" in
     let* l := gets not_found in
     ret (NotFoundList l))
    (fun e =>
       let* unique := gets unique_playlist_name in
       match unique with
       | Some unique =>
           let* _ := print (LF +:+ "Error creating playlist '" +:+ unique
                              +:+ "': " +:+ e) in
           ret (TrackList tracks)
       | None => raise (unbound_local "unique_playlist_name")
       end).

(** ** Selection and the loop over the selected playlists
    (lines 266-314, 493-557) *)

(** [s.split(sep)] for a separator of one character. *)
Fixpoint split_on (sep : ascii) (s : string) : list string :=
  match s with
  | EmptyString => [EmptyString]
  | String c s' =>
      if decide (c = sep) then EmptyString :: split_on sep s'
      else match split_on sep s' with
           | w :: ws => String c w :: ws
           | [] => [String c EmptyString]
           end
  end.

(** The digits of [int(s)]: groups of decimal digits joined by single
    underscores. *)
Fixpoint int_digits (acc : Z) (after_digit : bool) (s : string) : option Z :=
  match s with
  | EmptyString => if after_digit then Some acc else None
  | String c s' =>
      if PyStr.is_digit c then
        int_digits (10 * acc + Z.of_nat (nat_of_ascii c - 48)) true s'
      else if decide (c = "_"%char) then
        (if after_digit then int_digits acc false s' else None)
      else None
  end.

(** [int(s)]; [None] stands for [ValueError]. *)
Definition py_int (s : string) : option Z :=
  match PyStr.strip s with
  | EmptyString => None
  | String c s' =>
      if decide (c = "-"%char) then Z.opp <$> int_digits 0 false s'
      else if decide (c = "+"%char) then int_digits 0 false s'
      else int_digits 0 false (String c s')
  end.

(** The body of the loop of [parse_playlist_selection]. *)
Definition parse_part (max_num : Z) (selected : gset Z) (part : string)
    : M W (gset Z) :=
  if PyStr.contains "-" part then
    match split_on "-"%char part with
    | [start; end_] =>
        match py_int (PyStr.strip start), py_int (PyStr.strip end_) with
        | Some start, Some end_ =>
            if bool_decide (1 ≤ start ≤ max_num ∧ 1 ≤ end_ ≤ max_num ∧ start ≤ end_)%Z
            then ret (selected ∪ list_to_set (seqZ start (end_ + 1 - start)))
            else
              let* _ := print ("Warning: Invalid range " +:+ part +:+ ", skipping") in
              ret selected
        | _, _ =>
            let* _ := print ("Warning: Invalid range format " +:+ part +:+ ", skipping") in
            ret selected
        end
    | _ =>
        let* _ := print ("Warning: Invalid range format " +:+ part +:+ ", skipping") in
        ret selected
    end
  else
    match py_int (PyStr.strip part) with
    | Some num =>
        if bool_decide (1 ≤ num ≤ max_num)%Z then ret (selected ∪ {[num]})
        else
          let* _ := print ("Warning: Number " +:+ pretty num +:+ " out of range, skipping") in
          ret selected
    | None =>
        let* _ := print ("Warning: Invalid number " +:+ part +:+ ", skipping") in
        ret selected
    end.

Fixpoint parse_parts (max_num : Z) (selected : gset Z) (parts : list string)
    : M W (gset Z) :=
  match parts with
  | [] => ret selected
  | part :: rest =>
      let* selected := parse_part max_num selected part in
      parse_parts max_num selected rest
  end.

Definition parse_playlist_selection (user_input : string) (max_num : Z)
    : M W (gset Z) :=
  parse_parts max_num ∅ (PyStr.strip <$> split_on ","%char user_input).

(** [sorted(selected_indices)] *)
Definition sorted (selected_indices : gset Z) : list Z :=
  merge_sort Z.le (elements selected_indices).

(** [l[i]]; [None] stands for [IndexError]. *)
Definition py_index {A} (l : list A) (i : Z) : option A :=
  if bool_decide (0 ≤ i)%Z then l !! Z.to_nat i
  else if bool_decide (- Z.of_nat (length l) ≤ i)%Z then l !! Z.to_nat (Z.of_nat (length l) + i)
  else None.

(** [[playlists[i-1] for i in sorted(selected_indices)]] *)
Definition selected_playlists (playlists : list (string * string))
    (selected_indices : gset Z) : option (list (string * string)) :=
  mapM (fun i => py_index playlists (i - 1)) (sorted selected_indices).

(** One row of the data frame read from [playlist_tracks.csv]. *)
Record DataRow := {
  df_playlist_id : string;
  df_track : SourceTrack
}.

Definition get_playlist_tracks (df : list DataRow) (playlist_id : string)
    : list SourceTrack :=
  df_track <$> List.filter (fun row => bool_decide (df_playlist_id row = playlist_id)) df.

Fixpoint print_songs (songs : list NotFound) : M W unit :=
  match songs with
  | [] => ret tt
  | song :: rest =>
      let* _ := print ("  • " +:+ nf_name song +:+ " by " +:+ nf_artist song
                         +:+ " (" +:+ nf_reason song +:+ ")") in
      print_songs rest
  end.

(** [display_not_found_songs]; on the list of tracks that the outer handler
    of [create_tidal_playlist] returns, [song['name']] raises [KeyError]. *)
Definition display_not_found_songs (r : reply) (playlist_name : string) : M W unit :=
  let* _ := print ("Playlist '" +:+ playlist_name +:+ "' has been created.") in
  let* _ :=
    match r with
    | NotFoundList [] | TrackList [] => print "All songs were successfully added!"
    | NotFoundList songs =>
        let* _ := print "The following songs were not found on Tidal:" in
        print_songs songs
    | TrackList (_ :: _) =>
        let* _ := print "The following songs were not found on Tidal:" in
        raise "'name'"
    end in
  print "".

(** The loop of [main] over [selected_playlists] (lines 549-557). *)
Fixpoint process_playlists (df : list DataRow) (selected : list (string * string))
    : M W unit :=
  match selected with
  | [] => ret tt
  | (playlist_id, playlist_name) :: rest =>
      let tracks := get_playlist_tracks df playlist_id in
      let* not_found := create_tidal_playlist playlist_name tracks in
      let* _ := display_not_found_songs not_found playlist_name in
      process_playlists df rest
  end.

(** [main] from the user's answer on (lines 536-557), for an answer that
    selects something. *)
Definition main_selected (df : list DataRow) (playlists : list (string * string))
    (user_input : string) : M W unit :=
  let* selected_indices :=
    parse_playlist_selection user_input (Z.of_nat (length playlists)) in
  let* _ := print "" in
  match selected_playlists playlists selected_indices with
  | Some selected => process_playlists df selected
  | None => raise "list index out of range"
  end.

End Program.

(** ** Scripted worlds

    A world whose answers never change: each call is answered from a fixed
    table.  The concrete scenarios below run the program in such worlds. *)

Record Script := {
  on_search_tracks : string -> answer (list TidalTrack);
  on_search_albums : string -> answer (list TidalAlbum);
  on_album_tracks : TidalAlbum -> answer (list TidalTrack);
  on_playlists : answer (list TidalPlaylist);
  on_create_playlist : string -> answer TidalPlaylist;
  on_add : answer unit;
  on_check_login : answer bool;
  on_oauth_login : answer bool;
  on_input : answer string
}.

Global Instance Script_Tidal : Tidal Script := {|
  session_search_tracks query w := (on_search_tracks w query, w);
  session_search_albums query w := (on_search_albums w query, w);
  album_tracks album w := (on_album_tracks w album, w);
  user_playlists w := (on_playlists w, w);
  user_create_playlist name _ w := (on_create_playlist w name, w);
  playlist_add _ _ w := (on_add w, w);
  session_check_login w := (on_check_login w, w);
  oauth_login w := (on_oauth_login w, w);
  input w := (on_input w, w)
|}.

(** The state in which a run starts. *)
Definition initial {W} (w : W) : state W :=
  {| world := w; trace := []; unique_playlist_name := None; playlist := None;
     added_tracks := ∅; not_found := [] |}.

(** A world in which nothing is found and every call succeeds. *)
Definition quiet : Script :=
  {| on_search_tracks _ := Ok [];
     on_search_albums _ := Ok [];
     on_album_tracks _ := Ok [];
     on_playlists := Ok [];
     on_create_playlist name := Ok {| pl_id := 1; pl_name := name |};
     on_add := Ok tt;
     on_check_login := Ok true;
     on_oauth_login := Ok true;
     on_input := Ok "n" |}.

(** A track that resolves at once: the search returns a result with its
    ISRC and its name. *)
Definition yellow : SourceTrack :=
  {| playlist_name := "Road Trip"; track_name := "Yellow";
     artist_names := "Coldplay"; isrc := Some "GBAYE0000351";
     album_name := "Parachutes" |}.

Definition yellow_on_tidal : TidalTrack :=
  {| tt_id := 42; tt_name := "Yellow"; tt_isrc := AttrValue (Some "GBAYE0000351") |}.

(** Every search finds [yellow_on_tidal]; every add fails with a server
    error that is not the 412 one. *)
Definition add_fails : Script :=
  {| on_search_tracks _ := Ok [yellow_on_tidal];
     on_search_albums _ := Ok [];
     on_album_tracks _ := Ok [];
     on_playlists := Ok [];
     on_create_playlist name := Ok {| pl_id := 1; pl_name := name |};
     on_add := Raise "500 Server Error: Internal Server Error";
     on_check_login := Ok true;
     on_oauth_login := Ok true;
     on_input := Ok "n" |}.

(** The user's playlists cannot be listed. *)
Definition lookup_fails : Script :=
  {| on_search_tracks _ := Ok [];
     on_search_albums _ := Ok [];
     on_album_tracks _ := Ok [];
     on_playlists := Raise "503 Server Error: Service Unavailable";
     on_create_playlist name := Ok {| pl_id := 1; pl_name := name |};
     on_add := Ok tt;
     on_check_login := Ok true;
     on_oauth_login := Ok true;
     on_input := Ok "n" |}.

(** The playlist cannot be created. *)
Definition create_fails : Script :=
  {| on_search_tracks _ := Ok [];
     on_search_albums _ := Ok [];
     on_album_tracks _ := Ok [];
     on_playlists := Ok [];
     on_create_playlist _ := Raise "400 Client Error: Bad Request";
     on_add := Ok tt;
     on_check_login := Ok true;
     on_oauth_login := Ok true;
     on_input := Ok "n" |}.

(** A track without ISRC, and a search result of another name whose [isrc]
    attribute holds [None]. *)
Definition intro : SourceTrack :=
  {| playlist_name := "Road Trip"; track_name := "Intro";
     artist_names := "The Band"; isrc := None; album_name := "" |}.

Definition outro_on_tidal : TidalTrack :=
  {| tt_id := 7; tt_name := "Outro"; tt_isrc := AttrValue None |}.

Definition finds_outro : Script :=
  {| on_search_tracks _ := Ok [outro_on_tidal];
     on_search_albums _ := Ok [];
     on_album_tracks _ := Ok [];
     on_playlists := Ok [];
     on_create_playlist name := Ok {| pl_id := 1; pl_name := name |};
     on_add := Ok tt;
     on_check_login := Ok true;
     on_oauth_login := Ok true;
     on_input := Ok "n" |}.


(** A track with a blank ISRC. *)
Definition blank : SourceTrack :=
  {| playlist_name := "Road Trip"; track_name := "Demo";
     artist_names := "Somebody"; isrc := Some ""; album_name := "Tapes" |}.

Definition two_playlists : list (string * string) :=
  [("id-a", "Alpha"); ("id-b", "Beta")].

(** ** Counting the calls of a trace *)

Definition is_track_search (e : event) : bool :=
  match e with Search Tracks _ => true | _ => false end.
Definition is_album_search (e : event) : bool :=
  match e with Search Albums _ => true | _ => false end.
Definition is_search (e : event) : bool :=
  match e with Search _ _ => true | _ => false end.
Definition is_listing (e : event) : bool :=
  match e with AlbumTracks _ => true | _ => false end.
Definition is_add (e : event) : bool :=
  match e with PlaylistAdd _ _ => true | _ => false end.

Definition count (p : event -> bool) (tr : list event) : nat :=
  length (List.filter p tr).

(** The rows appended to the ledger, in order. *)
Definition ledger (tr : list event) : list LedgerRow :=
  omap (fun e => match e with LedgerAppend row => Some row | _ => None end) tr.

(** The calls on the catalogue in a stretch of trace: at most [a] track
    searches, [b] album searches and [c] album listings, and nothing else. *)
Definition catalog_calls (a b c : nat) (new : list event) : Prop :=
  count is_track_search new <= a /\
  count is_album_search new <= b /\
  count is_listing new <= c /\
  Forall (fun e => is_search e || is_listing e = true) new.

(** A computation that, from any state, adds such a stretch to the trace
    and then returns or raises. *)
Definition calls_within {W A} (m : M W A) (a b c : nat) : Prop :=
  forall s, exists new,
    trace (snd (m s)) = trace s ++ new /\
    catalog_calls a b c new /\
    ((exists x, fst (m s) = Return x) \/ (exists msg, fst (m s) = Raised msg)).

(** The line that [create_tidal_playlist] prints first.  It is the only
    text the program prints that begins with the letter G: the progress line
    begins with a carriage return. *)
Definition announce (name : string) : event :=
  Print ("Generating playlist '" +:+ name +:+ "'!").


Definition is_ledger (e : event) : bool :=
  match e with LedgerAppend _ => true | _ => false end.



(** The row that [write_not_found_track track reason] appends. *)
Definition row_of (track : SourceTrack) (reason : string) : LedgerRow :=
  {| row_playlist_name := playlist_name track;
     row_track_name := track_name track;
     row_artist_names := artist_names track;
     row_album_name := album_name track;
     row_isrc := match isrc track with Some i => i | None => "" end;
     row_reason := reason |}.



(** ** Words of a normal form *)

(** The words joined by single spaces. *)
Fixpoint join (ws : list string) : string :=
  match ws with
  | [] => ""
  | w :: rest =>
      match rest with
      | [] => w
      | _ :: _ => w +:+ " " +:+ join rest
      end
  end.

Definition remix_words : list string := ["remix"; "remaster"; "remastered"].
Definition feat_words : list string := ["feat"; "featuring"; "ft"].

(** A list of words that a further normalisation leaves alone: none of the
    words [remix], [remaster], [remastered], and none of [feat], [featuring],
    [ft] except in the last place. *)
Fixpoint settled (ws : list string) : bool :=
  match ws with
  | [] => true
  | w :: rest =>
      negb (bool_decide (w ∈ remix_words))
      && (match rest with [] => true | _ :: _ => negb (bool_decide (w ∈ feat_words)) end)
      && settled rest
  end.

(** A character of a normal form of ASCII text: a lower-case letter, a
    digit or the underscore. *)
Definition is_plain_char (c : ascii) : bool :=
  PyStr.ascii_word c && negb (PyStr.is_upper c).

Section Words.
Context {U : PyStr.Unicode}.

Definition no_space (c : ascii) : bool := negb (PyStr.is_space c).

(** A word: not empty, without white space. *)
Definition is_token (w : string) : Prop := w <> "" /\ every no_space w.

(** The substitution of [\s+] in the middle of a run of white space. *)
Definition in_run (prev : bool) (s : string) : string :=
  PyStr.re_sub_from PyStr.pat_spaces " " (PyStr.run_length PyStr.is_space s) prev s.

(** A text at whose start a word ends. *)
Definition ends_word (tail : string) : Prop :=
  match tail with "" => True | String c _ => PyStr.is_word c = false end.

(** A word of a normal form: not empty, of word characters. *)
Definition is_plain_word (w : string) : Prop := w <> "" /\ every PyStr.is_word w.

(** [w] is a whitespace-delimited token of [s]: a stretch of [s] that is
    not empty and has no white space, with white space or an end of [s] on
    either side. *)
Definition delimited (w s : string) : Prop :=
  is_token w /\
  exists before after,
    s = before +:+ w +:+ after /\
    (before = "" \/ exists b c, before = b +:+ String c "" /\ PyStr.is_space c = true) /\
    match after with "" => True | String c _ => PyStr.is_space c = true end.

(** The first three steps of the normalizer: decomposition, removal of the
    marks, lower case. *)
Definition first_steps (text : string) : string :=
  PyStr.lower
    (PyStr.filter_chars (fun char => negb (PyStr.category_Mn char)) (PyStr.nfd text)).

End Words.

(** The score of the scorer's contract for [common] common tokens and
    [larger] tokens in the larger set: the quotient of the two numbers in
    binary64 arithmetic, as Python's [/] gives it. *)
Definition ratio (common larger : nat) : float :=
  PrimFloat.div (PrimFloat.of_uint63 (Uint63.of_Z (Z.of_nat common)))
                (PrimFloat.of_uint63 (Uint63.of_Z (Z.of_nat larger))).

(** What follows a word in a normal form: nothing, or a space and the
    words that remain. *)
Definition tail_of (rest : list string) : string :=
  match rest with [] => "" | _ :: _ => " " +:+ join rest end.

(** The pattern of [m] starts at none of the words [ws] of a normal form. *)
Fixpoint starts_nowhere (m : PyStr.matcher) (ws : list string) : Prop :=
  match ws with
  | [] => True
  | w :: rest => m false (w +:+ tail_of rest) = None /\ starts_nowhere m rest
  end.

(** The indices that the parser selects are numbers of the displayed
    list. *)
Definition in_list (max_num : Z) (selected : gset Z) : Prop :=
  forall i, i ∈ selected -> (1 <= i <= max_num)%Z.

(** ** Further notions for the properties below *)

(** A text with a parenthesised group: an opening parenthesis with a closing
    one somewhere after it. *)
Fixpoint has_group (s : string) : bool :=
  match s with
  | EmptyString => false
  | String c s' =>
      (bool_decide (c = "("%char) && PyStr.contains ")" s') || has_group s'
  end.

Section Hits.
Context {U : PyStr.Unicode}.

(** What makes the resolver accept a result [t] for [track]: the equal
    [isrc] value of step 1, the equal name of step 2 (up to case and white
    space at the ends), or enough common words with the cleaned name
    (steps 3 to 5). *)
Definition accepted (track : SourceTrack) (t : TidalTrack) : Prop :=
  isrc_equal t track = true \/
  PyStr.strip (PyStr.lower (tt_name t)) = PyStr.strip (PyStr.lower (track_name track)) \/
  fuzzy_match_words (tt_name t) (clean_track_name (track_name track)) default_threshold
  = true.

End Hits.

(** A computation all of whose results satisfy [Q]. *)
Definition returns_only {W A} (Q : A -> Prop) (m : M W A) : Prop :=
  forall s a, fst (m s) = Return a -> Q a.

(** A computation that does not raise, exit or run out of fuel. *)
Definition always_returns {W A} (m : M W A) : Prop :=
  forall s, exists a, fst (m s) = Return a.

Section Accepted_hits.
Context {U : PyStr.Unicode}.

(** A hit of the fuzzy test, and an accepted hit, if there is one. *)
Definition fuzzy_hit (cleaned : string) (r : option TidalTrack) : Prop :=
  forall t, r = Some t ->
            fuzzy_match_words (tt_name t) cleaned default_threshold = true.

Definition accepted_hit (track : SourceTrack) (r : option TidalTrack) : Prop :=
  forall t, r = Some t -> accepted track t.

End Accepted_hits.

(** The entry of [not_found] that goes with a row of the ledger. *)
Definition entry_of (row : LedgerRow) : NotFound :=
  {| nf_name := row_track_name row; nf_artist := row_artist_names row;
     nf_reason := row_reason row |}.

(** The reasons that the engine does write. *)
Definition known_reason (reason : string) : bool :=
  bool_decide (reason = "isrc blank in input")
  || bool_decide (reason = "track not found on Tidal")
  || PyStr.startswith "search error: " reason.

(** The events of the loop over the tracks of a playlist: a ledger row has
    one of the known reasons; an add call adds one track, to the playlist
    [created] or to a playlist of the name [unique]. *)
Definition engine_event (created : TidalPlaylist) (unique : string) (e : event) : bool :=
  match e with
  | LedgerAppend row => known_reason (row_reason row)
  | PlaylistAdd p ids =>
      bool_decide (length ids = 1)
      && (bool_decide (p = created) || bool_decide (pl_name p = unique))
  | _ => true
  end.

(** The variable [playlist] holds [created] or a playlist of the name
    [unique]. *)
Definition engine_inv {W} (created : TidalPlaylist) (unique : string) (s : state W)
    : Prop :=
  forall p, playlist s = Some p -> p = created \/ pl_name p = unique.

(** From [s] to [s']: the trace grows by events of the engine, [not_found]
    grows by the entries of the ledger rows among them, and [playlist] stays
    as [engine_inv] says. *)
Definition engine_step {W} (created : TidalPlaylist) (unique : string)
    (s s' : state W) : Prop :=
  engine_inv created unique s ->
  engine_inv created unique s' /\
  exists new,
    trace s' = trace s ++ new /\
    Forall (fun e => engine_event created unique e = true) new /\
    not_found s' = not_found s ++ (entry_of <$> ledger new).

(** A computation that, however it ends, makes such a step from every
    state. *)
Definition respects {W A} (created : TidalPlaylist) (unique : string) (m : M W A)
    : Prop :=
  forall s, engine_step created unique s (snd (m s)).

(** How a part of the engine may end: with a value; with an exception, where
    [may_raise] allows it; or with [sys.exit(0)] or [sys.exit(1)].  The fuel
    of a loop is never used up. *)
Definition ends {A} (may_raise : bool) (o : outcome A) : Prop :=
  match o with
  | Return _ => True
  | Raised _ => may_raise = true
  | Exited code => code = 0%Z \/ code = 1%Z
  | OutOfFuel => False
  end.

Definition finishes {W A} (may_raise : bool) (m : M W A) : Prop :=
  forall s, ends may_raise (fst (m s)).

(** Every search finds [yellow_on_tidal], and every add succeeds. *)
Definition adds_yellow : Script :=
  {| on_search_tracks _ := Ok [yellow_on_tidal];
     on_search_albums _ := Ok [];
     on_album_tracks _ := Ok [];
     on_playlists := Ok [];
     on_create_playlist name := Ok {| pl_id := 1; pl_name := name |};
     on_add := Ok tt;
     on_check_login := Ok true;
     on_oauth_login := Ok true;
     on_input := Ok "n" |}.

(** The handler of line 488. *)
Definition creation_handler {W} (tracks : list SourceTrack) (e : string) : M W reply :=
  let* unique := gets unique_playlist_name in
  match unique with
  | Some unique =>
      let* _ := print (LF +:+ "Error creating playlist '" +:+ unique
                         +:+ "': " +:+ e) in
      ret (TrackList tracks)
  | None => raise (unbound_local "unique_playlist_name")
  end.

(** The events of [create_tidal_playlist] before the loop over the tracks,
    when the playlist is created under the name [unique]. *)
Definition opening (playlist_name unique : string) : list event :=
  [announce playlist_name; UserPlaylists]
  ++ (if decide (unique <> playlist_name)
      then [Print ("Playlist '" +:+ playlist_name +:+ "' already exists. Creating '"
                     +:+ unique +:+ "' instead.")]
      else [])
  ++ [CreatePlaylist unique "Migrated from Spotify"].

(** The state in which the loop over the tracks starts. *)
Definition loop_start {W} (s : state W) (playlist_name unique : string)
    (created : TidalPlaylist) (w : W) : state W :=
  {| world := w; trace := trace s ++ opening playlist_name unique;
     unique_playlist_name := Some unique; playlist := Some created;
     added_tracks := ∅; not_found := [] |}.

(** The calls of a stretch of trace that go to the service for the
    catalogue or for a playlist: at most [a] adds, [b] searches and [c] album
    listings. *)
Definition engine_calls (a b c : nat) (new : list event) : Prop :=
  count is_add new <= a /\ count is_search new <= b /\ count is_listing new <= c.

(** A computation that, from any state and however it ends, adds such a
    stretch to the trace. *)
Definition spends {W A} (m : M W A) (a b c : nat) : Prop :=
  forall s, exists new, trace (snd (m s)) = trace s ++ new /\ engine_calls a b c new.

(** The progress line of the loop over the tracks. *)
Definition progress (unique : string) (processed_count total_tracks : nat) : event :=
  Print (CR +:+ "Generating playlist '" +:+ unique +:+ "'! ("
           +:+ pretty processed_count +:+ "/" +:+ pretty total_tracks +:+ ")").

Section Source_order_notions.
Context {U : PyStr.Unicode}.




End Source_order_notions.


(** The key of a track in [added_tracks]. *)
Definition track_id_key (track : SourceTrack) : string :=
  track_name track +:+ "|" +:+ artist_names track.

(** Another row for the same song: the name and the artists of [yellow],
    with the ISRC and the album of a live recording. *)
Definition yellow_live : SourceTrack :=
  {| playlist_name := "Road Trip"; track_name := "Yellow";
     artist_names := "Coldplay"; isrc := Some "GBAYE0300999";
     album_name := "Live 2003" |}.

Definition road_trip : TidalPlaylist := {| pl_id := 1; pl_name := "Road Trip" |}.

(** Every add fails with the 412 error; the user declines to authenticate
    again. *)
Definition expired : Script :=
  {| on_search_tracks _ := Ok [yellow_on_tidal];
     on_search_albums _ := Ok [];
     on_album_tracks _ := Ok [];
     on_playlists := Ok [road_trip];
     on_create_playlist name := Ok {| pl_id := 1; pl_name := name |};
     on_add := Raise "412 Client Error: Precondition Failed for url";
     on_check_login := Ok true;
     on_oauth_login := Ok true;
     on_input := Ok "n" |}.

(** The same, with a user who agrees every time. *)
Definition expired_again : Script :=
  {| on_search_tracks _ := Ok [yellow_on_tidal];
     on_search_albums _ := Ok [];
     on_album_tracks _ := Ok [];
     on_playlists := Ok [road_trip];
     on_create_playlist name := Ok {| pl_id := 1; pl_name := name |};
     on_add := Raise "412 Client Error: Precondition Failed for url";
     on_check_login := Ok true;
     on_oauth_login := Ok true;
     on_input := Ok "y" |}.

(** A state inside the loop over the tracks of the playlist [road_trip]. *)
Definition in_loop {W} (w : W) : state W :=
  {| world := w; trace := []; unique_playlist_name := Some "Road Trip";
     playlist := Some road_trip; added_tracks := ∅; not_found := [] |}.

(** A warning of [parse_playlist_selection]. *)
Definition is_warning (e : event) : bool :=
  match e with
  | Print text => PyStr.startswith "Warning: " text
  | _ => false
  end.

(** The state [s] after the events [new]. *)
Definition with_trace {W} (s : state W) (new : list event) : state W :=
  {| world := world s; trace := trace s ++ new;
     unique_playlist_name := unique_playlist_name s; playlist := playlist s;
     added_tracks := added_tracks s; not_found := not_found s |}.

(** [display_playlists] (lines 258-263) *)
Fixpoint display_lines {W} (i : nat) (playlists : list (string * string)) : M W unit :=
  match playlists with
  | [] => ret tt
  | (playlist_id, playlist_name) :: rest =>
      let* _ := print (pretty i +:+ ". " +:+ playlist_name) in
      display_lines (S i) rest
  end.

Definition display_playlists {W} (playlists : list (string * string)) : M W unit :=
  let* _ := print "Here's all the playlists I can auto-create:" in
  let* _ := display_lines 1 playlists in
  print "".

(** The loop [while True] of [main] that asks for the selection
    (lines 536-551), run for at most [fuel] answers. *)
Fixpoint ask_selection {U : PyStr.Unicode} {W} `{!Tidal W} (fuel : nat) (max_num : Z) : M W (gset Z) :=
  match fuel with
  | O => out_of_fuel
  | S fuel' =>
      let* answer := call Input input in
      let user_input := PyStr.strip answer in
      if decide (user_input = "") then
        let* _ := print "Please enter a valid selection." in
        ask_selection fuel' max_num
      else
        let* selected_indices := parse_playlist_selection user_input max_num in
        if decide (selected_indices = ∅) then
          let* _ := print "No valid playlists selected. Please try again." in
          ask_selection fuel' max_num
        else ret selected_indices
  end.

(** The user answers [2]. *)
Definition answers_two : Script :=
  {| on_search_tracks _ := Ok [];
     on_search_albums _ := Ok [];
     on_album_tracks _ := Ok [];
     on_playlists := Ok [];
     on_create_playlist name := Ok {| pl_id := 1; pl_name := name |};
     on_add := Ok tt;
     on_check_login := Ok true;
     on_oauth_login := Ok true;
     on_input := Ok "2" |}.

(** ** The exporter's row helpers ([src/spotify_scrub.py], lines 153-182)

    The objects that the Spotify client returns are JSON values: [None],
    booleans, numbers (integers, in this model), strings, lists, and
    dictionaries with string keys, kept in insertion order. *)

#[warnings="-register-all"] Inductive value :=
| VNone
| VBool (b : bool)
| VInt (n : Z)
| VStr (s : string)
| VList (l : list value)
| VDict (d : list (string * value)).

(** [bool(v)] *)
Definition truthy (v : value) : bool :=
  match v with
  | VNone => false
  | VBool b => b
  | VInt n => negb (n =? 0)%Z
  | VStr s => match s with EmptyString => false | String _ _ => true end
  | VList l => match l with [] => false | _ :: _ => true end
  | VDict d => match d with [] => false | _ :: _ => true end
  end.

(** [type(v).__name__] *)
Definition type_name (v : value) : string :=
  match v with
  | VNone => "NoneType"
  | VBool _ => "bool"
  | VInt _ => "int"
  | VStr _ => "str"
  | VList _ => "list"
  | VDict _ => "dict"
  end.

(** [d.get(key)] *)
Definition dict_get (d : list (string * value)) (key : string) : value :=
  match List.find (fun kv => bool_decide (kv.1 = key)) d with
  | Some kv => kv.2
  | None => VNone
  end.

(** [d[key] = v] *)
Fixpoint dict_set (d : list (string * value)) (key : string) (v : value)
    : list (string * value) :=
  match d with
  | [] => [(key, v)]
  | (k, v') :: d' =>
      if decide (k = key) then (k, v) :: d' else (k, v') :: dict_set d' key v
  end.

(** The characters of a string, as a [for] loop over it gives them. *)
Fixpoint chars (s : string) : list value :=
  match s with
  | EmptyString => []
  | String c s' => VStr (String c EmptyString) :: chars s'
  end.

(** [for d in v]: the elements, or the message of the [TypeError]. *)
Definition iterate (v : value) : string + list value :=
  match v with
  | VList l => inr l
  | VDict d => inr (VStr <$> d.*1)
  | VStr s => inr (chars s)
  | _ => inl ("'" +:+ type_name v +:+ "' object is not iterable")
  end.

(** [sep.join(names)]: the strings to join, or the message of the
    [TypeError] for the first item that is no string. *)
Fixpoint join_items (i : nat) (names : list value) : string + list string :=
  match names with
  | [] => inr []
  | VStr s :: rest =>
      match join_items (S i) rest with
      | inr l => inr (s :: l)
      | inl msg => inl msg
      end
  | v :: _ => inl ("sequence item " +:+ pretty i +:+ ": expected str instance, "
                     +:+ type_name v +:+ " found")
  end.

Fixpoint py_join (sep : string) (l : list string) : string :=
  match l with
  | [] => ""
  | [s] => s
  | s :: rest => s +:+ sep +:+ py_join sep rest
  end.

(** An entry of [ERROR_LOG]. *)
Definition log_entry : Type := list (string * string).

(** [isinstance(d, dict) and d.get(key)] *)
Definition has_name (key : string) (d : value) : bool :=
  match d with
  | VDict kv => truthy (dict_get kv key)
  | _ => false
  end.

Definition name_of (key : string) (d : value) : value :=
  match d with
  | VDict kv => dict_get kv key
  | _ => VNone
  end.

(** [safe_join_names(items, key)]: the result, and [ERROR_LOG] after the
    call. *)
Definition safe_join_names (items : value) (key : string) (ERROR_LOG : list log_entry)
    : option string * list log_entry :=
  let failed (e : string) :=
    (None, ERROR_LOG ++ [[("where", "safe_join_names"); ("detail", e)]]) in
  match iterate (if truthy items then items else VList []) with
  | inl e => failed e
  | inr elements =>
      let names := name_of key <$> List.filter (has_name key) elements in
      match names with
      | [] => (None, ERROR_LOG)
      | _ :: _ =>
          match join_items 0 names with
          | inl e => failed e
          | inr l => (Some (py_join ", " l), ERROR_LOG)
          end
      end
  end.

(** The state that [safe_row_append] changes: the list [rows], the
    counter [errors_counter["count"]] of the export ([None] when no counter
    is given), and [ERROR_LOG]. *)
Record RowState := {
  rows : list (list (string * value));
  errors_count : option Z;
  error_log : list log_entry
}.

(** [{col: f(col) for col in expected_columns}] *)
Definition dict_of (f : string -> value) (expected_columns : list string)
    : list (string * value) :=
  foldl (fun d col => dict_set d col (f col)) [] expected_columns.

(** [safe_row_append(rows, row_dict, expected_columns, ctx, errors_counter)]:
    [row_dict.get] raises [AttributeError] when [row_dict] is true and no
    dictionary, as soon as there is a column to look up. *)
Definition safe_row_append (st : RowState) (row_dict : value)
    (expected_columns : list string) (ctx : option string) : RowState :=
  let blank := dict_of (fun _ => VNone) expected_columns in
  let failed (v : value) :=
    {| rows := rows st ++ [blank];
       errors_count := (fun n => n + 1)%Z <$> errors_count st;
       error_log :=
         error_log st ++
         [[("where", "safe_row_append");
           ("context", match ctx with Some c => c | None => "" end);
           ("detail", "AttributeError: '" +:+ type_name v
                        +:+ "' object has no attribute 'get'")]] |} in
  let appended (full_row : list (string * value)) :=
    {| rows := rows st ++ [full_row]; errors_count := errors_count st;
       error_log := error_log st |} in
  if truthy row_dict then
    match row_dict, expected_columns with
    | VDict d, _ => appended (dict_of (dict_get d) expected_columns)
    | _, [] => appended []
    | v, _ :: _ => failed v
    end
  else appended blank.

(** The examples below, on ASCII text, are evaluated with the tables of the
    ASCII range. *)
Global Existing Instance PyStr.ascii_tables | 100.

(** * Properties *)

(** ** Normalizer *)

(** C3, as stated, fails: punctuation is removed after the words [remix],
    [remaster], [remastered] and the [feat] tokens have been looked for, so
    removing it can bring such a word into being, which a second pass then
    removes.  [normalize_text "re-mix"] is ["remix"], whose normal form is
    the empty string. *)
Lemma normalize_text_not_idempotent :
  normalize_text "re-mix" = "remix" /\
  normalize_text (normalize_text "re-mix") = "".
Proof. split; vm_compute; reflexivity. Qed.

(** C5: on ["A Feat. B ft. C"] the loop stops at [" feat. "], which it finds
    in the lower-cased string, and splits the string as given, where that
    separator does not occur: the whole string comes back, although the
    separator [" ft. "] occurs in it and the text before it is ["A Feat. B"]. *)
Lemma get_primary_artist_mixed_case :
  get_primary_artist "A Feat. B ft. C" = "A Feat. B ft. C" /\
  List.find (fun separator => PyStr.contains separator (PyStr.lower "A Feat. B ft. C"))
            separators = Some " feat. " /\
  PyStr.contains " feat. " "A Feat. B ft. C" = false /\
  PyStr.contains " ft. " "A Feat. B ft. C" = true /\
  PyStr.strip (PyStr.split_first " ft. " "A Feat. B ft. C") = "A Feat. B".
Proof. repeat split; vm_compute; reflexivity. Qed.

(** ** Similarity scorer *)

Lemma forallb_seq (f : nat -> bool) (a n k : nat) :
  forallb f (seq a n) = true -> a <= k < a + n -> f k = true.
Proof. intros Hall Hk. rewrite forallb_forall in Hall. apply Hall, in_seq. lia. Qed.

Lemma threshold_exact_upto_64 :
  forallb (fun larger => forallb (fun common => threshold_exact common larger)
                                 (seq 0 (S larger)))
          (seq 1 64) = true.
Proof. vm_compute. reflexivity. Qed.

(** For word sets of up to 64 words, rounding plays no part in the test
    against the default threshold: the answer is that of the exact comparison
    of [common / larger] with 7/10. *)
Lemma default_threshold_exact (common larger : nat) :
  1 <= larger <= 64 -> common <= larger ->
  PrimFloat.leb default_threshold
                (PrimFloat.div (float_of_len common) (float_of_len larger))
  = (7 * larger <=? 10 * common)%nat.
Proof.
  intros Hlarger Hcommon.
  assert (forallb (fun common => threshold_exact common larger) (seq 0 (S larger))
          = true) as Hrow
    by (apply (forallb_seq _ 1 64 larger threshold_exact_upto_64); lia).
  assert (threshold_exact common larger = true) as Hexact
    by (apply (forallb_seq _ 0 (S larger) common Hrow); lia).
  unfold threshold_exact in Hexact. by apply Bool.eqb_prop in Hexact.
Qed.

(** Seven common words out of ten pass the default threshold, six do not. *)
Example fuzzy_match_words_tenths :
  fuzzy_match_words "a b c d e f g h i j" "a b c d e f g" default_threshold = true /\
  fuzzy_match_words "a b c d e f g h i j" "a b c d e f" default_threshold = false.
Proof. split; vm_compute; reflexivity. Qed.

(** ** Running the monad *)

Ltac run_step :=
  unfold process_track, resolve_and_add, log_not_found, write_not_found_track, search_tracks,
    search_albums, call, print, gets, set_not_found, set_playlist,
    set_added_tracks, set_unique_playlist_name, set_world, emit, raise,
    sys_exit, out_of_fuel, try_except, bind, ret; simpl.

Section Resolver_facts.
Context {U : PyStr.Unicode}.
Context {W : Type} `{!Tidal W}.

Lemma isrc_match_Some (results : list TidalTrack) (track : SourceTrack) (c : TidalTrack) :
  isrc_match results track = Some c ->
  c ∈ take 5 results /\ tt_isrc c = AttrValue (isrc track).
Proof.
  unfold isrc_match. intros H. apply find_some in H as [Hin Heq]. split.
  - by apply list_elem_of_In.
  - unfold isrc_equal in Heq. destruct (tt_isrc c) as [| |v]; try done.
    by apply bool_decide_eq_true_1 in Heq as ->.
Qed.

(** C4, as amended.  When the first search answers [results] and the
    ISRC loop finds [c] among the first five, the resolver returns [c] after
    that one search; [c] exposes an [isrc] attribute equal to the track's
    [isrc] value, so to the track's ISRC when it has one; a result without
    the attribute, or whose attribute cannot be read, is passed over without
    an error. *)
Theorem isrc_match_accepts_equal_isrc (track : SourceTrack) (s : state W)
    (results : list TidalTrack) (w : W) (c : TidalTrack) :
  session_search_tracks (track_name track +:+ " " +:+ artist_names track) (world s)
    = (Ok results, w) ->
  isrc_match results track = Some c ->
  fst (find_best_track_match track s) = Return (Some c) /\
  trace (snd (find_best_track_match track s))
    = trace s ++ [Search Tracks (track_name track +:+ " " +:+ artist_names track)] /\
  c ∈ take 5 results /\
  tt_isrc c = AttrValue (isrc track) /\
  (forall i, isrc track = Some i -> tt_isrc c = AttrValue (Some i)) /\
  (forall c', tt_isrc c' = AttrMissing \/ tt_isrc c' = AttrRaises ->
              isrc_equal c' track = false).
Proof.
  intros Hs Hm. destruct (isrc_match_Some _ _ _ Hm) as [Hin Heq].
  unfold find_best_track_match. run_step. rewrite Hs. simpl. rewrite Hm. simpl.
  repeat split; try done.
  - intros i Hi. by rewrite Heq, Hi.
  - intros c' [H|H]; unfold isrc_equal; by rewrite H.
Qed.

End Resolver_facts.

(** The instance of [isrc_match_accepts_equal_isrc] at a track that the
    search finds with its own ISRC. *)
Lemma isrc_match_accepts_equal_isrc_witness :
  fst (find_best_track_match yellow (initial add_fails)) = Return (Some yellow_on_tidal) /\
  trace (snd (find_best_track_match yellow (initial add_fails)))
    = trace (initial add_fails) ++ [Search Tracks "Yellow Coldplay"] /\
  yellow_on_tidal ∈ take 5 [yellow_on_tidal] /\
  tt_isrc yellow_on_tidal = AttrValue (isrc yellow) /\
  (forall i, isrc yellow = Some i -> tt_isrc yellow_on_tidal = AttrValue (Some i)) /\
  (forall c', tt_isrc c' = AttrMissing \/ tt_isrc c' = AttrRaises ->
              isrc_equal c' yellow = false).
Proof.
  apply (isrc_match_accepts_equal_isrc yellow (initial add_fails) [yellow_on_tidal] add_fails).
  - reflexivity.
  - vm_compute. reflexivity.
Defined.

(** C4, as stated, fails: the resolver does not look whether the source
    ISRC is present.  For a track without ISRC, a result whose [isrc]
    attribute holds [None] passes the test of step 1 and is returned, though
    its name differs from the track's. *)
Lemma isrc_match_without_source_isrc :
  isrc intro = None /\
  isrc_match [outro_on_tidal] intro = Some outro_on_tidal /\
  exact_name_match [outro_on_tidal] intro = None /\
  fst (find_best_track_match intro (initial finds_outro)) = Return (Some outro_on_tidal).
Proof. repeat split; vm_compute; reflexivity. Qed.

(** ** Reconciliation engine *)

Section Engine_facts.
Context {U : PyStr.Unicode}.
Context {W : Type} `{!Tidal W}.

(** C7: a track whose ISRC is absent or blank is logged with the reason
    ["isrc blank in input"], in the ledger and in [not_found], and that is
    all that processing it does besides printing the progress line: no call
    on the session, so no search, and the resolver is not run. *)
Theorem blank_isrc_logged_without_search (unique : string) (total k : nat)
    (track : SourceTrack) (s : state W) :
  isrc track = None \/ isrc track = Some "" ->
  fst (process_track unique total k track s) = Return tt /\
  trace (snd (process_track unique total k track s))
    = trace s ++
      [Print (CR +:+ "Generating playlist '" +:+ unique +:+ "'! ("
                +:+ pretty k +:+ "/" +:+ pretty total +:+ ")");
       LedgerAppend {| row_playlist_name := playlist_name track;
                       row_track_name := track_name track;
                       row_artist_names := artist_names track;
                       row_album_name := album_name track;
                       row_isrc := "";
                       row_reason := "isrc blank in input" |}] /\
  not_found (snd (process_track unique total k track s))
    = not_found s ++ [{| nf_name := track_name track;
                         nf_artist := artist_names track;
                         nf_reason := "isrc blank in input" |}] /\
  world (snd (process_track unique total k track s)) = world s /\
  count is_search (trace (snd (process_track unique total k track s)))
    = count is_search (trace s).
Proof.
  intros Hblank.
  assert (Hb : isrc_blank track = true).
  { unfold isrc_blank. destruct Hblank as [-> | ->]; done. }
  assert (Hrow : match isrc track with Some i => i | None => "" end = "").
  { destruct Hblank as [-> | ->]; done. }
  unfold process_track. run_step. rewrite Hb. run_step. rewrite Hrow.
  repeat split; try done.
  - by rewrite <- app_assoc.
  - unfold count. rewrite <- app_assoc, List.filter_app. simpl.
    by rewrite app_nil_r.
Qed.

End Engine_facts.

(** The instance of [blank_isrc_logged_without_search] at a track with a
    blank ISRC, first of one. *)
Lemma blank_isrc_logged_without_search_witness :
  fst (process_track "Road Trip" 1 1 blank (initial quiet)) = Return tt /\
  trace (snd (process_track "Road Trip" 1 1 blank (initial quiet)))
    = trace (initial quiet) ++
      [Print (CR +:+ "Generating playlist '" +:+ "Road Trip" +:+ "'! ("
                +:+ pretty 1%nat +:+ "/" +:+ pretty 1%nat +:+ ")");
       LedgerAppend {| row_playlist_name := playlist_name blank;
                       row_track_name := track_name blank;
                       row_artist_names := artist_names blank;
                       row_album_name := album_name blank;
                       row_isrc := "";
                       row_reason := "isrc blank in input" |}] /\
  not_found (snd (process_track "Road Trip" 1 1 blank (initial quiet)))
    = not_found (initial quiet) ++ [{| nf_name := track_name blank;
                                       nf_artist := artist_names blank;
                                       nf_reason := "isrc blank in input" |}] /\
  world (snd (process_track "Road Trip" 1 1 blank (initial quiet))) = world (initial quiet) /\
  count is_search (trace (snd (process_track "Road Trip" 1 1 blank (initial quiet))))
    = count is_search (trace (initial quiet)).
Proof.
  apply (blank_isrc_logged_without_search "Road Trip" 1 1 blank (initial quiet)).
  right. reflexivity.
Defined.

(** C1: the add of a resolved track fails with a server error that is not
    the 412 one.  The add is tried once, and the exception, raised again by
    line 455, reaches the handler of line 474: the track is logged with a
    reason that begins ["search error: "], not ["error after retries"]. *)
Lemma add_error_logged_as_search_error :
  is_412 "500 Server Error: Internal Server Error" = false /\
  fst (create_tidal_playlist "Road Trip" [yellow] (initial add_fails))
    = Return (NotFoundList
                [{| nf_name := "Yellow"; nf_artist := "Coldplay";
                    nf_reason := "search error: 500 Server Error: Internal Server Error" |}]) /\
  trace (snd (create_tidal_playlist "Road Trip" [yellow] (initial add_fails)))
    = [Print "Generating playlist 'Road Trip'!";
       UserPlaylists;
       CreatePlaylist "Road Trip" "Migrated from Spotify";
       Print (CR +:+ "Generating playlist 'Road Trip'! (1/1)");
       Search Tracks "Yellow Coldplay";
       PlaylistAdd {| pl_id := 1; pl_name := "Road Trip" |} [42%Z];
       LedgerAppend {| row_playlist_name := "Road Trip"; row_track_name := "Yellow";
                       row_artist_names := "Coldplay"; row_album_name := "Parachutes";
                       row_isrc := "GBAYE0000351";
                       row_reason := "search error: 500 Server Error: Internal Server Error" |};
       Print ""].
Proof. repeat split; vm_compute; reflexivity. Qed.

(** C10: when the lookup of the user's playlists fails, the outer handler
    (line 489) reads [unique_playlist_name], which line 369 never assigned:
    [create_tidal_playlist] raises instead of returning [tracks].  When the
    creation of the playlist fails, it returns [tracks] and the ledger stays
    as it was. *)
Lemma lookup_failure_raises :
  fst (create_tidal_playlist "Road Trip" [yellow] (initial lookup_fails))
    = Raised (unbound_local "unique_playlist_name") /\
  trace (snd (create_tidal_playlist "Road Trip" [yellow] (initial lookup_fails)))
    = [Print "Generating playlist 'Road Trip'!"; UserPlaylists] /\
  fst (create_tidal_playlist "Road Trip" [yellow] (initial create_fails))
    = Return (TrackList [yellow]) /\
  ledger (trace (snd (create_tidal_playlist "Road Trip" [yellow] (initial create_fails))))
    = [].
Proof. repeat split; vm_compute; reflexivity. Qed.

(** ** Unique playlist names *)

Section Unique_name.
Context {U : PyStr.Unicode}.

Lemma versioned_name_inj (desired_name : string) (a b : nat) :
  versioned_name desired_name a = versioned_name desired_name b -> a = b.
Proof.
  unfold versioned_name. intros H.
  apply (inj (String.app desired_name)) in H.
  apply (inj (String.app " version ")) in H.
  by apply (inj pretty) in H.
Qed.

(** A versioned name that the loop has passed plays no part any more. *)
Lemma next_version_name_passed (X : gset string) (desired_name : string)
    (fuel v v' : nat) :
  v' < v ->
  next_version_name (X ∖ {[versioned_name desired_name v']}) desired_name fuel v
  = next_version_name X desired_name fuel v.
Proof.
  revert v. induction fuel as [|fuel IH]; intros v Hlt; [done|]. simpl.
  assert (versioned_name desired_name v <> versioned_name desired_name v') as Hne.
  { intros E. apply versioned_name_inj in E. lia. }
  destruct (decide (versioned_name desired_name v
                      ∈ X ∖ {[versioned_name desired_name v']})) as [Hin|Hout];
    destruct (decide (versioned_name desired_name v ∈ X)) as [Hin'|Hout'].
  - apply IH. lia.
  - apply elem_of_difference in Hin as [Hin _]. done.
  - exfalso. apply Hout. apply elem_of_difference. split; [done|].
    by rewrite elem_of_singleton.
  - reflexivity.
Qed.

Lemma size_list_to_set_le (l : list string) :
  size (list_to_set l : gset string) <= length l.
Proof.
  induction l as [|x l IH].
  - rewrite list_to_set_nil, size_empty. simpl. lia.
  - rewrite list_to_set_cons, size_union_alt, size_singleton. simpl.
    pose proof (subseteq_size (list_to_set l ∖ {[x]}) (list_to_set l : gset string)) as Hle.
    assert (list_to_set l ∖ {[x]} ⊆ (list_to_set l : gset string)) as Hsub.
    { intros y Hy. by apply elem_of_difference in Hy as [Hy _]. }
    specialize (Hle Hsub). lia.
Qed.

(** With more fuel than there are names, the loop ends, on the first
    version from [v] on whose name is free. *)
Lemma next_version_name_total (fuel : nat) :
  forall (X : gset string) (desired_name : string) (v : nat),
    size X < fuel ->
    exists N, v <= N /\
      next_version_name X desired_name fuel v = Some (versioned_name desired_name N) /\
      (versioned_name desired_name N ∉ X) /\
      forall k, v <= k < N -> versioned_name desired_name k ∈ X.
Proof.
  induction fuel as [|fuel IH]; intros X desired_name v Hsize; [lia|]. simpl.
  destruct (decide (versioned_name desired_name v ∈ X)) as [Hin|Hout].
  - pose (X' := X ∖ {[versioned_name desired_name v]}).
    assert (size X' < fuel) as Hsize'.
    { unfold X'. rewrite size_difference by (by apply singleton_subseteq_l).
      rewrite size_singleton.
      assert (size X <> 0)
        by (by apply size_non_empty_iff, (non_empty_inhabited _ _ Hin)).
      lia. }
    destruct (IH X' desired_name (S v) Hsize') as (N & HN & Hrun & Hfree & Hbelow).
    unfold X' in Hrun. rewrite next_version_name_passed in Hrun by lia.
    exists N. split_and!; [lia|done| |].
    + intros Hin'. apply Hfree. unfold X'.
      apply elem_of_difference. split; [done|].
      rewrite elem_of_singleton. intros E. apply versioned_name_inj in E. lia.
    + intros k Hk. destruct (decide (k = v)) as [->|Hne]; [done|].
      assert (versioned_name desired_name k ∈ X') as Hk' by (apply Hbelow; lia).
      unfold X' in Hk'. by apply elem_of_difference in Hk' as [Hk' _].
  - exists v. split_and!; [lia|done|done|]. intros k Hk. lia.
Qed.

Lemma next_version_name_more_fuel (X : gset string) (desired_name : string)
    (fuel fuel' v : nat) (name : string) :
  next_version_name X desired_name fuel v = Some name ->
  fuel <= fuel' ->
  next_version_name X desired_name fuel' v = Some name.
Proof.
  revert fuel' v. induction fuel as [|fuel IH]; intros fuel' v Hrun Hle; [done|].
  destruct fuel' as [|fuel']; [lia|]. simpl in *.
  destruct (decide (versioned_name desired_name v ∈ X)); [|done].
  apply IH; [done|lia].
Qed.

(** The name computed from the user's playlists: found within the fuel
    that the engine gives the loop, the same with more fuel, free, and the
    first that is free. *)
Lemma unique_name_spec (existing_playlists : list TidalPlaylist)
    (desired_name : string) :
  exists name,
    unique_name (S (length existing_playlists)) existing_playlists desired_name
      = Some name /\
    (forall fuel, length existing_playlists < fuel ->
       unique_name fuel existing_playlists desired_name = Some name) /\
    (name ∉ (pl_name <$> existing_playlists)) /\
    (desired_name ∉ (pl_name <$> existing_playlists) -> name = desired_name) /\
    (desired_name ∈ (pl_name <$> existing_playlists) ->
       exists N, 2 <= N /\ name = versioned_name desired_name N /\
         forall k, 2 <= k < N ->
           versioned_name desired_name k ∈ (pl_name <$> existing_playlists)).
Proof.
  unfold unique_name.
  set (names := pl_name <$> existing_playlists).
  assert (size (list_to_set names : gset string) < S (length existing_playlists)) as Hsize.
  { pose proof (size_list_to_set_le names) as Hle. unfold names in Hle at 2.
    rewrite length_fmap in Hle. lia. }
  destruct (decide (desired_name ∈ (list_to_set names : gset string))) as [Hin|Hout].
  - destruct (next_version_name_total _ (list_to_set names) desired_name 2 Hsize)
      as (N & HN & Hrun & Hfree & Hbelow).
    exists (versioned_name desired_name N). split; [done|]. split.
    { intros fuel Hfuel. apply (next_version_name_more_fuel _ _ _ _ _ _ Hrun). lia. }
    split; [by rewrite <- (elem_of_list_to_set (C:=gset string))|].
    split.
    { intros Hnot. exfalso. apply Hnot.
      by apply (elem_of_list_to_set (C:=gset string)). }
    intros _. exists N. split_and!; [done|done|].
    intros k Hk. apply (elem_of_list_to_set (C:=gset string)). by apply Hbelow.
  - exists desired_name. split; [done|]. split; [done|].
    split; [by rewrite <- (elem_of_list_to_set (C:=gset string))|].
    split; [done|]. intros Hin. exfalso. apply Hout.
    by apply (elem_of_list_to_set (C:=gset string)).
Qed.

(** C9: the name that [get_unique_playlist_name] computes from the user's
    playlists.  The loop ends within one iteration more than there are
    playlists, and more fuel changes nothing; the name is that of no existing
    playlist; it is the desired name when that is free, and otherwise
    ["<name> version N"] for the least [N] from 2 on whose name is free.  With
    a playlist ["Favorites"] the name is ["Favorites version 2"], and with that
    one too, ["Favorites version 3"]. *)
Theorem unique_name_total (existing_playlists : list TidalPlaylist)
    (desired_name : string) :
  (exists name,
     unique_name (S (length existing_playlists)) existing_playlists desired_name
       = Some name /\
     (forall fuel, length existing_playlists < fuel ->
        unique_name fuel existing_playlists desired_name = Some name) /\
     (name ∉ (pl_name <$> existing_playlists)) /\
     (desired_name ∉ (pl_name <$> existing_playlists) -> name = desired_name) /\
     (desired_name ∈ (pl_name <$> existing_playlists) ->
        exists N, 2 <= N /\ name = versioned_name desired_name N /\
          forall k, 2 <= k < N ->
            versioned_name desired_name k ∈ (pl_name <$> existing_playlists))) /\
  unique_name 2 [{| pl_id := 1; pl_name := "Favorites" |}] "Favorites"
    = Some "Favorites version 2" /\
  unique_name 3 [{| pl_id := 1; pl_name := "Favorites" |};
                 {| pl_id := 2; pl_name := "Favorites version 2" |}] "Favorites"
    = Some "Favorites version 3".
Proof.
  split; [apply unique_name_spec|]. split; vm_compute; reflexivity.
Qed.

End Unique_name.

(** ** The calls of the match resolver *)

Section Resolver_calls.
Context {U : PyStr.Unicode}.
Context {W : Type} `{!Tidal W}.

Lemma count_app (p : event -> bool) (l1 l2 : list event) :
  count p (l1 ++ l2) = count p l1 + count p l2.
Proof. unfold count. by rewrite List.filter_app, length_app. Qed.

Lemma count_is_search (l : list event) :
  count is_search l = count is_track_search l + count is_album_search l.
Proof.
  unfold count. induction l as [|e l IH]; [done|].
  destruct e as [[] ?| | | | | | | | |]; simpl; lia.
Qed.

Lemma catalog_calls_app (a b c a' b' c' : nat) (l1 l2 : list event) :
  catalog_calls a b c l1 -> catalog_calls a' b' c' l2 ->
  catalog_calls (a + a') (b + b') (c + c') (l1 ++ l2).
Proof.
  intros (H1 & H2 & H3 & H4) (H1' & H2' & H3' & H4').
  unfold catalog_calls. rewrite !count_app. split_and!; try lia.
  by apply Forall_app.
Qed.

Lemma catalog_calls_weaken (a b c a' b' c' : nat) (l : list event) :
  catalog_calls a b c l -> a <= a' -> b <= b' -> c <= c' ->
  catalog_calls a' b' c' l.
Proof. intros (H1 & H2 & H3 & H4) ? ? ?. unfold catalog_calls. split_and!; try lia. done. Qed.

Lemma calls_within_weaken {A} (m : M W A) (a b c a' b' c' : nat) :
  calls_within m a b c -> a <= a' -> b <= b' -> c <= c' ->
  calls_within m a' b' c'.
Proof.
  intros Hm ? ? ? s. destruct (Hm s) as (new & Htr & Hc & Hout).
  exists new. split; [done|]. split; [by eapply catalog_calls_weaken|done].
Qed.

Lemma calls_within_ret {A} (x : A) : calls_within (ret x : M W A) 0 0 0.
Proof.
  intros s. exists []. simpl. rewrite app_nil_r. split; [done|]. split.
  - unfold catalog_calls, count. simpl. split_and!; try lia. constructor.
  - left. by exists x.
Qed.

Lemma calls_within_bind {A B} (m : M W A) (k : A -> M W B) (a b c a' b' c' : nat) :
  calls_within m a b c -> (forall x, calls_within (k x) a' b' c') ->
  calls_within (bind m k) (a + a') (b + b') (c + c').
Proof.
  intros Hm Hk s. destruct (Hm s) as (new & Htr & Hc & Hout).
  unfold bind. destruct (m s) as [o s1]. simpl in *.
  destruct Hout as [[x ->] | [msg ->]].
  - destruct (Hk x s1) as (new' & Htr' & Hc' & Hout').
    exists (new ++ new'). rewrite Htr', Htr, app_assoc.
    split; [done|]. split; [by apply catalog_calls_app|done].
  - exists new. simpl. split; [done|]. split.
    + eapply catalog_calls_weaken; [done|lia..].
    + right. by exists msg.
Qed.

Lemma calls_within_try_except {A} (body : M W A) (handler : string -> M W A)
    (a b c a' b' c' : nat) :
  calls_within body a b c -> (forall msg, calls_within (handler msg) a' b' c') ->
  calls_within (try_except body handler) (a + a') (b + b') (c + c').
Proof.
  intros Hm Hk s. destruct (Hm s) as (new & Htr & Hc & Hout).
  unfold try_except. destruct (body s) as [o s1]. simpl in *.
  destruct Hout as [[x ->] | [msg ->]].
  - exists new. simpl. split; [done|]. split.
    + eapply catalog_calls_weaken; [done|lia..].
    + left. by exists x.
  - destruct (Hk msg s1) as (new' & Htr' & Hc' & Hout').
    exists (new ++ new'). rewrite Htr', Htr, app_assoc.
    split; [done|]. split; [by apply catalog_calls_app|done].
Qed.

Lemma calls_within_call {A} (e : event) (oracle : W -> answer A * W) (a b c : nat) :
  catalog_calls a b c [e] -> calls_within (call e oracle) a b c.
Proof.
  intros Hc s. exists [e]. unfold call. destruct (oracle (world s)) as [[x|msg] w];
    run_step; (split; [done|]); (split; [done|]).
  - left. by exists x.
  - right. by exists msg.
Qed.

Lemma calls_within_search_tracks (query : string) :
  calls_within (search_tracks query) 1 0 0.
Proof.
  apply calls_within_call. unfold catalog_calls, count. simpl.
  split_and!; try lia. by repeat constructor.
Qed.

Lemma calls_within_search_albums (query : string) :
  calls_within (search_albums query) 0 1 0.
Proof.
  apply calls_within_call. unfold catalog_calls, count. simpl.
  split_and!; try lia. by repeat constructor.
Qed.

Lemma calls_within_scan_albums (albums : list TidalAlbum) (cleaned : string) :
  calls_within (scan_albums albums cleaned) 0 0 (length albums).
Proof.
  induction albums as [|album rest IH]; simpl.
  - apply calls_within_ret.
  - apply (calls_within_bind _ _ 0 0 1 0 0 (length rest)).
    + apply (calls_within_try_except _ _ 0 0 1 0 0 0).
      * apply (calls_within_bind _ _ 0 0 1 0 0 0).
        -- apply calls_within_call. unfold catalog_calls, count. simpl.
           split_and!; try lia. by repeat constructor.
        -- intros tracks. apply calls_within_ret.
      * intros _. apply calls_within_ret.
    + intros [t|]; [|done].
      eapply calls_within_weaken; [apply calls_within_ret|lia..].
Qed.

Lemma calls_within_search_track_in_album (track : SourceTrack) (cleaned : string) :
  calls_within (search_track_in_album track cleaned) 0 1 3.
Proof.
  unfold search_track_in_album.
  destruct (decide (album_name track = "")).
  - eapply calls_within_weaken; [apply calls_within_ret|lia..].
  - apply (calls_within_try_except _ _ 0 1 3 0 0 0).
    + apply (calls_within_bind _ _ 0 1 0 0 0 3).
      * apply calls_within_search_albums.
      * intros albums.
        eapply calls_within_weaken; [apply calls_within_scan_albums|try lia..].
        rewrite length_take. lia.
    + intros _. apply calls_within_ret.
Qed.

Lemma calls_within_find_best_track_match (track : SourceTrack) :
  calls_within (find_best_track_match track) 3 1 3.
Proof.
  unfold find_best_track_match.
  apply (calls_within_bind _ _ 1 0 0 2 1 3); [apply calls_within_search_tracks|].
  intros results.
  destruct (isrc_match results track);
    [eapply calls_within_weaken; [apply calls_within_ret|lia..]|].
  destruct (exact_name_match results track);
    [eapply calls_within_weaken; [apply calls_within_ret|lia..]|].
  apply (calls_within_bind _ _ 1 0 0 1 1 3).
  { destruct (decide _); [apply calls_within_search_tracks|].
    eapply calls_within_weaken; [apply calls_within_ret|lia..]. }
  intros results'.
  destruct (fuzzy_name_match results' _);
    [eapply calls_within_weaken; [apply calls_within_ret|lia..]|].
  apply (calls_within_bind _ _ 1 0 0 0 1 3).
  { destruct (decide _).
    - apply (calls_within_bind _ _ 1 0 0 0 0 0); [apply calls_within_search_tracks|].
      intros ?. apply calls_within_ret.
    - eapply calls_within_weaken; [apply calls_within_ret|lia..]. }
  intros [t|];
    [eapply calls_within_weaken; [apply calls_within_ret|lia..]|].
  apply calls_within_search_track_in_album.
Qed.


End Resolver_calls.


(** ** The order of playlists and tracks *)

Section Order.
Context {U : PyStr.Unicode}.
Context {W : Type} `{!Tidal W}.























Lemma ledger_app (l1 l2 : list event) : ledger (l1 ++ l2) = ledger l1 ++ ledger l2.
Proof. apply omap_app. Qed.






















(** For numbers of the displayed list, no index is out of range. *)
Lemma selected_playlists_total (playlists : list (string * string))
    (selected_indices : gset Z) :
  in_list (Z.of_nat (length playlists)) selected_indices ->
  exists selected, selected_playlists playlists selected_indices = Some selected.
Proof.
  intros Hsel. unfold selected_playlists.
  assert (Forall (fun i => (1 <= i <= Z.of_nat (length playlists))%Z)
                 (sorted selected_indices)) as Hall.
  { apply Forall_forall. intros i Hi. apply Hsel.
    unfold sorted in Hi. rewrite merge_sort_Permutation in Hi.
    by apply elem_of_elements in Hi. }
  induction Hall as [|i l Hi _ IH]; [by exists []|].
  destruct IH as (selected & Hselected).
  assert (is_Some (py_index playlists (i - 1))) as [p Hp].
  { unfold py_index. rewrite bool_decide_eq_true_2 by lia.
    apply lookup_lt_is_Some. lia. }
  exists (p :: selected). apply mapM_Some_2. constructor; [done|].
  by apply mapM_Some_1.
Qed.


(** *** The tracks of a playlist, one after the other *)











End Order.






(** ** The normal form and its words *)

(** The tables at a character of the ASCII range that is written out. *)
Ltac ascii_char :=
  repeat match goal with
         | |- context [PyStr.is_word ?c] =>
             rewrite (PyStr.is_word_ascii c) by reflexivity
         | |- context [PyStr.is_space ?c] =>
             rewrite (PyStr.is_space_ascii c) by reflexivity
         | |- context [PyStr.category_Mn ?c] =>
             rewrite (PyStr.category_Mn_ascii c) by reflexivity
         end.

Section Normal_form.
Context {U : PyStr.Unicode}.

Lemma lower_char_not_upper (c : ascii) : PyStr.is_upper (PyStr.lower_char c) = false.
Proof. destruct c as [[] [] [] [] [] [] [] []]; vm_compute; reflexivity. Qed.

Lemma lower_char_id (c : ascii) : PyStr.is_upper c = false -> PyStr.lower_char c = c.
Proof. unfold PyStr.lower_char. by intros ->. Qed.

Lemma is_space_space : PyStr.is_space " " = true.
Proof. by ascii_char. Qed.

Lemma is_word_space : PyStr.is_word " " = false.
Proof. by ascii_char. Qed.

Lemma every_impl (p q : ascii -> bool) (s : string) :
  (forall c, p c = true -> q c = true) -> every p s -> every q s.
Proof. intros Hpq. induction s as [|c s IH]; [done|]. intros [Hc Hs]. split; auto. Qed.

Lemma every_app (p : ascii -> bool) (s t : string) :
  every p (s +:+ t) <-> every p s /\ every p t.
Proof.
  induction s as [|c s IH]; simpl.
  - tauto.
  - change (String c s +:+ t) with (String c (s +:+ t)). simpl. tauto.
Qed.

Lemma app_String (c : ascii) (s t : string) : String c s +:+ t = String c (s +:+ t).
Proof. reflexivity. Qed.

Lemma app_empty_l (t : string) : "" +:+ t = t.
Proof. reflexivity. Qed.

Lemma string_app_empty_r (a : string) : a +:+ "" = a.
Proof. induction a as [|x a IH]; [done|]. by rewrite app_String, IH. Qed.

Lemma string_app_assoc (a b c : string) : (a +:+ b) +:+ c = a +:+ b +:+ c.
Proof. induction a as [|x a IH]; [done|]. by rewrite !app_String, IH. Qed.

(** On ASCII text [str.lower] maps the letters [A] to [Z] and nothing
    else. *)
Lemma lower_ascii (s : string) :
  every PyStr.is_ascii s -> PyStr.lower s = PyStr.map_chars PyStr.lower_char s.
Proof.
  unfold PyStr.lower. generalize "". induction s as [|c s IH]; [done|].
  intros before [Hc Hs]. cbn [PyStr.lower_from PyStr.map_chars].
  by rewrite PyStr.lower_at_ascii, IH.
Qed.

Lemma every_lower_char (s : string) :
  every (fun c => negb (PyStr.is_upper c)) (PyStr.map_chars PyStr.lower_char s).
Proof.
  induction s as [|c s IH]; [done|]. split; [|done].
  by rewrite lower_char_not_upper.
Qed.

Lemma map_lower_char_id (s : string) :
  every (fun c => negb (PyStr.is_upper c)) s -> PyStr.map_chars PyStr.lower_char s = s.
Proof.
  induction s as [|c s IH]; [done|]. intros [Hc Hs]. simpl.
  rewrite IH by done. rewrite lower_char_id; [done|]. by apply negb_true_iff.
Qed.

Lemma lower_char_ascii (c : ascii) :
  PyStr.is_ascii c = true -> PyStr.is_ascii (PyStr.lower_char c) = true.
Proof. destruct c as [[] [] [] [] [] [] [] []]; vm_compute; congruence. Qed.

Lemma every_ascii_lower_char (s : string) :
  every PyStr.is_ascii s -> every PyStr.is_ascii (PyStr.map_chars PyStr.lower_char s).
Proof.
  induction s as [|c s IH]; [done|]. intros [Hc Hs]. split; [|by apply IH].
  by apply lower_char_ascii.
Qed.

Lemma filter_chars_id (p : ascii -> bool) (s : string) :
  every p s -> PyStr.filter_chars p s = s.
Proof. induction s as [|c s IH]; [done|]. intros [Hc Hs]. simpl. by rewrite Hc, IH. Qed.

Lemma every_filter_chars (p q : ascii -> bool) (s : string) :
  every p s -> every p (PyStr.filter_chars q s).
Proof.
  induction s as [|c s IH]; [done|]. intros [Hc Hs]. simpl.
  destruct (q c); [split|]; auto.
Qed.

(** A substitution by the empty string only deletes. *)
Lemma every_re_sub_from (p : ascii -> bool) (m : PyStr.matcher) (s : string) :
  forall skip prev, every p s -> every p (PyStr.re_sub_from m "" skip prev s).
Proof.
  induction s as [|c s IH]; [done|]. intros skip prev [Hc Hs]. simpl.
  destruct skip as [|k]; [|by apply IH].
  destruct (m prev (String c s)) as [[|k]|]; try (split; [done|by apply IH]).
  by apply IH.
Qed.

Lemma every_re_sub (p : ascii -> bool) (m : PyStr.matcher) (s : string) :
  every p s -> every p (PyStr.re_sub m "" s).
Proof. apply every_re_sub_from. Qed.

(** A pattern that cannot start at any character of [s] changes nothing. *)
Lemma re_sub_from_no_start (p : ascii -> bool) (m : PyStr.matcher) (repl s : string) :
  (forall prev c s', p c = true -> m prev (String c s') = None) ->
  every p s -> forall prev, PyStr.re_sub_from m repl 0 prev s = s.
Proof.
  intros Hm. induction s as [|c s IH]; [done|]. intros [Hc Hs] prev. simpl.
  rewrite (Hm prev c s Hc). by rewrite IH.
Qed.

Lemma re_sub_pat_punct (s : string) :
  forall prev, PyStr.re_sub_from PyStr.pat_punct "" 0 prev s
  = PyStr.filter_chars (fun c => PyStr.is_word c || PyStr.is_space c) s.
Proof.
  induction s as [|c s IH]; [done|]. intros prev. simpl.
  destruct (PyStr.is_word c || PyStr.is_space c); simpl; by rewrite IH.
Qed.

Lemma every_filter_chars_pass (q : ascii -> bool) (s : string) :
  every q (PyStr.filter_chars q s).
Proof.
  induction s as [|c s IH]; [done|]. simpl.
  destruct (q c) eqn:Hq; [split|]; auto.
Qed.

(** *** Splitting and joining *)

Lemma join_cons_char (c : ascii) (w : string) (ws : list string) :
  join (String c w :: ws) = String c (join (w :: ws)).
Proof. by destruct ws. Qed.

Lemma join_cons (w : string) (ws : list string) :
  join (w :: ws) = w +:+ match ws with [] => "" | _ :: _ => " " +:+ join ws end.
Proof.
  destruct ws; simpl; [|done].
  induction w as [|c w IH]; [done|]. by rewrite app_String, <- IH.
Qed.

Lemma split_tokens (p : ascii -> bool) (s : string) :
  every p s ->
  Forall (fun w => is_token w /\ every p w) (PyStr.split s).
Proof.
  induction s as [|c s IH]; [constructor|]. intros [Hc Hs]. simpl.
  specialize (IH Hs).
  destruct (PyStr.is_space c) eqn:Hsp; [done|].
  assert (no_space c = true) as Hns by (unfold no_space; by rewrite Hsp).
  destruct (PyStr.starts_word s).
  - destruct (PyStr.split s) as [|w ws].
    + constructor; [|constructor]. by repeat split.
    + apply Forall_cons in IH as [[[Hne Hw] Hpw] Hws].
      constructor; [|done]. by repeat split.
  - constructor; [|done]. by repeat split.
Qed.

Lemma join_empty (ws : list string) :
  Forall is_token ws -> join ws = "" -> ws = [].
Proof.
  destruct ws as [|w ws]; [done|]. intros Hall Hj.
  apply Forall_cons in Hall as [[Hne _] _].
  rewrite join_cons in Hj. destruct w; [done|]. by rewrite app_String in Hj.
Qed.

Lemma split_word (w tail : string) :
  is_token w -> PyStr.starts_word tail = false ->
  PyStr.split (w +:+ tail) = w :: PyStr.split tail.
Proof.
  intros [Hne Hw] Htail. induction w as [|c w IH]; [done|].
  destruct Hw as [Hc Hw]. unfold no_space in Hc. apply negb_true_iff in Hc.
  rewrite app_String. simpl. rewrite Hc.
  destruct w as [|c' w].
  - rewrite app_empty_l, Htail. done.
  - assert (PyStr.starts_word (String c' w +:+ tail) = true) as ->.
    { rewrite app_String. simpl. destruct Hw as [Hc' _]. exact Hc'. }
    rewrite IH; done.
Qed.

Lemma split_join (ws : list string) :
  Forall is_token ws -> PyStr.split (join ws) = ws.
Proof.
  induction ws as [|w ws IH]; [done|]. intros Hall.
  apply Forall_cons in Hall as [Hw Hws]. rewrite join_cons.
  destruct ws as [|w' ws'].
  - rewrite (split_word w "" Hw); done.
  - change (" " +:+ join (w' :: ws')) with (String " " (join (w' :: ws'))).
    rewrite (split_word w _ Hw); [|by cbn; rewrite is_space_space].
    cbn [PyStr.split]. by rewrite is_space_space, IH.
Qed.

(** *** White space is collapsed and trimmed: the words are joined *)

Lemma rstrip_space (t : string) :
  PyStr.rstrip (String " " t)
  = match PyStr.rstrip t with "" => "" | r => String " " r end.
Proof. cbn [PyStr.rstrip]. by rewrite is_space_space. Qed.

Lemma rstrip_no_space (c : ascii) (t : string) :
  PyStr.is_space c = false -> PyStr.rstrip (String c t) = String c (PyStr.rstrip t).
Proof. intros Hc. simpl. rewrite Hc. by destruct (PyStr.rstrip t). Qed.

Lemma re_sub_spaces_in_run (prev : bool) (s : string) :
  PyStr.re_sub_from PyStr.pat_spaces " " 0 prev s
  = (if PyStr.starts_word s then "" else match s with "" => "" | _ => " " end)
      +:+ in_run prev s.
Proof.
  destruct s as [|c s]; [done|]. unfold in_run. simpl.
  unfold PyStr.pat_spaces. simpl.
  destruct (PyStr.is_space c) eqn:Hc; simpl; done.
Qed.

Lemma in_run_lstrip (s : string) :
  forall prev, PyStr.lstrip (in_run prev s) = in_run prev s.
Proof.
  induction s as [|c s IH]; [done|]. intros prev. unfold in_run in *. simpl.
  destruct (PyStr.is_space c) eqn:Hc; [apply IH|].
  unfold PyStr.pat_spaces. simpl. rewrite Hc. simpl. by rewrite Hc.
Qed.

Lemma in_run_rstrip (s : string) :
  forall prev, PyStr.rstrip (in_run prev s) = join (PyStr.split s).
Proof.
  induction s as [|c s IH]; [done|]. intros prev. unfold in_run. simpl.
  destruct (PyStr.is_space c) eqn:Hc; [apply IH|].
  unfold PyStr.pat_spaces at 1. simpl. rewrite Hc.
  rewrite rstrip_no_space by done. rewrite re_sub_spaces_in_run.
  pose proof (split_tokens no_space s) as Htok.
  destruct (PyStr.starts_word s) eqn:Hstart.
  - rewrite app_empty_l, IH.
    destruct (PyStr.split s) as [|w ws] eqn:Hsplit; [|by rewrite join_cons_char].
    destruct s as [|c' s']; [done|]. simpl in Hstart, Hsplit.
    apply negb_true_iff in Hstart. rewrite Hstart in Hsplit.
    destruct (PyStr.starts_word s'); [destruct (PyStr.split s')|]; done.
  - destruct s as [|c' s']; [done|].
    change (" " +:+ in_run (PyStr.is_word c) (String c' s'))
      with (String " " (in_run (PyStr.is_word c) (String c' s'))).
    rewrite rstrip_space, IH.
    destruct (join (PyStr.split (String c' s'))) eqn:Hj.
    + simpl in Hstart. apply negb_false_iff in Hstart.
      assert (PyStr.split (String c' s') = []) as Hnil.
      { apply join_empty; [|done].
        assert (every (fun _ => true) (String c' s')) as Hall
          by (clear; induction (String c' s'); simpl; auto).
        eapply Forall_impl; [exact (split_tokens _ _ Hall)|]. by intros w [Hw _]. }
      rewrite Hnil. done.
    + rewrite <- Hj. rewrite (join_cons (String c "")). 
      destruct (PyStr.split (String c' s')) eqn:Hsplit; [done|]. done.
Qed.

(** [re.sub(r'\s+', ' ', s).strip()] joins the words of [s]. *)
Lemma strip_re_sub_spaces (s : string) :
  PyStr.strip (PyStr.re_sub PyStr.pat_spaces " " s) = join (PyStr.split s).
Proof.
  unfold PyStr.strip, PyStr.re_sub. rewrite re_sub_spaces_in_run.
  assert (PyStr.lstrip
            ((if PyStr.starts_word s then "" else match s with "" => "" | _ => " " end)
               +:+ in_run false s) = in_run false s) as ->.
  { destruct (PyStr.starts_word s); [apply in_run_lstrip|].
    destruct s; [apply in_run_lstrip|].
    change (" " +:+ ?t) with (String " " t). cbn [PyStr.lstrip].
    rewrite is_space_space. apply in_run_lstrip. }
  apply in_run_rstrip.
Qed.

(** *** Patterns that start at a word boundary *)

Lemma join_tail_of (w : string) (rest : list string) :
  join (w :: rest) = w +:+ tail_of rest.
Proof. apply join_cons. Qed.

Lemma ends_word_tail_of (rest : list string) : ends_word (tail_of rest).
Proof. destruct rest; [done|]. apply is_word_space. Qed.

Lemma is_plain_word_token (w : string) : is_plain_word w -> is_token w.
Proof.
  intros [Hne Hw]. split; [done|]. eapply every_impl; [|done].
  intros c Hc. unfold no_space. by apply negb_true_iff, PyStr.is_word_not_space.
Qed.

Lemma re_sub_inside_word (m : PyStr.matcher) (repl w tail : string) :
  (forall c s', PyStr.is_word c = true -> m true (String c s') = None) ->
  every PyStr.is_word w ->
  PyStr.re_sub_from m repl 0 true (w +:+ tail)
  = w +:+ PyStr.re_sub_from m repl 0 true tail.
Proof.
  intros Hin. induction w as [|c w IH]; [done|]. intros [Hc Hw].
  rewrite !app_String. simpl. rewrite (Hin c _ Hc), Hc. by rewrite IH.
Qed.

Lemma re_sub_from_space (m : PyStr.matcher) (repl s : string) :
  m true (String " " s) = None ->
  PyStr.re_sub_from m repl 0 true (String " " s)
  = String " " (PyStr.re_sub_from m repl 0 false s).
Proof. intros Hm. simpl. by rewrite Hm, is_word_space. Qed.

(** The substitution passes over a word at whose start the pattern does
    not match, and over the space after it. *)
Lemma re_sub_word_step (m : PyStr.matcher) (repl w : string) (rest : list string) :
  (forall c s', PyStr.is_word c = true -> m true (String c s') = None) ->
  (forall s', m true (String " " s') = None) ->
  is_plain_word w -> m false (w +:+ tail_of rest) = None ->
  PyStr.re_sub_from m repl 0 false (join (w :: rest))
  = w +:+ match rest with
          | [] => ""
          | _ :: _ => " " +:+ PyStr.re_sub_from m repl 0 false (join rest)
          end.
Proof.
  intros Hin Hsp [Hne Hchars] Hw. rewrite join_tail_of.
  destruct w as [|c w]; [done|]. destruct Hchars as [Hc Hword].
  rewrite app_String in *. simpl. rewrite Hw, Hc.
  rewrite re_sub_inside_word by done. do 2 f_equal.
  destruct rest as [|w' rest']; [done|].
  change (tail_of (w' :: rest')) with (String " " (join (w' :: rest'))).
  by rewrite re_sub_from_space by apply Hsp.
Qed.

Lemma re_sub_words (m : PyStr.matcher) (repl : string) (ws : list string) :
  (forall c s', PyStr.is_word c = true -> m true (String c s') = None) ->
  (forall s', m true (String " " s') = None) ->
  Forall is_plain_word ws -> starts_nowhere m ws ->
  PyStr.re_sub_from m repl 0 false (join ws) = join ws.
Proof.
  intros Hin Hsp. induction ws as [|w rest IH]; [done|]. intros Hall [Hw Hrest].
  apply Forall_cons in Hall as [Hplain Hall].
  rewrite re_sub_word_step by done. rewrite join_tail_of.
  destruct rest; [done|]. by rewrite IH.
Qed.

Lemma after_literal_word (lit w tail rest : string) :
  every PyStr.is_word lit -> every PyStr.is_word w -> ends_word tail ->
  PyStr.after_literal lit (w +:+ tail) = Some rest ->
  (w = lit /\ rest = tail) \/
  (exists c w', PyStr.is_word c = true /\ w = lit +:+ String c w'
                /\ rest = String c w' +:+ tail).
Proof.
  revert w. induction lit as [|a lit IH]; intros w Hlit Hw Htail Hafter.
  - simpl in Hafter. injection Hafter as <-. destruct w as [|c w]; [by left|].
    right. exists c, w. destruct Hw as [Hc _]. done.
  - destruct Hlit as [Ha Hlit]. destruct w as [|b w].
    + rewrite app_empty_l in Hafter. destruct tail as [|t tail]; [done|].
      simpl in Hafter, Htail. destruct (decide (a = t)) as [->|]; [|done]. congruence.
    + rewrite app_String in Hafter. simpl in Hafter. destruct Hw as [Hb Hw].
      destruct (decide (a = b)) as [->|]; [|done].
      destruct (IH w Hlit Hw Htail Hafter) as [[-> ->]|(c & w' & Hc & -> & ->)].
      * by left.
      * right. by exists c, w'.
Qed.

Lemma word_boundary_ends (tail : string) :
  ends_word tail -> PyStr.word_boundary true tail = true.
Proof. destruct tail as [|c tail]; [done|]. simpl. by intros ->. Qed.

Lemma remix_alternative_none (lit w tail : string) :
  every PyStr.is_word lit -> every PyStr.is_word w -> ends_word tail ->
  w <> lit -> PyStr.remix_alternative lit (w +:+ tail) = None.
Proof.
  intros Hlit Hw Htail Hne. unfold PyStr.remix_alternative.
  destruct (PyStr.after_literal lit (w +:+ tail)) as [rest|] eqn:Hafter; [|done].
  destruct (after_literal_word _ _ _ _ Hlit Hw Htail Hafter)
    as [[-> ->]|(c & w' & Hc & -> & ->)]; [done|].
  rewrite app_String. simpl. by rewrite Hc.
Qed.

Lemma feat_alternative_none (lit w tail : string) :
  every PyStr.is_word lit -> every PyStr.is_word w -> ends_word tail ->
  w <> lit \/ tail = "" -> PyStr.feat_alternative lit (w +:+ tail) = None.
Proof.
  intros Hlit Hw Htail Hne. unfold PyStr.feat_alternative.
  destruct (PyStr.after_literal lit (w +:+ tail)) as [rest|] eqn:Hafter; [|done].
  destruct (after_literal_word _ _ _ _ Hlit Hw Htail Hafter)
    as [[-> ->]|(c & w' & Hc & -> & ->)].
  - destruct Hne as [Hne| ->]; done.
  - rewrite app_String. destruct (decide (c = "."%char)) as [->|].
    { by rewrite PyStr.is_word_ascii in Hc by reflexivity. }
    by rewrite (PyStr.is_word_not_space c Hc).
Qed.

Lemma pat_remix_none (w tail : string) :
  every PyStr.is_word w -> ends_word tail -> w ∉ remix_words ->
  PyStr.pat_remix false (w +:+ tail) = None.
Proof.
  intros Hw Htail Hnot. unfold PyStr.pat_remix, remix_words in *.
  destruct (PyStr.word_boundary false (w +:+ tail)); [|done]. simpl.
  rewrite !remix_alternative_none; try done; try (by cbn [PyStr.every]; repeat split; ascii_char);
    intros ->; apply Hnot; repeat constructor.
Qed.

Lemma pat_feat_none (w tail : string) :
  every PyStr.is_word w -> ends_word tail -> w ∉ feat_words \/ tail = "" ->
  PyStr.pat_feat false (w +:+ tail) = None.
Proof.
  intros Hw Htail Hnot. unfold PyStr.pat_feat, feat_words in *.
  destruct (PyStr.word_boundary false (w +:+ tail)); [|done]. simpl.
  rewrite !feat_alternative_none; try done; try (by cbn [PyStr.every]; repeat split; ascii_char);
    (destruct Hnot as [Hnot|]; [left|by right]); intros ->; apply Hnot;
    repeat constructor.
Qed.

Lemma settled_starts_nowhere (ws : list string) :
  Forall is_plain_word ws -> settled ws = true ->
  starts_nowhere PyStr.pat_feat ws /\ starts_nowhere PyStr.pat_remix ws.
Proof.
  induction ws as [|w rest IH]; [done|]. intros Hall Hset.
  apply Forall_cons in Hall as [[Hne Hchars] Hall]. simpl in Hset.
  apply andb_true_iff in Hset as [Hset Hrest].
  apply andb_true_iff in Hset as [Hremix Hfeat].
  apply negb_true_iff, bool_decide_eq_false in Hremix.
  destruct (IH Hall Hrest) as [IHf IHr].
  pose proof Hchars as Hword.
  split; (split; [|done]).
  - apply pat_feat_none; [done|apply ends_word_tail_of|].
    destruct rest; [by right|left].
    by apply negb_true_iff, bool_decide_eq_false in Hfeat.
  - apply pat_remix_none; [done|apply ends_word_tail_of|done].
Qed.

(** *** Where the patterns do start *)

Lemma after_literal_app (lit rest : string) :
  PyStr.after_literal lit (lit +:+ rest) = Some rest.
Proof.
  induction lit as [|a lit IH]; [done|]. rewrite app_String. simpl.
  by destruct (decide (a = a)).
Qed.

Lemma remix_alternative_some (lit tail : string) :
  ends_word tail ->
  PyStr.remix_alternative lit (lit +:+ tail) = Some (String.length lit).
Proof.
  intros Htail. unfold PyStr.remix_alternative.
  by rewrite after_literal_app, word_boundary_ends.
Qed.

Lemma feat_alternative_some (lit rest : string) :
  PyStr.feat_alternative lit (lit +:+ String " " rest)
  = Some (String.length lit + 1)%nat.
Proof.
  unfold PyStr.feat_alternative. rewrite after_literal_app.
  destruct (decide (" "%char = "."%char)); [done|]. by rewrite is_space_space.
Qed.

Lemma first_match_some {A} (l : list (option A)) (x : A) :
  Some x ∈ l -> exists y, PyStr.first_match l = Some y.
Proof.
  induction l as [|[y|] l IH]; intros Hin.
  - by apply elem_of_nil in Hin.
  - by exists y.
  - apply elem_of_cons in Hin as [|Hin]; [done|]. by apply IH.
Qed.

Lemma first_match_positive (l : list (option nat)) (n : nat) :
  Forall (fun o => o <> Some 0%nat) l -> PyStr.first_match l = Some n ->
  exists k, n = S k.
Proof.
  induction l as [|[y|] l IH]; intros Hall Hfirst; [done| |].
  - apply Forall_cons in Hall as [Hy _]. simpl in Hfirst. injection Hfirst as <-.
    destruct y as [|k]; [done|by exists k].
  - apply Forall_cons in Hall as [_ Hall]. by apply IH.
Qed.

Lemma remix_alternative_positive (lit s : string) :
  lit <> "" -> PyStr.remix_alternative lit s <> Some 0%nat.
Proof.
  intros Hlit. unfold PyStr.remix_alternative.
  destruct (PyStr.after_literal lit s) as [rest|]; [|done].
  destruct (PyStr.word_boundary true rest); [|done].
  destruct lit; done.
Qed.

Lemma feat_alternative_positive (lit s : string) :
  PyStr.feat_alternative lit s <> Some 0%nat.
Proof.
  unfold PyStr.feat_alternative.
  destruct (PyStr.after_literal lit s) as [[|c rest]|]; [done| |done].
  destruct (decide (c = "."%char)).
  - destruct rest as [|c' rest]; [done|]. destruct (PyStr.is_space c'); [|done].
    intros [=]; lia.
  - destruct (PyStr.is_space c); [|done]. intros [=]; lia.
Qed.

(** The pattern of the remix words matches at the start of a word that is
    one of them. *)
Lemma pat_remix_some (w tail : string) :
  is_plain_word w -> ends_word tail -> w ∈ remix_words ->
  exists k, PyStr.pat_remix false (w +:+ tail) = Some (S k).
Proof.
  intros [Hne Hchars] Htail Hw. unfold PyStr.pat_remix.
  assert (PyStr.word_boundary false (w +:+ tail) = true) as ->.
  { destruct w as [|c w]; [done|]. rewrite app_String. simpl.
    apply Hchars. }
  match goal with |- context [PyStr.first_match ?l] => set (alternatives := l) end.
  destruct (first_match_some alternatives (String.length w)) as [n Hn].
  { unfold alternatives, remix_words in *.
    apply elem_of_cons in Hw as [->|Hw]; [|apply elem_of_cons in Hw as [->|Hw]];
      [| |apply list_elem_of_singleton in Hw as ->];
      rewrite remix_alternative_some by done; repeat constructor. }
  rewrite Hn. destruct (first_match_positive alternatives n) as [k ->]; [|done|by exists k].
  unfold alternatives. repeat constructor; by apply remix_alternative_positive.
Qed.

(** The pattern of the featuring words matches at the start of a word that
    is one of them and is followed by a space. *)
Lemma pat_feat_some (w rest : string) :
  is_plain_word w -> w ∈ feat_words ->
  exists k, PyStr.pat_feat false (w +:+ String " " rest) = Some (S k).
Proof.
  intros [Hne Hchars] Hw. unfold PyStr.pat_feat.
  assert (PyStr.word_boundary false (w +:+ String " " rest) = true) as ->.
  { destruct w as [|c w]; [done|]. rewrite app_String. simpl.
    apply Hchars. }
  match goal with |- context [PyStr.first_match ?l] => set (alternatives := l) end.
  destruct (first_match_some alternatives (String.length w + 1)%nat) as [n Hn].
  { unfold alternatives, feat_words in *.
    apply elem_of_cons in Hw as [->|Hw]; [|apply elem_of_cons in Hw as [->|Hw]];
      [| |apply list_elem_of_singleton in Hw as ->];
      rewrite feat_alternative_some; repeat constructor. }
  rewrite Hn. destruct (first_match_positive alternatives n) as [k ->]; [|done|by exists k].
  unfold alternatives. repeat constructor; apply feat_alternative_positive.
Qed.

(** *** The normal form *)

Lemma every_and (p q : ascii -> bool) (s : string) :
  every p s -> every q s -> every (fun c => p c && q c) s.
Proof.
  induction s as [|c s IH]; [done|]. intros [Hp Hs] [Hq Hs']. split; [|by apply IH].
  by rewrite Hp, Hq.
Qed.

Lemma every_true (s : string) : every (fun _ => true) s.
Proof. induction s; simpl; auto. Qed.

(** A normal form is a list of words joined by single spaces. *)
Lemma normalize_text_words (text : string) :
  exists ws, normalize_text text = join ws /\ Forall is_plain_word ws.
Proof.
  unfold normalize_text. destruct (decide (text = "")); [by exists []|].
  rewrite strip_re_sub_spaces.
  match goal with |- context [PyStr.split ?z] => set (punct_free := z) end.
  exists (PyStr.split punct_free). split; [done|].
  assert (every (fun c => PyStr.is_word c || PyStr.is_space c) punct_free) as Hall.
  { unfold punct_free, PyStr.re_sub at 1. rewrite re_sub_pat_punct.
    apply every_filter_chars_pass. }
  eapply Forall_impl; [exact (split_tokens _ _ Hall)|].
  intros w [[Hne Hns] Hw]. split; [done|].
  eapply every_impl; [|exact (every_and _ _ _ Hns Hw)].
  intros c Hc. unfold no_space in *.
  destruct (PyStr.is_space c), (PyStr.is_word c); done.
Qed.

Lemma plain_words_chars (ws : list string) :
  Forall is_plain_word ws ->
  every (fun c => PyStr.is_word c || PyStr.is_space c) (join ws).
Proof.
  induction ws as [|w rest IH]; [done|]. intros Hall.
  apply Forall_cons in Hall as [[_ Hw] Hall]. rewrite join_tail_of.
  rewrite !every_app. split.
  - eapply every_impl; [|exact Hw]. by intros c ->.
  - destruct rest; [done|]. split; [|exact (IH Hall)].
    by rewrite is_space_space, orb_true_r.
Qed.

(** On a text of words that the first three steps leave alone, the
    normalizer is its other steps; the parentheses step does nothing. *)
Lemma normalize_text_plain (ws : list string) :
  Forall is_plain_word ws -> join ws <> "" -> first_steps (join ws) = join ws ->
  normalize_text (join ws)
  = PyStr.strip
      (PyStr.re_sub PyStr.pat_spaces " "
         (PyStr.re_sub PyStr.pat_punct ""
            (PyStr.re_sub PyStr.pat_remix ""
               (PyStr.re_sub PyStr.pat_feat "" (join ws))))).
Proof.
  intros Hall Hne Hfirst. unfold normalize_text.
  destruct (decide (join ws = "")); [done|].
  pose proof (plain_words_chars ws Hall) as Hchars.
  change (PyStr.lower (PyStr.filter_chars _ (PyStr.nfd (join ws))))
    with (first_steps (join ws)).
  rewrite Hfirst.
  assert (PyStr.re_sub PyStr.pat_parens "" (join ws) = join ws) as ->; [|done].
  apply (re_sub_from_no_start (fun c => PyStr.is_word c || PyStr.is_space c));
    [|done].
  intros prev c s' Hc. unfold PyStr.pat_parens.
  destruct (decide (c = "("%char)) as [->|]; [|done].
  revert Hc. by ascii_char.
Qed.

Lemma pat_feat_inside (c : ascii) (s' : string) :
  PyStr.is_word c = true -> PyStr.pat_feat true (String c s') = None.
Proof. intros Hc. unfold PyStr.pat_feat. simpl. by rewrite Hc. Qed.

Lemma pat_remix_inside (c : ascii) (s' : string) :
  PyStr.is_word c = true -> PyStr.pat_remix true (String c s') = None.
Proof. intros Hc. unfold PyStr.pat_remix. simpl. by rewrite Hc. Qed.

Lemma pat_feat_space (s' : string) : PyStr.pat_feat true (String " " s') = None.
Proof. unfold PyStr.pat_feat. by destruct (PyStr.word_boundary _ _). Qed.

Lemma pat_remix_space (s' : string) : PyStr.pat_remix true (String " " s') = None.
Proof. unfold PyStr.pat_remix. by destruct (PyStr.word_boundary _ _). Qed.

(** Plain words without the words that the normalizer takes out are a
    normal form already. *)
Lemma normalize_text_join (ws : list string) :
  Forall is_plain_word ws -> first_steps (join ws) = join ws -> settled ws = true ->
  normalize_text (join ws) = join ws.
Proof.
  intros Hall Hfirst Hset.
  destruct (decide (join ws = "")) as [Hempty|Hne]; [by rewrite Hempty|].
  rewrite normalize_text_plain by done.
  pose proof (plain_words_chars ws Hall) as Hchars.
  destruct (settled_starts_nowhere ws Hall Hset) as [Hfeat Hremix].
  assert (PyStr.re_sub PyStr.pat_feat "" (join ws) = join ws) as ->
    by (apply re_sub_words; try done; [apply pat_feat_inside|apply pat_feat_space]).
  assert (PyStr.re_sub PyStr.pat_remix "" (join ws) = join ws) as ->
    by (apply re_sub_words; try done; [apply pat_remix_inside|apply pat_remix_space]).
  assert (PyStr.re_sub PyStr.pat_punct "" (join ws) = join ws) as ->.
  { unfold PyStr.re_sub. rewrite re_sub_pat_punct. by apply filter_chars_id. }
  rewrite strip_re_sub_spaces, split_join; [done|].
  eapply Forall_impl; [exact Hall|]. apply is_plain_word_token.
Qed.

(** *** Lengths: no step of the normalizer makes the text longer *)

Lemma length_app (s t : string) :
  String.length (s +:+ t) = (String.length s + String.length t)%nat.
Proof.
  induction s as [|c s IH]; [done|]. rewrite app_String. simpl. by rewrite IH.
Qed.

Lemma length_re_sub_from (m : PyStr.matcher) (repl s : string) :
  (String.length repl <= 1)%nat -> forall skip prev,
  (String.length (PyStr.re_sub_from m repl skip prev s) <= String.length s)%nat.
Proof.
  intros Hrepl. induction s as [|c s IH]; intros skip prev; [done|].
  cbn [PyStr.re_sub_from String.length]. destruct skip as [|k].
  - destruct (m prev (String c s)) as [[|k]|].
    + cbn [String.length]. specialize (IH 0%nat (PyStr.is_word c)). lia.
    + rewrite length_app. specialize (IH k (PyStr.is_word c)). lia.
    + cbn [String.length]. specialize (IH 0%nat (PyStr.is_word c)). lia.
  - specialize (IH k (PyStr.is_word c)). lia.
Qed.

Lemma length_re_sub (m : PyStr.matcher) (repl s : string) :
  (String.length repl <= 1)%nat ->
  (String.length (PyStr.re_sub m repl s) <= String.length s)%nat.
Proof. intros Hrepl. by apply length_re_sub_from. Qed.

(** A pass that deletes its matches gives the text back or a shorter one. *)
Lemma re_sub_from_same_or_shorter (m : PyStr.matcher) (s : string) :
  forall prev,
  PyStr.re_sub_from m "" 0 prev s = s
  \/ (String.length (PyStr.re_sub_from m "" 0 prev s) < String.length s)%nat.
Proof.
  induction s as [|c s IH]; intros prev; [by left|].
  cbn [PyStr.re_sub_from String.length].
  destruct (m prev (String c s)) as [[|k]|].
  - destruct (IH (PyStr.is_word c)) as [->|Hlt]; [by left|right].
    cbn [String.length]. lia.
  - right. rewrite app_empty_l.
    pose proof (length_re_sub_from m "" s (Nat.le_0_l 1) k (PyStr.is_word c)). lia.
  - destruct (IH (PyStr.is_word c)) as [->|Hlt]; [by left|right].
    cbn [String.length]. lia.
Qed.

Lemma re_sub_from_match_changes (m : PyStr.matcher) (s : string) (prev : bool)
    (k : nat) :
  s <> "" -> m prev s = Some (S k) -> PyStr.re_sub_from m "" 0 prev s <> s.
Proof.
  intros Hne Hm Heq. destruct s as [|c s]; [done|].
  cbn [PyStr.re_sub_from] in Heq. rewrite Hm, app_empty_l in Heq.
  pose proof (length_re_sub_from m "" s (Nat.le_0_l 1) k (PyStr.is_word c)) as Hle.
  rewrite Heq in Hle. cbn [String.length] in Hle. lia.
Qed.

Lemma length_filter_chars (p : ascii -> bool) (s : string) :
  (String.length (PyStr.filter_chars p s) <= String.length s)%nat.
Proof.
  induction s as [|c s IH]; [done|]. cbn [PyStr.filter_chars String.length].
  destruct (p c); cbn [String.length]; lia.
Qed.

Lemma length_lstrip (s : string) :
  (String.length (PyStr.lstrip s) <= String.length s)%nat.
Proof.
  induction s as [|c s IH]; [done|]. cbn [PyStr.lstrip].
  destruct (PyStr.is_space c); cbn [String.length]; lia.
Qed.

Lemma length_rstrip (s : string) :
  (String.length (PyStr.rstrip s) <= String.length s)%nat.
Proof.
  induction s as [|c s IH]; [done|]. cbn [PyStr.rstrip].
  destruct (PyStr.rstrip s) as [|c' r]; [destruct (PyStr.is_space c)|];
    cbn [String.length] in *; lia.
Qed.

Lemma length_strip (s : string) :
  (String.length (PyStr.strip s) <= String.length s)%nat.
Proof.
  unfold PyStr.strip. pose proof (length_rstrip (PyStr.lstrip s)).
  pose proof (length_lstrip s). lia.
Qed.

(** *** The converse: an unsettled normal form is normalised further *)

Lemma unsettled_changes (ws : list string) :
  Forall is_plain_word ws -> settled ws = false ->
  PyStr.re_sub PyStr.pat_feat "" (join ws) <> join ws
  \/ PyStr.re_sub PyStr.pat_remix "" (join ws) <> join ws.
Proof.
  induction ws as [|w rest IH]; [done|]. intros Hall Hset.
  apply Forall_cons in Hall as [Hplain Hall].
  assert (every PyStr.is_word w) as Hword by apply Hplain.
  assert (join (w :: rest) <> "") as Hne.
  { rewrite join_tail_of. destruct Hplain as [Hw _]. destruct w; [done|].
    by rewrite app_String. }
  destruct (decide (w ∈ remix_words)) as [Hremix|Hremix].
  { right. destruct (pat_remix_some w (tail_of rest) Hplain (ends_word_tail_of rest) Hremix)
      as [k Hk].
    rewrite <- join_tail_of in Hk. by apply (re_sub_from_match_changes _ _ _ k). }
  destruct rest as [|w' rest'].
  { simpl in Hset. by rewrite bool_decide_eq_false_2 in Hset. }
  destruct (decide (w ∈ feat_words)) as [Hfeat|Hfeat].
  { left. destruct (pat_feat_some w (join (w' :: rest')) Hplain Hfeat) as [k Hk].
    change (String " " (join (w' :: rest'))) with (tail_of (w' :: rest')) in Hk.
    rewrite <- join_tail_of in Hk. by apply (re_sub_from_match_changes _ _ _ k). }
  assert (settled (w' :: rest') = false) as Hrest.
  { cbn [settled] in Hset. rewrite !bool_decide_eq_false_2 in Hset by done.
    exact Hset. }
  unfold PyStr.re_sub in *.
  destruct (IH Hall Hrest) as [Hchange|Hchange]; [left|right].
  - rewrite re_sub_word_step;
      [|apply pat_feat_inside|apply pat_feat_space|done
       |apply pat_feat_none; [done|apply ends_word_tail_of|by left]].
    change (join (w :: w' :: rest')) with (w +:+ " " +:+ join (w' :: rest')).
    intros Heq. by do 2 apply String.app_inj in Heq.
  - rewrite re_sub_word_step;
      [|apply pat_remix_inside|apply pat_remix_space|done
       |apply pat_remix_none; [done|apply ends_word_tail_of|done]].
    change (join (w :: w' :: rest')) with (w +:+ " " +:+ join (w' :: rest')).
    intros Heq. by do 2 apply String.app_inj in Heq.
Qed.

(** Plain words that the normalizer gives back have none of the words that
    it takes out. *)
Lemma normalize_text_join_fixed (ws : list string) :
  Forall is_plain_word ws -> first_steps (join ws) = join ws ->
  normalize_text (join ws) = join ws ->
  settled ws = true.
Proof.
  intros Hall Hfirst Hfix. destruct (settled ws) eqn:Hset; [done|exfalso].
  destruct (decide (join ws = "")) as [Hempty|Hne].
  { apply join_empty in Hempty as ->; [done|].
    eapply Forall_impl; [exact Hall|apply is_plain_word_token]. }
  rewrite normalize_text_plain in Hfix by done.
  set (featless := PyStr.re_sub PyStr.pat_feat "" (join ws)) in *.
  set (remixless := PyStr.re_sub PyStr.pat_remix "" featless) in *.
  set (punctless := PyStr.re_sub PyStr.pat_punct "" remixless) in *.
  pose proof (length_strip (PyStr.re_sub PyStr.pat_spaces " " punctless)) as H5.
  pose proof (length_re_sub PyStr.pat_spaces " " punctless (Nat.le_refl 1)) as H4.
  pose proof (length_re_sub PyStr.pat_punct "" remixless (Nat.le_0_l 1)) as H3.
  fold punctless in H3. rewrite Hfix in H5.
  destruct (re_sub_from_same_or_shorter PyStr.pat_remix featless false) as [Hremix|Hremix];
    [|fold (PyStr.re_sub PyStr.pat_remix "" featless) in Hremix; fold remixless in Hremix;
      pose proof (length_re_sub PyStr.pat_feat "" (join ws) (Nat.le_0_l 1)) as H1;
      fold featless in H1; lia].
  destruct (re_sub_from_same_or_shorter PyStr.pat_feat (join ws) false) as [Hfeat|Hfeat];
    [|fold (PyStr.re_sub PyStr.pat_feat "" (join ws)) in Hfeat; fold featless in Hfeat;
      pose proof (length_re_sub PyStr.pat_remix "" featless (Nat.le_0_l 1)) as H2;
      fold remixless in H2; lia].
  fold (PyStr.re_sub PyStr.pat_feat "" (join ws)) in Hfeat. fold featless in Hfeat.
  fold (PyStr.re_sub PyStr.pat_remix "" featless) in Hremix.
  destruct (unsettled_changes ws Hall Hset) as [Hchange|Hchange].
  - by apply Hchange.
  - apply Hchange. fold featless in Hfeat. by rewrite <- Hfeat at 1 2.
Qed.

Lemma every_join (p : ascii -> bool) (ws : list string) :
  p " "%char = true -> Forall (every p) ws -> every p (join ws).
Proof.
  intros Hsp. induction 1 as [|w rest Hw _ IH]; [done|]. rewrite join_tail_of.
  apply every_app. split; [done|]. by destruct rest.
Qed.

(** The normal form of an ASCII text is ASCII text without upper-case
    letters. *)
Lemma normalize_text_ascii (text : string) :
  every PyStr.is_ascii text ->
  every (fun c => PyStr.is_ascii c && negb (PyStr.is_upper c)) (normalize_text text).
Proof.
  intros Hascii. unfold normalize_text. destruct (decide (text = "")); [done|].
  rewrite strip_re_sub_spaces. apply every_join; [done|].
  eapply Forall_impl; [apply split_tokens|by intros w [_ Hw]].
  do 4 apply every_re_sub. rewrite PyStr.nfd_ascii by done.
  rewrite lower_ascii by by apply every_filter_chars.
  apply every_and; [by apply every_ascii_lower_char, every_filter_chars|].
  apply every_lower_char.
Qed.

(** The first three steps leave such a text alone. *)
Lemma first_steps_ascii (text : string) :
  every (fun c => PyStr.is_ascii c && negb (PyStr.is_upper c)) text ->
  first_steps text = text.
Proof.
  intros Hall.
  assert (every PyStr.is_ascii text) as Hascii
    by (eapply every_impl; [|exact Hall]; by intros c [-> _]%andb_true_iff).
  unfold first_steps. rewrite PyStr.nfd_ascii by done.
  rewrite filter_chars_id
    by (eapply every_impl; [|exact Hascii];
        intros c Hc; by rewrite PyStr.category_Mn_ascii).
  rewrite lower_ascii by done. apply map_lower_char_id.
  eapply every_impl; [|exact Hall]. by intros c [_ ->]%andb_true_iff.
Qed.

(** C3, as amended.  Take a text whose normal form the first three steps of
    the normalizer (decomposition, removal of the marks, lower case) leave as
    it is; every ASCII text is one.  The normalizer is idempotent on it
    exactly when its normal form, read as a list of words, has none of the
    words [remix], [remaster], [remastered], and has [feat], [featuring], [ft]
    at most as its last word. *)
Theorem normalize_text_idempotent_iff_settled (text : string) :
  every PyStr.is_ascii text \/ first_steps (normalize_text text) = normalize_text text ->
  (settled (PyStr.split (normalize_text text)) = true <->
   normalize_text (normalize_text text) = normalize_text text).
Proof.
  intros Hfirst.
  assert (first_steps (normalize_text text) = normalize_text text) as Hsteps.
  { destruct Hfirst as [Hascii|Hsteps]; [|done].
    by apply first_steps_ascii, normalize_text_ascii. }
  clear Hfirst. destruct (normalize_text_words text) as (ws & Hws & Hall).
  rewrite Hws in *.
  rewrite split_join by (eapply Forall_impl; [exact Hall|apply is_plain_word_token]).
  split; [by apply normalize_text_join|by apply normalize_text_join_fixed].
Qed.

End Normal_form.

(** The instance of [normalize_text_idempotent_iff_settled] at a title
    with a parenthesis, a featured artist and punctuation. *)
Lemma normalize_text_idempotent_iff_settled_witness :
  every PyStr.is_ascii "Hello, World feat. X (Live) - 2011 Remastered" /\
  normalize_text (normalize_text "Hello, World feat. X (Live) - 2011 Remastered")
  = normalize_text "Hello, World feat. X (Live) - 2011 Remastered".
Proof.
  assert (every PyStr.is_ascii "Hello, World feat. X (Live) - 2011 Remastered") as Hascii
    by (vm_compute; tauto).
  split; [exact Hascii|].
  apply (proj1 (normalize_text_idempotent_iff_settled
                  "Hello, World feat. X (Live) - 2011 Remastered" (or_introl Hascii))).
  vm_compute. reflexivity.
Defined.

(** ** The token sets of the scorer *)

Section Token_sets.
Context {U : PyStr.Unicode}.

(** A text is white space only, or it is white space, a first word, and a
    rest that does not go on with the word. *)
Lemma split_cases (s : string) :
  (every PyStr.is_space s /\ PyStr.split s = []) \/
  exists sp w tail,
    s = sp +:+ w +:+ tail /\ every PyStr.is_space sp /\ is_token w /\
    PyStr.starts_word tail = false /\ PyStr.split s = w :: PyStr.split tail.
Proof.
  induction s as [|c s IH]; [by left|]. cbn [PyStr.split].
  destruct (PyStr.is_space c) eqn:Hc.
  - destruct IH as [[Hsp Hnil]|(sp & w & tail & -> & Hsp & Hw & Htail & Hsplit)].
    + left. by split.
    + right. exists (String c sp), w, tail. by split_and!.
  - right. assert (no_space c = true) as Hns by (unfold no_space; by rewrite Hc).
    destruct IH as [[Hsp Hnil]|(sp & w & tail & -> & Hsp & Hw & Htail & Hsplit)].
    + exists "", (String c ""), s.
      assert (PyStr.starts_word s = false) as Hstart.
      { destruct s as [|c' s]; [done|]. destruct Hsp as [Hc' _]. cbn. by rewrite Hc'. }
      rewrite Hstart. by split_and!.
    + destruct sp as [|x sp].
      * rewrite app_empty_l in *. destruct Hw as [Hne Hw].
        assert (PyStr.starts_word (w +:+ tail) = true) as ->.
        { destruct w as [|x w]; [done|]. destruct Hw as [Hx _]. exact Hx. }
        rewrite Hsplit. exists "", (String c w), tail. by split_and!.
      * destruct Hsp as [Hx Hsp].
        assert (PyStr.starts_word (String x sp +:+ w +:+ tail) = false) as Hstart
          by (rewrite app_String; cbn [PyStr.starts_word]; by rewrite Hx).
        rewrite Hstart. exists "", (String c ""), (String x sp +:+ w +:+ tail).
        by split_and!.
Qed.

Lemma split_spaces (s : string) : every PyStr.is_space s -> PyStr.split s = [].
Proof.
  induction s as [|c s IH]; [done|]. intros [Hc Hs]. cbn [PyStr.split].
  by rewrite Hc, IH.
Qed.

Lemma split_after_spaces (sp s : string) :
  every PyStr.is_space sp -> PyStr.split (sp +:+ s) = PyStr.split s.
Proof.
  induction sp as [|c sp IH]; [done|]. intros [Hc Hsp]. rewrite app_String.
  cbn [PyStr.split]. by rewrite Hc, IH.
Qed.

(** The words before a space and the words after it. *)
Lemma split_app_space (a b : string) (c : ascii) :
  PyStr.is_space c = true ->
  PyStr.split ((a +:+ String c "") +:+ b) = PyStr.split a ++ PyStr.split b.
Proof.
  intros Hc. remember (String.length a) as n eqn:Hn. revert a Hn.
  induction n as [n IH] using lt_wf_ind. intros a Hn.
  destruct (split_cases a) as [[Hsp Hnil]|(sp & w & tail & -> & Hsp & Hw & Htail & Hsplit)].
  - rewrite Hnil. cbn [app]. rewrite string_app_assoc, split_after_spaces by done.
    change (String c "" +:+ b) with (String c b). cbn [PyStr.split]. by rewrite Hc.
  - rewrite Hsplit, !string_app_assoc, split_after_spaces by done.
    rewrite split_word; [|done|].
    + cbn [app]. f_equal. rewrite <- string_app_assoc. apply (IH (String.length tail)); [|done].
      rewrite Hn, !length_app. destruct Hw as [Hne _]. destruct w; [done|].
      cbn [String.length]. lia.
    + destruct tail as [|x tail]; [|by rewrite app_String].
      rewrite app_empty_l. change (String c "" +:+ b) with (String c b).
      cbn. by rewrite Hc.
Qed.

(** [s.split()] gives the whitespace-delimited tokens of [s]. *)
Lemma split_delimited (w s : string) : w ∈ PyStr.split s <-> delimited w s.
Proof.
  split.
  - remember (String.length s) as n eqn:Hn. revert s Hn.
    induction n as [n IH] using lt_wf_ind. intros s Hn Hin.
    destruct (split_cases s) as [[Hsp Hnil]|(sp & w1 & tail & -> & Hsp & Hw & Htail & Hsplit)].
    { rewrite Hnil in Hin. by apply elem_of_nil in Hin. }
    rewrite Hsplit in Hin. apply elem_of_cons in Hin as [->|Hin].
    + split; [done|]. exists sp, tail. split_and!; [done| |].
      * clear -Hsp. induction sp as [|c sp IHsp]; [by left|right].
        destruct Hsp as [Hc Hsp]. destruct (IHsp Hsp) as [->|(b & x & -> & Hx)].
        -- by exists "", c.
        -- exists (String c b), x. by rewrite app_String.
      * destruct tail as [|c tail]; [done|]. cbn in Htail.
        by apply negb_false_iff in Htail.
    + destruct (IH (String.length tail)) with (s := tail) as (Htok & before & after & Hs & Hb & Ha);
        [|done|done|].
      { rewrite Hn, !length_app. destruct Hw as [Hne _]. destruct w1; [done|].
        cbn [String.length]. lia. }
      split; [done|]. exists (sp +:+ w1 +:+ before), after. split_and!; [| |done].
      * by rewrite Hs, !string_app_assoc.
      * right. destruct Hb as [->|(b & c & -> & Hc)].
        -- exfalso. rewrite app_empty_l in Hs. rewrite Hs in Htail.
           destruct Htok as [Hne Hchars]. destruct w as [|x w]; [done|].
           destruct Hchars as [Hx _]. rewrite app_String in Htail. cbn in Htail.
           unfold no_space in Hx. congruence.
        -- exists (sp +:+ w1 +:+ b), c. by rewrite !string_app_assoc.
  - intros (Htok & before & after & -> & Hb & Ha).
    assert (PyStr.split (w +:+ after) = w :: PyStr.split after) as Hw.
    { apply split_word; [done|]. destruct after as [|c after]; [done|].
      cbn. by rewrite Ha. }
    destruct Hb as [->|(b & c & -> & Hc)].
    + rewrite app_empty_l, Hw. by left.
    + rewrite split_app_space, Hw by done. apply elem_of_app. right. by left.
Qed.

(** The distinct tokens of a text, listed once each: their number is the
    size of the scorer's set. *)
Lemma word_set_tokens (text : string) (tokens : list string) :
  NoDup tokens ->
  (forall w, w ∈ tokens <-> delimited w (normalize_text text)) ->
  word_set text = list_to_set tokens /\ size (word_set text) = length tokens.
Proof.
  intros Hnodup Htokens.
  assert (word_set text = list_to_set tokens) as Heq.
  { apply set_eq. intros w. unfold word_set.
    by rewrite !elem_of_list_to_set, split_delimited, Htokens. }
  split; [done|]. rewrite Heq. by apply size_list_to_set.
Qed.

(** C6.  Let [tokens1] and [tokens2] list, once each, the whitespace-delimited
    tokens of the two normalized texts.  [fuzzy_match_words] answers true
    exactly when neither list is empty and the threshold is at most the
    quotient of the number of tokens of the first list that are in the second
    by the length of the longer list; it answers false when one of the lists
    is empty. *)
Theorem fuzzy_match_words_spec (text1 text2 : string) (threshold : float)
    (tokens1 tokens2 : list string) :
  NoDup tokens1 -> NoDup tokens2 ->
  (forall w, w ∈ tokens1 <-> delimited w (normalize_text text1)) ->
  (forall w, w ∈ tokens2 <-> delimited w (normalize_text text2)) ->
  (fuzzy_match_words text1 text2 threshold = true <->
   tokens1 <> [] /\ tokens2 <> [] /\
   PrimFloat.leb threshold
                 (ratio (length (filter (.∈ tokens2) tokens1))
                        (Nat.max (length tokens1) (length tokens2))) = true) /\
  (tokens1 = [] \/ tokens2 = [] -> fuzzy_match_words text1 text2 threshold = false).
Proof.
  intros Hnodup1 Hnodup2 Htokens1 Htokens2.
  destruct (word_set_tokens text1 tokens1 Hnodup1 Htokens1) as [Hset1 Hsize1].
  destruct (word_set_tokens text2 tokens2 Hnodup2 Htokens2) as [Hset2 Hsize2].
  assert (size (word_set text1 ∩ word_set text2)
          = length (filter (.∈ tokens2) tokens1)) as Hcommon.
  { rewrite <- (size_list_to_set (C:=gset string)) by by apply NoDup_filter.
    f_equal. apply set_eq. intros w.
    rewrite elem_of_intersection, Hset1, Hset2, !elem_of_list_to_set.
    by rewrite list_elem_of_filter, (comm and). }
  assert (forall tokens : list string,
            (list_to_set tokens : gset string) = ∅ <-> tokens = []) as Hempty.
  { intros [|w tokens]; [done|]. split; [|done]. intros Heq.
    assert (w ∈ (∅ : gset string)) as Hin
      by (rewrite <- Heq; apply elem_of_list_to_set; by left).
    by apply elem_of_empty in Hin. }
  unfold fuzzy_match_words, ratio, float_of_len.
  rewrite Hcommon, Hsize1, Hsize2, Hset1, Hset2.
  destruct tokens1 as [|w1 tokens1].
  { rewrite bool_decide_eq_true_2 by done. cbn [orb].
    split; [|done]. split; [done|]. by intros [? _]. }
  destruct tokens2 as [|w2 tokens2].
  { rewrite (bool_decide_eq_true_2 (list_to_set [] = ∅)) by done. rewrite orb_true_r.
    split; [|done]. split; [done|]. by intros (_ & ? & _). }
  rewrite !bool_decide_eq_false_2 by (by rewrite Hempty). cbn [orb].
  split.
  - split; [by intros ->|]. by intros (_ & _ & ->).
  - by intros [?|?].
Qed.

End Token_sets.

(** The instance of [fuzzy_match_words_spec] at a title and a remastered
    issue of it: both have the tokens [yellow] and [submarine], and two out
    of two pass the default threshold. *)
Lemma fuzzy_match_words_spec_witness :
  fuzzy_match_words "Yellow Submarine" "Yellow Submarine (Remastered 2009)"
                    default_threshold = true.
Proof.
  assert (NoDup ["yellow"; "submarine"]) as Hnodup
    by (apply NoDup_cons; split; [by rewrite list_elem_of_singleton|apply NoDup_singleton]).
  assert (forall w, w ∈ ["yellow"; "submarine"]
                    <-> delimited w (normalize_text "Yellow Submarine")) as Htokens1
    by (intros w; by rewrite <- split_delimited).
  assert (forall w, w ∈ ["yellow"; "submarine"]
                    <-> delimited w (normalize_text "Yellow Submarine (Remastered 2009)"))
    as Htokens2 by (intros w; by rewrite <- split_delimited).
  apply (proj2 (proj1 (fuzzy_match_words_spec
                         "Yellow Submarine" "Yellow Submarine (Remastered 2009)"
                         default_threshold ["yellow"; "submarine"] ["yellow"; "submarine"]
                         Hnodup Hnodup Htokens1 Htokens2))).
  split; [done|split; [done|vm_compute; reflexivity]].
Defined.

(** ** Failures of the engine, in any world *)

Section Engine_failures.
Context {U : PyStr.Unicode}.
Context {W : Type} `{!Tidal W}.

Lemma bind_return {A B} (m : M W A) (k : A -> M W B) (s : state W) (a : A)
    (s1 : state W) :
  m s = (Return a, s1) -> bind m k s = k a s1.
Proof. unfold bind. by intros ->. Qed.

Lemma bind_raised {A B} (m : M W A) (k : A -> M W B) (s : state W) (msg : string)
    (s1 : state W) :
  m s = (Raised msg, s1) -> bind m k s = (Raised msg, s1).
Proof. unfold bind. by intros ->. Qed.

Lemma try_except_raised {A} (body : M W A) (handler : string -> M W A) (s : state W)
    (msg : string) (s1 : state W) :
  body s = (Raised msg, s1) -> try_except body handler s = handler msg s1.
Proof. unfold try_except. by intros ->. Qed.

(** Whenever the user's playlists can be listed, the name is found: the
    fuel that the engine gives the loop is never used up. *)
Lemma get_unique_playlist_name_returns (desired_name : string) (s : state W)
    (existing_playlists : list TidalPlaylist) (w : W) :
  user_playlists (world s) = (Ok existing_playlists, w) ->
  exists name,
    unique_name (S (length existing_playlists)) existing_playlists desired_name
      = Some name /\
    fst (get_unique_playlist_name desired_name s) = Return name.
Proof.
  intros Hlist. destruct (unique_name_spec existing_playlists desired_name)
    as (name & Hname & _).
  exists name. split; [done|].
  unfold get_unique_playlist_name. run_step. rewrite Hlist. simpl.
  by rewrite Hname.
Qed.

(** When the user's playlists cannot be listed, [create_tidal_playlist]
    raises from its own handler. *)
Lemma create_tidal_playlist_lookup_failure (name : string) (tracks : list SourceTrack)
    (s : state W) (msg : string) (w : W) :
  user_playlists (world s) = (Raise msg, w) ->
  fst (create_tidal_playlist name tracks s) = Raised (unbound_local "unique_playlist_name").
Proof.
  intros Hlist. unfold create_tidal_playlist, get_unique_playlist_name. run_step.
  by rewrite Hlist.
Qed.

(** When the playlist cannot be created, [create_tidal_playlist] returns
    the tracks it was given and appends nothing to the ledger. *)
Lemma create_tidal_playlist_creation_failure (name : string) (tracks : list SourceTrack)
    (s : state W) (existing_playlists : list TidalPlaylist) (unique msg : string)
    (w1 w2 : W) :
  user_playlists (world s) = (Ok existing_playlists, w1) ->
  unique_name (S (length existing_playlists)) existing_playlists name = Some unique ->
  user_create_playlist unique "Migrated from Spotify" w1 = (Raise msg, w2) ->
  fst (create_tidal_playlist name tracks s) = Return (TrackList tracks) /\
  ledger (trace (snd (create_tidal_playlist name tracks s))) = ledger (trace s).
Proof.
  intros Hlist Hname Hcreate.
  unfold create_tidal_playlist, get_unique_playlist_name. run_step.
  rewrite Hlist. simpl. rewrite Hname. simpl.
  destruct (decide (unique <> name)); run_step; rewrite Hcreate; simpl;
    (split; [done|]); rewrite !ledger_app; simpl; by rewrite !app_nil_r.
Qed.

(** An add that fails without the 412 signature is tried once and lands in
    the handler of line 474: the row's reason is ["search error: "] followed
    by the message. *)
Lemma add_failure_logged_by_search_handler (unique : string) (total k : nat)
    (track : SourceTrack) (s s1 : state W) (found_track : TidalTrack)
    (pl : TidalPlaylist) (msg : string) (w : W) :
  isrc_blank track = false ->
  track_name track +:+ "|" +:+ artist_names track ∉ added_tracks s ->
  find_best_track_match track
    (snd (print (CR +:+ "Generating playlist '" +:+ unique +:+ "'! ("
                   +:+ pretty k +:+ "/" +:+ pretty total +:+ ")") s))
    = (Return (Some found_track), s1) ->
  playlist s1 = Some pl ->
  playlist_add pl [tt_id found_track] (world s1) = (Raise msg, w) ->
  is_412 msg = false ->
  fst (process_track unique total k track s) = Return tt /\
  trace (snd (process_track unique total k track s))
    = trace s1 ++ [PlaylistAdd pl [tt_id found_track];
                   LedgerAppend (row_of track ("search error: " +:+ msg))].
Proof.
  intros Hblank Hkey Hfind Hpl Hadd H412.
  set (key := track_name track +:+ "|" +:+ artist_names track) in *.
  set (s2 := snd (call (PlaylistAdd pl [tt_id found_track])
                       (playlist_add pl [tt_id found_track]) s1)).
  assert (add_call [tt_id found_track] s1 = (Raised msg, s2)) as Hcall.
  { unfold s2, add_call, bind, gets. rewrite Hpl. unfold call. by rewrite Hadd. }
  assert (add_to_playlist (S max_retries) found_track track key unique s1
          = (Raised msg, s2)) as Hloop.
  { unfold max_retries. cbn [add_to_playlist].
    rewrite (try_except_raised _ _ s1 msg s2); [by rewrite H412|].
    by rewrite (bind_raised _ _ s1 msg s2). }
  assert (resolve_and_add unique track key
            (snd (print (CR +:+ "Generating playlist '" +:+ unique +:+ "'! ("
                           +:+ pretty k +:+ "/" +:+ pretty total +:+ ")") s))
          = (Raised msg, s2)) as Hbody.
  { unfold resolve_and_add. rewrite (bind_return _ _ _ _ _ Hfind).
    by rewrite (bind_raised _ _ s1 msg s2). }
  unfold process_track. erewrite (bind_return _ _ s); [|reflexivity].
  rewrite Hblank. erewrite bind_return; [|reflexivity]. fold key.
  cbn [added_tracks]. destruct (decide (key ∈ added_tracks s)); [done|].
  unfold print, emit in Hbody. cbn [snd] in Hbody.
  rewrite (try_except_raised _ _ _ msg s2 Hbody).
  unfold s2, call. rewrite Hadd. run_step. split; [done|].
  by rewrite <- app_assoc.
Qed.

End Engine_failures.

(** * Further properties *)

(** ** The cleaner of track names *)

Section Cleaner.
Context {U : PyStr.Unicode}.

Lemma contains_close (s : string) :
  PyStr.contains ")" s = false <->
  PyStr.index_of (fun c' => bool_decide (c' = ")"%char)) s = None.
Proof.
  induction s as [|c s IH]; [done|]. cbn [PyStr.contains PyStr.index_of PyStr.startswith].
  destruct (decide (")"%char = c)) as [<-|Hne].
  - rewrite bool_decide_eq_true_2 by done. done.
  - rewrite bool_decide_eq_false_2 by done. cbn [orb]. rewrite IH.
    destruct (PyStr.index_of _ s); done.
Qed.

Lemma every_not_close (s : string) :
  PyStr.contains ")" s = false <-> every (fun c => negb (bool_decide (c = ")"%char))) s.
Proof.
  induction s as [|c s IH]; [done|]. cbn [PyStr.contains PyStr.startswith every].
  destruct (decide (")"%char = c)) as [<-|Hne].
  - rewrite bool_decide_eq_true_2 by done. cbn. split; [done|]. by intros [? _].
  - rewrite bool_decide_eq_false_2 by done. cbn [orb negb]. rewrite IH. tauto.
Qed.

(** What is left of a text after the groups are taken out has no group. *)
Lemma has_group_re_sub_from (s : string) :
  forall skip prev,
  has_group (PyStr.re_sub_from PyStr.pat_parens "" skip prev s) = false.
Proof.
  induction s as [|c s IH]; intros skip prev; [done|].
  cbn [PyStr.re_sub_from]. destruct skip as [|k]; [|apply IH].
  unfold PyStr.pat_parens at 1. destruct (decide (c = "("%char)) as [->|Hc].
  - destruct (PyStr.index_of _ s) as [i|] eqn:Hi; cbn [fmap option_fmap option_map].
    + replace (i + 2)%nat with (S (S i)) by lia. rewrite app_empty_l. apply IH.
    + cbn [has_group]. rewrite IH, orb_false_r.
      apply contains_close, every_not_close in Hi.
      apply andb_false_intro2. apply every_not_close.
      by apply every_re_sub_from.
  - cbn [has_group]. rewrite IH. by rewrite bool_decide_eq_false_2.
Qed.

(** A text without group is left as it is. *)
Lemma re_sub_parens_id (s : string) :
  has_group s = false -> forall prev, PyStr.re_sub_from PyStr.pat_parens "" 0 prev s = s.
Proof.
  induction s as [|c s IH]; [done|]. cbn [has_group]. intros Hs prev.
  apply orb_false_iff in Hs as [Hc Hs]. cbn [PyStr.re_sub_from].
  unfold PyStr.pat_parens at 1. destruct (decide (c = "("%char)) as [->|Hne].
  - rewrite bool_decide_eq_true_2 in Hc by done. cbn in Hc.
    apply contains_close in Hc. rewrite Hc. cbn. by rewrite IH.
  - by rewrite IH.
Qed.

Lemma re_sub_parens_fixed (s : string) :
  PyStr.re_sub PyStr.pat_parens "" s = s -> has_group s = false.
Proof. intros <-. apply has_group_re_sub_from. Qed.

Lemma every_lstrip (p : ascii -> bool) (s : string) :
  every p s -> every p (PyStr.lstrip s).
Proof.
  induction s as [|c s IH]; [done|]. intros [Hc Hs]. cbn [PyStr.lstrip].
  destruct (PyStr.is_space c); [by apply IH|done].
Qed.

Lemma every_rstrip (p : ascii -> bool) (s : string) :
  every p s -> every p (PyStr.rstrip s).
Proof.
  induction s as [|c s IH]; [done|]. intros [Hc Hs]. cbn [PyStr.rstrip].
  specialize (IH Hs). destruct (PyStr.rstrip s); [destruct (PyStr.is_space c)|]; done.
Qed.

Lemma has_group_lstrip (s : string) :
  has_group s = false -> has_group (PyStr.lstrip s) = false.
Proof.
  induction s as [|c s IH]; [done|]. intros Hs. cbn [PyStr.lstrip].
  destruct (PyStr.is_space c); [|done]. apply IH.
  cbn [has_group] in Hs. by apply orb_false_iff in Hs as [_ Hs].
Qed.

Lemma has_group_rstrip (s : string) :
  has_group s = false -> has_group (PyStr.rstrip s) = false.
Proof.
  induction s as [|c s IH]; [done|]. cbn [has_group]. intros Hs.
  apply orb_false_iff in Hs as [Hc Hs]. specialize (IH Hs). cbn [PyStr.rstrip].
  assert (has_group (String c (PyStr.rstrip s)) = false) as Hcons.
  { cbn [has_group]. rewrite IH, orb_false_r.
    apply andb_false_iff in Hc as [Hc|Hc]; [by rewrite Hc|].
    apply andb_false_intro2. apply every_not_close, every_rstrip.
    by apply every_not_close. }
  destruct (PyStr.rstrip s); [destruct (PyStr.is_space c)|]; done.
Qed.

Lemma lstrip_head (s : string) :
  match PyStr.lstrip s with
  | "" => True
  | String c _ => PyStr.is_space c = false
  end.
Proof.
  induction s as [|c s IH]; [done|]. cbn [PyStr.lstrip].
  destruct (PyStr.is_space c) eqn:Hc; done.
Qed.

Lemma rstrip_rstrip (s : string) : PyStr.rstrip (PyStr.rstrip s) = PyStr.rstrip s.
Proof.
  induction s as [|c s IH]; [done|]. cbn [PyStr.rstrip].
  destruct (PyStr.rstrip s) as [|c' r] eqn:Hr.
  - destruct (PyStr.is_space c) eqn:Hc; [done|]. cbn. by rewrite Hc.
  - cbn [PyStr.rstrip]. cbn [PyStr.rstrip] in IH. by rewrite IH.
Qed.

(** [s.strip().strip() == s.strip()] *)
Lemma strip_strip (s : string) : PyStr.strip (PyStr.strip s) = PyStr.strip s.
Proof.
  unfold PyStr.strip. pose proof (lstrip_head s) as Hhead.
  destruct (PyStr.lstrip s) as [|c r]; [done|].
  rewrite rstrip_no_space by done. cbn [PyStr.lstrip]. rewrite Hhead.
  rewrite <- rstrip_no_space by done. apply rstrip_rstrip.
Qed.

Lemma has_group_strip (s : string) :
  has_group s = false -> has_group (PyStr.strip s) = false.
Proof. intros Hs. by apply has_group_rstrip, has_group_lstrip. Qed.

(** [clean_track_name] on ASCII text, after its test for the empty string:
    the decomposition and the removal of marks change nothing. *)
Lemma clean_track_name_eq (track_name : string) :
  every PyStr.is_ascii track_name ->
  clean_track_name track_name
  = PyStr.strip (PyStr.re_sub PyStr.pat_parens "" track_name).
Proof.
  intros Hascii. unfold clean_track_name.
  destruct (decide (track_name = "")) as [->|_]; [done|].
  assert (every PyStr.is_ascii (PyStr.re_sub PyStr.pat_parens "" track_name)) as Hsub
    by by apply every_re_sub.
  rewrite PyStr.nfd_ascii by done. rewrite filter_chars_id; [done|].
  eapply every_impl; [|exact Hsub]. intros c Hc. by rewrite PyStr.category_Mn_ascii.
Qed.

Lemma clean_track_name_ascii (track_name : string) :
  every PyStr.is_ascii track_name -> every PyStr.is_ascii (clean_track_name track_name).
Proof.
  intros Hascii. rewrite clean_track_name_eq by done.
  by apply every_rstrip, every_lstrip, every_re_sub.
Qed.

(** The cleaned name has no white space at its ends.  For a name of ASCII
    characters, moreover: it has no parenthesised group; cleaning it again
    changes nothing; and cleaning leaves the name as it is exactly when the
    name has neither white space at its ends nor a group. *)
Theorem clean_track_name_cleaned (track_name : string) :
  PyStr.strip (clean_track_name track_name) = clean_track_name track_name /\
  (every PyStr.is_ascii track_name ->
   has_group (clean_track_name track_name) = false /\
   clean_track_name (clean_track_name track_name) = clean_track_name track_name /\
   (clean_track_name track_name = track_name <->
    PyStr.strip track_name = track_name /\ has_group track_name = false)).
Proof.
  split.
  { unfold clean_track_name. destruct (decide (track_name = "")); [done|].
    apply strip_strip. }
  intros Hascii.
  assert (forall t, every PyStr.is_ascii t -> PyStr.strip t = t -> has_group t = false ->
                    clean_track_name t = t) as Hfixed.
  { intros t Ht Hstrip Hgroup. rewrite clean_track_name_eq by done.
    unfold PyStr.re_sub. by rewrite re_sub_parens_id. }
  assert (PyStr.strip (clean_track_name track_name) = clean_track_name track_name)
    as Hstrip by (rewrite clean_track_name_eq by done; apply strip_strip).
  assert (has_group (clean_track_name track_name) = false) as Hgroup.
  { rewrite clean_track_name_eq by done.
    apply has_group_strip, has_group_re_sub_from. }
  split_and!; [done|by apply Hfixed; [apply clean_track_name_ascii|..]|].
  split; [intros <-; done|intros [? ?]; by apply Hfixed].
Qed.

End Cleaner.

(** The instance of [clean_track_name_cleaned] at a title with a group and
    white space at its ends. *)
Lemma clean_track_name_cleaned_witness :
  every PyStr.is_ascii " Song (Live) " /\
  has_group (clean_track_name " Song (Live) ") = false /\
  clean_track_name (clean_track_name " Song (Live) ") = clean_track_name " Song (Live) ".
Proof.
  assert (every PyStr.is_ascii " Song (Live) ") as Hascii by (vm_compute; tauto).
  split; [exact Hascii|].
  destruct (proj2 (clean_track_name_cleaned " Song (Live) ") Hascii) as (Hgroup & Hagain & _).
  by split.
Defined.

(** ** The primary artist *)

Section Primary_artist.
Context {U : PyStr.Unicode}.

Lemma startswith_app (p r : string) : PyStr.startswith p (p +:+ r) = true.
Proof.
  induction p as [|a p IH]; [by destruct r|]. rewrite app_String.
  cbn [PyStr.startswith]. by destruct (decide (a = a)).
Qed.

Lemma startswith_inv (p s : string) :
  PyStr.startswith p s = true -> exists r, s = p +:+ r.
Proof.
  revert s. induction p as [|a p IH]; intros s Hs; [by exists s|].
  destruct s as [|b s]; [done|]. cbn [PyStr.startswith] in Hs.
  destruct (decide (a = b)) as [->|]; [|done].
  destruct (IH s Hs) as [r ->]. exists r. by rewrite app_String.
Qed.

Lemma contains_inv (p s : string) :
  PyStr.contains p s = true <-> exists a b, s = a +:+ p +:+ b.
Proof.
  split.
  - induction s as [|c s IH]; cbn [PyStr.contains]; intros Hs.
    + rewrite orb_false_r in Hs. apply startswith_inv in Hs as [r ->].
      by exists "", r.
    + apply orb_true_iff in Hs as [Hs|Hs].
      * apply startswith_inv in Hs as [r ->]. by exists "", r.
      * destruct (IH Hs) as (a & b & ->). exists (String c a), b.
        by rewrite app_String.
  - intros (a & b & ->). induction a as [|c a IH].
    + rewrite app_empty_l. destruct (p +:+ b) eqn:Hpb; cbn [PyStr.contains];
        rewrite <- Hpb, startswith_app; done.
    + rewrite app_String. cbn [PyStr.contains]. by rewrite IH, orb_true_r.
Qed.

(** [s.split(sep)[0]] is the text before the first occurrence of [sep]. *)
Lemma split_first_spec (sep s : string) :
  sep <> "" -> PyStr.contains sep s = true ->
  (exists rest, s = PyStr.split_first sep s +:+ sep +:+ rest) /\
  (forall a b, s = a +:+ sep +:+ b ->
               String.length (PyStr.split_first sep s) <= String.length a).
Proof.
  intros Hsep. induction s as [|c s IH]; intros Hs.
  - cbn in Hs. rewrite orb_false_r in Hs. destruct sep; done.
  - cbn [PyStr.split_first]. destruct (PyStr.startswith sep (String c s)) eqn:Hstart.
    + split; [|intros; cbn; lia]. apply startswith_inv in Hstart as [r Hr].
      exists r. by rewrite app_empty_l.
    + cbn [PyStr.contains] in Hs. rewrite Hstart in Hs. cbn [orb] in Hs.
      destruct (IH Hs) as [[rest Hrest] Hmin]. split.
      * exists rest. rewrite app_String. by rewrite <- Hrest.
      * intros a b Hab. destruct a as [|c' a].
        { rewrite app_empty_l in Hab. rewrite Hab, startswith_app in Hstart. done. }
        rewrite app_String in Hab. injection Hab as -> Hab.
        cbn [String.length]. specialize (Hmin a b Hab). lia.
Qed.

(** [str.lower] maps a stretch of ASCII characters where it stands. *)
Lemma lower_from_ascii (p b before : string) :
  every PyStr.is_ascii p ->
  PyStr.lower_from before (p +:+ b)
  = PyStr.map_chars PyStr.lower_char p +:+ PyStr.lower_from (before +:+ p) b.
Proof.
  revert before. induction p as [|c p IH]; intros before Hp.
  - change (PyStr.lower_from before b = PyStr.lower_from (before +:+ "") b).
    by rewrite string_app_empty_r.
  - destruct Hp as [Hc Hp]. rewrite app_String.
    cbn [PyStr.lower_from PyStr.map_chars]. rewrite PyStr.lower_at_ascii by done.
    rewrite IH by done. rewrite string_app_assoc. done.
Qed.

Lemma lower_from_keeps (p a b before : string) :
  every PyStr.is_ascii p ->
  exists a' b',
    PyStr.lower_from before (a +:+ p +:+ b)
    = a' +:+ PyStr.map_chars PyStr.lower_char p +:+ b'.
Proof.
  intros Hp. revert before. induction a as [|c a IH]; intros before.
  - rewrite app_empty_l, lower_from_ascii by done. by exists "", (PyStr.lower_from (before +:+ p) b).
  - rewrite app_String. cbn [PyStr.lower_from].
    destruct (IH (before +:+ String c "")) as (a' & b' & ->).
    exists (PyStr.lower_at before c (a +:+ p +:+ b) +:+ a'), b'.
    by rewrite string_app_assoc.
Qed.

(** An ASCII text that occurs in [s] occurs, in lower case, in
    [s.lower()]. *)
Lemma contains_lower (p s : string) :
  every PyStr.is_ascii p -> PyStr.contains p s = true ->
  PyStr.contains (PyStr.map_chars PyStr.lower_char p) (PyStr.lower s) = true.
Proof.
  intros Hp (a & b & ->)%contains_inv. apply contains_inv.
  destruct (lower_from_keeps p a b "" Hp) as (a' & b' & Hlow).
  exists a', b'. exact Hlow.
Qed.

Lemma find_app_first {A} (f : A -> bool) (l1 l2 : list A) (x : A) :
  Forall (fun y => f y = false) l1 -> f x = true ->
  List.find f (l1 ++ x :: l2) = Some x.
Proof.
  intros Hl1 Hx. induction Hl1 as [|y l1 Hy _ IH]; cbn [List.find app].
  - by rewrite Hx.
  - by rewrite Hy.
Qed.

Lemma find_none_all {A} (f : A -> bool) (l : list A) :
  Forall (fun y => f y = false) l -> List.find f l = None.
Proof. induction 1 as [|y l Hy _ IH]; cbn [List.find]; [done|by rewrite Hy]. Qed.

Lemma separators_lower (separator : string) :
  separator ∈ separators ->
  every PyStr.is_ascii separator /\
  PyStr.map_chars PyStr.lower_char separator = separator /\ separator <> "".
Proof.
  unfold separators. intros Hin.
  repeat (apply elem_of_cons in Hin as [->|Hin]; [by vm_compute|]).
  by apply elem_of_nil in Hin.
Qed.

(** When none of the listed separators is in the lower-cased string, the
    whole string comes back, trimmed.  When [separator] is the first of the
    list that is in the lower-cased string, and it is in the string as
    given, the text before its first occurrence comes back, trimmed. *)
Theorem get_primary_artist_before_separator (artist_string : string) :
  (Forall (fun x => PyStr.contains x (PyStr.lower artist_string) = false) separators ->
   get_primary_artist artist_string = PyStr.strip artist_string) /\
  (forall earlier separator later,
     separators = earlier ++ separator :: later ->
     Forall (fun x => PyStr.contains x (PyStr.lower artist_string) = false) earlier ->
     PyStr.contains separator artist_string = true ->
     exists before rest,
       artist_string = before +:+ separator +:+ rest /\
       (forall a b, artist_string = a +:+ separator +:+ b ->
                    String.length before <= String.length a) /\
       get_primary_artist artist_string = PyStr.strip before).
Proof.
  split.
  - intros Hnone. unfold get_primary_artist.
    destruct (decide (artist_string = "")) as [->|_]; [done|].
    by rewrite (find_none_all _ _ Hnone).
  - intros earlier separator later Hlist Hearlier Hin.
    assert (separator ∈ separators) as Hsep
      by (rewrite Hlist; apply elem_of_app; right; apply elem_of_cons; by left).
    destruct (separators_lower separator Hsep) as (Hascii & Hlow & Hne).
    destruct (split_first_spec separator artist_string Hne Hin) as [[rest Hrest] Hmin].
    exists (PyStr.split_first separator artist_string), rest.
    split_and!; [done|done|]. unfold get_primary_artist.
    destruct (decide (artist_string = "")) as [->|_].
    { cbn in Hin. rewrite orb_false_r in Hin. destruct separator; done. }
    rewrite Hlist, (find_app_first _ earlier later separator); [done|done|].
    rewrite <- Hlow. by apply contains_lower.
Qed.

End Primary_artist.

(** The instance of [get_primary_artist_before_separator] at a band whose
    name has an ampersand: the second half of the name is cut off. *)
Lemma get_primary_artist_before_separator_witness :
  exists before rest,
    "Simon & Garfunkel" = before +:+ " & " +:+ rest /\
    (forall a b, "Simon & Garfunkel" = a +:+ " & " +:+ b ->
                 String.length before <= String.length a) /\
    get_primary_artist "Simon & Garfunkel" = PyStr.strip before.
Proof.
  apply (proj2 (get_primary_artist_before_separator "Simon & Garfunkel")
               [", "] " & "
               [" and "; " feat. "; " feat "; " featuring "; " ft. "; " ft "]).
  - reflexivity.
  - repeat constructor.
  - vm_compute. reflexivity.
Defined.

(** ** The scorer: symmetry, case, and the default threshold *)

Section Scorer_facts.
Context {U : PyStr.Unicode}.

(** On ASCII text the normalizer does not tell upper case from lower
    case. *)
Lemma normalize_text_lower (text : string) :
  every PyStr.is_ascii text ->
  normalize_text (PyStr.lower text) = normalize_text text.
Proof.
  intros Hascii. rewrite lower_ascii by done. unfold normalize_text.
  destruct (decide (text = "")) as [->|Hne]; [done|].
  destruct (decide (PyStr.map_chars PyStr.lower_char text = "")) as [Hempty|_];
    [by destruct text|].
  pose proof (every_ascii_lower_char text Hascii) as Hlow.
  assert (forall t, every PyStr.is_ascii t ->
                    PyStr.filter_chars (fun char => negb (PyStr.category_Mn char)) t = t)
    as Hmarks.
  { intros t Ht. apply filter_chars_id. eapply every_impl; [|exact Ht].
    intros c Hc. by rewrite PyStr.category_Mn_ascii. }
  rewrite !PyStr.nfd_ascii, !Hmarks, !lower_ascii by done.
  by rewrite (map_lower_char_id _ (every_lower_char text)).
Qed.

(** The scorer does not tell its two texts apart, nor, in a text of ASCII
    characters, upper case from lower case. *)
Theorem fuzzy_match_words_symmetric_caseless (text1 text2 : string)
    (threshold : float) :
  fuzzy_match_words text1 text2 threshold = fuzzy_match_words text2 text1 threshold /\
  (every PyStr.is_ascii text1 ->
   fuzzy_match_words (PyStr.lower text1) text2 threshold
   = fuzzy_match_words text1 text2 threshold).
Proof.
  split.
  - unfold fuzzy_match_words. rewrite orb_comm.
    by rewrite (comm_L (∩) (word_set text1)), Nat.max_comm.
  - intros Hascii. unfold fuzzy_match_words, word_set.
    by rewrite normalize_text_lower.
Qed.

(** For texts of up to 64 different words each, the test against the
    default threshold is the exact one: at least seven tenths of the words
    of the larger set are common to both. *)
Theorem fuzzy_match_words_default_exact (text1 text2 : string) :
  size (word_set text1) <= 64 -> size (word_set text2) <= 64 ->
  (fuzzy_match_words text1 text2 default_threshold = true <->
   word_set text1 <> ∅ /\ word_set text2 <> ∅ /\
   7 * Nat.max (size (word_set text1)) (size (word_set text2))
   <= 10 * size (word_set text1 ∩ word_set text2)).
Proof.
  intros H1 H2. unfold fuzzy_match_words.
  destruct (decide (word_set text1 = ∅)) as [E1|N1].
  { rewrite (bool_decide_eq_true_2 _ E1). cbn. split; [done|]. by intros [? _]. }
  destruct (decide (word_set text2 = ∅)) as [E2|N2].
  { rewrite (bool_decide_eq_true_2 _ E2), orb_true_r. split; [done|].
    by intros (_ & ? & _). }
  rewrite (bool_decide_eq_false_2 _ N1), (bool_decide_eq_false_2 _ N2). cbn [orb].
  assert (size (word_set text1) <> 0) as Hpos by (by intros ?%size_empty_iff%leibniz_equiv).
  assert (size (word_set text1 ∩ word_set text2) <= size (word_set text1)) as Hsub
    by (apply subseteq_size, intersection_subseteq_l).
  rewrite default_threshold_exact by lia.
  rewrite Nat.leb_le. tauto.
Qed.

End Scorer_facts.

(** The instance of [fuzzy_match_words_symmetric_caseless] at a title in
    capitals. *)
Lemma fuzzy_match_words_symmetric_caseless_witness :
  every PyStr.is_ascii "YELLOW SUBMARINE" /\
  fuzzy_match_words (PyStr.lower "YELLOW SUBMARINE") "Yellow Submarine" default_threshold
  = fuzzy_match_words "YELLOW SUBMARINE" "Yellow Submarine" default_threshold.
Proof.
  assert (every PyStr.is_ascii "YELLOW SUBMARINE") as Hascii by (vm_compute; tauto).
  split; [exact Hascii|].
  exact (proj2 (fuzzy_match_words_symmetric_caseless
                  "YELLOW SUBMARINE" "Yellow Submarine" default_threshold) Hascii).
Defined.

(** The instance of [fuzzy_match_words_default_exact] at a title and a
    longer version of it: two common words out of three are not enough. *)
Lemma fuzzy_match_words_default_exact_witness :
  fuzzy_match_words "Yellow Submarine" "Yellow Submarine Songtrack" default_threshold
  = true <->
  word_set "Yellow Submarine" <> ∅ /\ word_set "Yellow Submarine Songtrack" <> ∅ /\
  7 * Nat.max (size (word_set "Yellow Submarine"))
              (size (word_set "Yellow Submarine Songtrack"))
  <= 10 * size (word_set "Yellow Submarine" ∩ word_set "Yellow Submarine Songtrack").
Proof.
  apply (fuzzy_match_words_default_exact "Yellow Submarine" "Yellow Submarine Songtrack").
  - vm_compute. lia.
  - vm_compute. lia.
Defined.

(** ** The shape of the normal form *)

Section Normal_form_shape.
Context {U : PyStr.Unicode}.

Lemma length_map_chars (f : ascii -> ascii) (s : string) :
  String.length (PyStr.map_chars f s) = String.length s.
Proof. induction s as [|c s IH]; [done|]. cbn. by rewrite IH. Qed.

(** The normal form is a list of words joined by single spaces, and its
    characters are word characters and those single spaces.  The normal form
    of a text of ASCII characters has lower-case letters, digits and
    underscores for word characters, and is never longer than the text. *)
Theorem normalize_text_shape (text : string) :
  join (PyStr.split (normalize_text text)) = normalize_text text /\
  every (fun c => PyStr.is_word c || bool_decide (c = " "%char)) (normalize_text text) /\
  (every PyStr.is_ascii text ->
   every (fun c => is_plain_char c || bool_decide (c = " "%char)) (normalize_text text) /\
   String.length (normalize_text text) <= String.length text).
Proof.
  assert (every (fun c => PyStr.is_word c || bool_decide (c = " "%char))
                (normalize_text text)) as Hword.
  { destruct (normalize_text_words text) as (ws & -> & Hall).
    apply every_join; [by rewrite orb_true_r|]. eapply Forall_impl; [exact Hall|].
    intros w [_ Hw]. eapply every_impl; [|exact Hw]. by intros c ->. }
  split_and!; [|exact Hword|].
  - destruct (normalize_text_words text) as (ws & -> & Hall).
    rewrite split_join; [done|]. eapply Forall_impl; [exact Hall|].
    apply is_plain_word_token.
  - intros Hascii. split.
    + eapply every_impl; [|exact (every_and _ _ _ Hword (normalize_text_ascii text Hascii))].
      intros c [Hc [Ha Hu]%andb_true_iff]%andb_true_iff. unfold is_plain_char.
      rewrite <- (PyStr.is_word_ascii c Ha), Hu.
      by destruct (PyStr.is_word c).
    + unfold normalize_text. destruct (decide (text = "")) as [->|_]; [done|].
      rewrite PyStr.nfd_ascii by done.
      etrans; [apply length_strip|].
      etrans; [apply length_re_sub; cbn; lia|].
      etrans; [apply length_re_sub; cbn; lia|].
      etrans; [apply length_re_sub; cbn; lia|].
      etrans; [apply length_re_sub; cbn; lia|].
      etrans; [apply length_re_sub; cbn; lia|].
      rewrite lower_ascii by by apply every_filter_chars.
      rewrite length_map_chars. apply length_filter_chars.
Qed.

End Normal_form_shape.

(** The instance of [normalize_text_shape] at a title with punctuation, a
    group and capitals. *)
Lemma normalize_text_shape_witness :
  every PyStr.is_ascii "Hey Jude (2015 Mix) - Live!" /\
  every (fun c => is_plain_char c || bool_decide (c = " "%char))
        (normalize_text "Hey Jude (2015 Mix) - Live!") /\
  String.length (normalize_text "Hey Jude (2015 Mix) - Live!")
  <= String.length "Hey Jude (2015 Mix) - Live!".
Proof.
  assert (every PyStr.is_ascii "Hey Jude (2015 Mix) - Live!") as Hascii
    by (vm_compute; tauto).
  split; [exact Hascii|].
  exact (proj2 (proj2 (normalize_text_shape "Hey Jude (2015 Mix) - Live!")) Hascii).
Defined.

(** ** What the resolver returns *)

Section Resolver_results.
Context {U : PyStr.Unicode}.
Context {W : Type} `{!Tidal W}.

Lemma returns_only_ret {A} (Q : A -> Prop) (a : A) :
  Q a -> returns_only Q (ret a : M W A).
Proof. intros Ha s a' [= <-]. done. Qed.

Lemma returns_only_bind {A B} (P : A -> Prop) (Q : B -> Prop) (m : M W A)
    (k : A -> M W B) :
  returns_only P m -> (forall a, P a -> returns_only Q (k a)) ->
  returns_only Q (bind m k).
Proof.
  intros Hm Hk s b. unfold bind. destruct (m s) as [[a|msg|code|] s1] eqn:Hs; try done.
  apply Hk. apply (Hm s). by rewrite Hs.
Qed.

Lemma returns_only_any {A} (m : M W A) : returns_only (fun _ => True) m.
Proof. by intros s a _. Qed.

Lemma returns_only_try_except {A} (Q : A -> Prop) (body : M W A)
    (handler : string -> M W A) :
  returns_only Q body -> (forall msg, returns_only Q (handler msg)) ->
  returns_only Q (try_except body handler).
Proof.
  intros Hbody Hhandler s a. unfold try_except.
  destruct (body s) as [[a'|msg|code|] s1] eqn:Hs; try done.
  - intros Ha. apply (Hbody s). by rewrite Hs.
  - apply Hhandler.
Qed.

Lemma fuzzy_hit_find (cleaned : string) (l : list TidalTrack) :
  fuzzy_hit cleaned
    (List.find (fun t => fuzzy_match_words (tt_name t) cleaned default_threshold) l).
Proof. intros t Ht. by apply find_some in Ht as [_ Ht]. Qed.

Lemma fuzzy_hit_None (cleaned : string) : fuzzy_hit cleaned None.
Proof. by intros t. Qed.

Lemma returns_only_scan_albums (albums : list TidalAlbum) (cleaned : string) :
  returns_only (fuzzy_hit cleaned) (scan_albums albums cleaned).
Proof.
  induction albums as [|album rest IH]; cbn [scan_albums].
  - apply returns_only_ret, fuzzy_hit_None.
  - apply (returns_only_bind (fuzzy_hit cleaned)).
    + apply returns_only_try_except; [|intros _; apply returns_only_ret, fuzzy_hit_None].
      apply (returns_only_bind (fun _ => True)); [apply returns_only_any|].
      intros tracks _. apply returns_only_ret, fuzzy_hit_find.
    + intros [t|] Hhit; [by apply returns_only_ret|exact IH].
Qed.

Lemma returns_only_search_track_in_album (track : SourceTrack) (cleaned : string) :
  returns_only (fuzzy_hit cleaned) (search_track_in_album track cleaned).
Proof.
  unfold search_track_in_album. destruct (decide (album_name track = "")).
  - apply returns_only_ret, fuzzy_hit_None.
  - apply returns_only_try_except; [|intros _; apply returns_only_ret, fuzzy_hit_None].
    apply (returns_only_bind (fun _ => True)); [apply returns_only_any|].
    intros albums _. apply returns_only_scan_albums.
Qed.

Lemma always_returns_scan_albums (albums : list TidalAlbum) (cleaned : string) :
  always_returns (scan_albums albums cleaned).
Proof.
  induction albums as [|album rest IH]; intros s; cbn [scan_albums]; [by eexists|].
  unfold bind, try_except, call at 1.
  destruct (album_tracks album (world s)) as [[tracks|msg] w]; cbn.
  - destruct (List.find _ tracks); [by eexists|apply IH].
  - apply IH.
Qed.

(** The album search never fails: with no album name it makes no call and
    finds nothing; otherwise whatever the album search or a listing raises
    is passed over, and a track it finds has enough words in common with the
    cleaned name. *)
Theorem search_track_in_album_never_raises (track : SourceTrack)
    (cleaned_track_name : string) (s : state W) :
  (exists r, fst (search_track_in_album track cleaned_track_name s) = Return r /\
             forall t, r = Some t ->
                       fuzzy_match_words (tt_name t) cleaned_track_name default_threshold
                       = true) /\
  (album_name track = "" ->
   search_track_in_album track cleaned_track_name s = (Return None, s)).
Proof.
  split.
  - assert (exists r, fst (search_track_in_album track cleaned_track_name s) = Return r)
      as [r Hr].
    { unfold search_track_in_album. destruct (decide (album_name track = ""));
        [by eexists|].
      unfold try_except, bind, search_albums, call at 1.
      destruct (session_search_albums _ (world s)) as [[albums|msg] w]; cbn;
        [|by eexists].
      match goal with |- context [scan_albums ?l ?c ?s'] =>
        destruct (always_returns_scan_albums l c s') as [r Hr];
        destruct (scan_albums l c s') as [o s2] end.
      cbn in Hr. subst o. by eexists. }
    exists r. split; [done|].
    by apply (returns_only_search_track_in_album track cleaned_track_name s).
  - intros Hempty. unfold search_track_in_album.
    by destruct (decide (album_name track = "")).
Qed.

Lemma accepted_fuzzy_hit (track : SourceTrack) (r : option TidalTrack) :
  fuzzy_hit (clean_track_name (track_name track)) r -> accepted_hit track r.
Proof. intros Hr t Ht. right. right. by apply Hr. Qed.

Lemma returns_only_weaken {A} (P Q : A -> Prop) (m : M W A) :
  (forall a, P a -> Q a) -> returns_only P m -> returns_only Q m.
Proof. intros HPQ Hm s a Ha. by apply HPQ, (Hm s). Qed.

(** Whatever the resolver returns as a match has passed one of its tests. *)
Theorem find_best_track_match_accepted (track : SourceTrack) (s : state W)
    (t : TidalTrack) :
  fst (find_best_track_match track s) = Return (Some t) -> accepted track t.
Proof.
  intros Hfound.
  cut (returns_only (accepted_hit track) (find_best_track_match track)).
  { intros Hall. by apply (Hall s (Some t)). }
  clear s t Hfound.
  unfold find_best_track_match.
  apply (returns_only_bind (fun _ => True)); [apply returns_only_any|].
  intros results _.
  destruct (isrc_match results track) as [t|] eqn:Hisrc.
  { apply returns_only_ret. intros t' [= <-]. left.
    unfold isrc_match in Hisrc. by apply find_some in Hisrc as [_ ?]. }
  destruct (exact_name_match results track) as [t|] eqn:Hexact.
  { apply returns_only_ret. intros t' [= <-]. right. left.
    unfold exact_name_match in Hexact. apply find_some in Hexact as [_ Hexact].
    by apply bool_decide_eq_true_1 in Hexact. }
  apply (returns_only_bind (fun _ => True)); [apply returns_only_any|].
  intros results' _.
  destruct (fuzzy_name_match results' _) as [t|] eqn:Hfuzzy.
  { apply returns_only_ret, accepted_fuzzy_hit. rewrite <- Hfuzzy.
    apply fuzzy_hit_find. }
  apply (returns_only_bind (fuzzy_hit (clean_track_name (track_name track)))).
  { destruct (decide (_ <> artist_names track)).
    - apply (returns_only_bind (fun _ => True)); [apply returns_only_any|].
      intros simplified _. apply returns_only_ret, fuzzy_hit_find.
    - apply returns_only_ret, fuzzy_hit_None. }
  intros [t|] Ht.
  - by apply returns_only_ret, accepted_fuzzy_hit.
  - eapply returns_only_weaken; [apply accepted_fuzzy_hit|].
    apply returns_only_search_track_in_album.
Qed.

End Resolver_results.

(** The instance of [find_best_track_match_accepted] at a track that the
    search finds with its own ISRC. *)
Lemma find_best_track_match_accepted_witness : accepted yellow yellow_on_tidal.
Proof.
  apply (find_best_track_match_accepted yellow (initial add_fails) yellow_on_tidal).
  vm_compute. reflexivity.
Defined.

(** ** The engine: what every run keeps *)

Section Engine_steps.
Context {U : PyStr.Unicode}.
Context {W : Type} `{!Tidal W}.
Variable created : TidalPlaylist.
Variable unique : string.

Lemma engine_step_refl (s : state W) : engine_step created unique s s.
Proof.
  intros Hinv. split; [done|]. exists []. cbn. by rewrite !app_nil_r.
Qed.

Lemma engine_step_trans (s1 s2 s3 : state W) :
  engine_step created unique s1 s2 -> engine_step created unique s2 s3 ->
  engine_step created unique s1 s3.
Proof.
  intros H12 H23 Hinv. destruct (H12 Hinv) as (Hinv2 & new & Htr & Hall & Hnf).
  destruct (H23 Hinv2) as (Hinv3 & new' & Htr' & Hall' & Hnf').
  split; [done|]. exists (new ++ new'). split_and!.
  - by rewrite Htr', Htr, app_assoc.
  - by apply Forall_app.
  - by rewrite Hnf', Hnf, ledger_app, fmap_app, app_assoc.
Qed.

Lemma respects_bind {A B} (m : M W A) (k : A -> M W B) :
  respects created unique m -> (forall a, respects created unique (k a)) ->
  respects created unique (bind m k).
Proof.
  intros Hm Hk s. specialize (Hm s). unfold bind.
  destruct (m s) as [[a|msg|code|] s1]; try done.
  eapply engine_step_trans; [exact Hm|apply Hk].
Qed.

Lemma respects_try_except {A} (body : M W A) (handler : string -> M W A) :
  respects created unique body -> (forall msg, respects created unique (handler msg)) ->
  respects created unique (try_except body handler).
Proof.
  intros Hm Hk s. specialize (Hm s). unfold try_except.
  destruct (body s) as [[a|msg|code|] s1]; try done.
  eapply engine_step_trans; [exact Hm|apply Hk].
Qed.

Lemma respects_ret {A} (a : A) : respects created unique (ret a : M W A).
Proof. intros s. apply engine_step_refl. Qed.

Lemma respects_raise {A} (msg : string) : respects created unique (raise msg : M W A).
Proof. intros s. apply engine_step_refl. Qed.

Lemma respects_sys_exit {A} (code : Z) : respects created unique (sys_exit code : M W A).
Proof. intros s. apply engine_step_refl. Qed.

Lemma respects_out_of_fuel {A} : respects created unique (out_of_fuel : M W A).
Proof. intros s. apply engine_step_refl. Qed.

Lemma respects_gets {A} (f : state W -> A) : respects created unique (gets f).
Proof. intros s. apply engine_step_refl. Qed.

Lemma respects_set_added_tracks v : respects created unique (set_added_tracks (W:=W) v).
Proof.
  intros s Hinv. split; [done|]. exists []. cbn. by rewrite !app_nil_r.
Qed.

Lemma respects_set_unique_playlist_name v :
  respects created unique (set_unique_playlist_name (W:=W) v).
Proof.
  intros s Hinv. split; [done|]. exists []. cbn. by rewrite !app_nil_r.
Qed.

Lemma respects_set_world w : respects created unique (set_world (W:=W) w).
Proof.
  intros s Hinv. split; [done|]. exists []. cbn. by rewrite !app_nil_r.
Qed.

Lemma respects_set_playlist v :
  (forall p, v = Some p -> p = created \/ pl_name p = unique) ->
  respects created unique (set_playlist (W:=W) v).
Proof.
  intros Hv s Hinv. split; [done|]. exists []. cbn. by rewrite !app_nil_r.
Qed.

Lemma respects_emit (e : event) :
  is_ledger e = false -> engine_event created unique e = true ->
  respects created unique (emit (W:=W) e).
Proof.
  intros Hl He s Hinv. split; [done|]. exists [e]. cbn. split_and!; [done|by constructor|].
  destruct e; try done; by rewrite app_nil_r.
Qed.

Lemma respects_print (text : string) : respects created unique (print (W:=W) text).
Proof. by apply respects_emit. Qed.

Lemma respects_call {A} (e : event) (oracle : W -> answer A * W) :
  is_ledger e = false -> engine_event created unique e = true ->
  respects created unique (call e oracle).
Proof.
  intros Hl He s. unfold call. destruct (oracle (world s)) as [[a|msg] w].
  - apply respects_bind; [by apply respects_emit|intros _].
    apply respects_bind; [apply respects_set_world|intros _]. apply respects_ret.
  - apply respects_bind; [by apply respects_emit|intros _].
    apply respects_bind; [apply respects_set_world|intros _]. apply respects_raise.
Qed.

Lemma respects_log_not_found (track : SourceTrack) (reason : string) :
  known_reason reason = true -> respects created unique (log_not_found (W:=W) track reason).
Proof.
  intros Hreason s Hinv. split; [done|].
  exists [LedgerAppend (row_of track reason)]. cbn. split_and!; [done| |done].
  by constructor.
Qed.

Ltac respects_step :=
  lazymatch goal with
  | |- respects _ _ (bind _ _) => apply respects_bind; [|intros ?]
  | |- respects _ _ (try_except _ _) => apply respects_try_except; [|intros ?]
  | |- respects _ _ (ret _) => apply respects_ret
  | |- respects _ _ (raise _) => apply respects_raise
  | |- respects _ _ (sys_exit _) => apply respects_sys_exit
  | |- respects _ _ out_of_fuel => apply respects_out_of_fuel
  | |- respects _ _ (gets _) => apply respects_gets
  | |- respects _ _ (set_added_tracks _) => apply respects_set_added_tracks
  | |- respects _ _ (set_unique_playlist_name _) => apply respects_set_unique_playlist_name
  | |- respects _ _ (print _) => apply respects_print
  | |- respects _ _ (call _ _) => apply respects_call; reflexivity
  | |- respects _ _ (search_tracks _) => apply respects_call; reflexivity
  | |- respects _ _ (search_albums _) => apply respects_call; reflexivity
  | |- respects _ _ (if ?b then _ else _) => destruct b
  | |- respects _ _ (match ?x with _ => _ end) => destruct x
  end.

Lemma respects_scan_albums (albums : list TidalAlbum) (cleaned : string) :
  respects created unique (scan_albums albums cleaned).
Proof. induction albums as [|album rest IH]; cbn [scan_albums]; repeat respects_step. apply IH. Qed.

Lemma respects_find_best_track_match (track : SourceTrack) :
  respects created unique (find_best_track_match track).
Proof.
  unfold find_best_track_match, search_track_in_album. repeat respects_step.
  apply respects_scan_albums.
Qed.

Lemma respects_authenticate_tidal : respects created unique authenticate_tidal.
Proof. unfold authenticate_tidal. repeat respects_step. Qed.

Lemma respects_reauthenticate (track : SourceTrack) :
  respects created unique (reauthenticate track unique).
Proof.
  unfold reauthenticate.
  do 4 (apply respects_bind; [repeat respects_step; apply respects_authenticate_tidal
                             |intros ?]).
  apply respects_bind.
  - apply respects_set_playlist. intros p Hp. right.
    apply find_some in Hp as [_ Hp]. by apply bool_decide_eq_true_1 in Hp.
  - intros _. repeat respects_step.
Qed.

(** [playlist.add([found_track.id])] on the playlist that the variable
    holds. *)
Lemma respects_add_call (id : Z) : respects created unique (add_call [id]).
Proof.
  intros s Hinv. unfold add_call, bind, gets. cbn [fst snd].
  destruct (playlist s) as [p|] eqn:Hp; [|by apply engine_step_refl].
  assert (engine_event created unique (PlaylistAdd p [id]) = true) as He.
  { cbn [engine_event]. apply andb_true_iff. split; [by apply bool_decide_eq_true_2|].
    apply orb_true_iff.
    destruct (Hinv p Hp); [left|right]; by apply bool_decide_eq_true_2. }
  by apply (respects_call (PlaylistAdd p [id]) (playlist_add p [id]) eq_refl He s).
Qed.

Lemma respects_add_to_playlist (attempts : nat) (found_track : TidalTrack)
    (track : SourceTrack) (key : string) :
  respects created unique (add_to_playlist attempts found_track track key unique).
Proof.
  induction attempts as [|attempts IH]; cbn [add_to_playlist]; [apply respects_ret|].
  apply respects_try_except.
  - apply respects_bind; [apply respects_add_call|intros _]. repeat respects_step.
  - intros msg. repeat respects_step; [apply respects_reauthenticate|apply IH].
Qed.

Lemma known_reason_search_error (e : string) :
  known_reason ("search error: " +:+ e) = true.
Proof. unfold known_reason. cbn. by rewrite !orb_true_r. Qed.

Lemma respects_process_track (total k : nat) (track : SourceTrack) :
  respects created unique (process_track unique total k track).
Proof.
  unfold process_track, resolve_and_add.
  apply respects_bind; [apply respects_print|intros _].
  destruct (isrc_blank track); [by apply respects_log_not_found|].
  apply respects_bind; [apply respects_gets|intros added].
  destruct (decide (_ ∈ added)); [apply respects_ret|].
  apply respects_try_except.
  - apply respects_bind; [apply respects_find_best_track_match|intros [found|]];
      [|by apply respects_log_not_found].
    apply respects_bind; [apply respects_add_to_playlist|intros _].
    repeat respects_step.
  - intros msg. apply respects_log_not_found, known_reason_search_error.
Qed.

Lemma respects_process_tracks (total k : nat) (tracks : list SourceTrack) :
  respects created unique (process_tracks unique total k tracks).
Proof.
  revert k. induction tracks as [|track rest IH]; intros k; cbn [process_tracks];
    [apply respects_ret|].
  apply respects_bind; [apply respects_process_track|intros _; apply IH].
Qed.

End Engine_steps.

Section Engine_ends.
Context {U : PyStr.Unicode}.
Context {W : Type} `{!Tidal W}.

Lemma finishes_weaken {A} (b : bool) (m : M W A) : finishes false m -> finishes b m.
Proof.
  intros Hm s. specialize (Hm s). destruct (fst (m s)), b; done.
Qed.

Lemma finishes_bind {A B} (b : bool) (m : M W A) (k : A -> M W B) :
  finishes b m -> (forall a, finishes b (k a)) -> finishes b (bind m k).
Proof.
  intros Hm Hk s. specialize (Hm s). unfold bind.
  destruct (m s) as [[a|msg|code|] s1]; try done. apply Hk.
Qed.

Lemma finishes_try_except {A} (b : bool) (body : M W A) (handler : string -> M W A) :
  finishes true body -> (forall msg, finishes b (handler msg)) ->
  finishes b (try_except body handler).
Proof.
  intros Hm Hk s. specialize (Hm s). unfold try_except.
  destruct (body s) as [[a|msg|code|] s1]; try done. apply Hk.
Qed.

Lemma finishes_ret {A} (b : bool) (a : A) : finishes b (ret a : M W A).
Proof. by intros s. Qed.

Lemma finishes_raise {A} (msg : string) : finishes true (raise msg : M W A).
Proof. by intros s. Qed.

Lemma finishes_sys_exit {A} (b : bool) (code : Z) :
  code = 0%Z \/ code = 1%Z -> finishes b (sys_exit code : M W A).
Proof. by intros Hcode s. Qed.

Lemma finishes_gets {A} (b : bool) (f : state W -> A) : finishes b (gets f).
Proof. by intros s. Qed.

Lemma finishes_set_playlist (b : bool) v : finishes b (set_playlist (W:=W) v).
Proof. by intros s. Qed.

Lemma finishes_set_added_tracks (b : bool) v : finishes b (set_added_tracks (W:=W) v).
Proof. by intros s. Qed.

Lemma finishes_set_not_found (b : bool) v : finishes b (set_not_found (W:=W) v).
Proof. by intros s. Qed.

Lemma finishes_print (b : bool) (text : string) : finishes b (print (W:=W) text).
Proof. by intros s. Qed.

Lemma finishes_call {A} (e : event) (oracle : W -> answer A * W) :
  finishes true (call e oracle).
Proof. intros s. unfold call. by destruct (oracle (world s)) as [[a|msg] w]. Qed.

Ltac finishes_step :=
  lazymatch goal with
  | |- finishes _ (bind _ _) => apply finishes_bind; [|intros ?]
  | |- finishes _ (try_except _ _) => apply finishes_try_except; [|intros ?]
  | |- finishes _ (ret _) => apply finishes_ret
  | |- finishes _ (raise _) => apply finishes_raise
  | |- finishes _ (sys_exit _) => apply finishes_sys_exit; auto
  | |- finishes _ (gets _) => apply finishes_gets
  | |- finishes _ (set_playlist _) => apply finishes_set_playlist
  | |- finishes _ (set_added_tracks _) => apply finishes_set_added_tracks
  | |- finishes _ (set_not_found _) => apply finishes_set_not_found
  | |- finishes _ (print _) => apply finishes_print
  | |- finishes _ (call _ _) => apply finishes_call
  | |- finishes _ (search_tracks _) => apply finishes_call
  | |- finishes _ (search_albums _) => apply finishes_call
  | |- finishes _ (if ?b then _ else _) => destruct b
  | |- finishes _ (match ?x with _ => _ end) => destruct x
  end.

Lemma finishes_scan_albums (albums : list TidalAlbum) (cleaned : string) :
  finishes true (scan_albums albums cleaned).
Proof.
  induction albums as [|album rest IH]; cbn [scan_albums]; repeat finishes_step.
  apply IH.
Qed.

Lemma finishes_find_best_track_match (track : SourceTrack) :
  finishes true (find_best_track_match track).
Proof.
  unfold find_best_track_match, search_track_in_album. repeat finishes_step.
  apply finishes_scan_albums.
Qed.

Lemma finishes_authenticate_tidal : finishes true authenticate_tidal.
Proof. unfold authenticate_tidal. repeat finishes_step. Qed.

Lemma finishes_reauthenticate (track : SourceTrack) (unique : string) :
  finishes true (reauthenticate track unique).
Proof.
  unfold reauthenticate. repeat finishes_step; apply finishes_authenticate_tidal.
Qed.

Lemma finishes_add_to_playlist (attempts : nat) (found_track : TidalTrack)
    (track : SourceTrack) (key unique : string) :
  finishes true (add_to_playlist attempts found_track track key unique).
Proof.
  induction attempts as [|attempts IH]; cbn [add_to_playlist]; unfold add_call;
    repeat finishes_step; [apply finishes_reauthenticate|apply IH].
Qed.

Lemma finishes_log_not_found (b : bool) (track : SourceTrack) (reason : string) :
  finishes b (log_not_found (W:=W) track reason).
Proof. by intros s. Qed.

(** Nothing that happens to one track raises: the handler of line 474
    takes every exception. *)
Lemma finishes_process_track (unique : string) (total k : nat) (track : SourceTrack) :
  finishes false (process_track unique total k track).
Proof.
  unfold process_track, resolve_and_add.
  apply finishes_bind; [apply finishes_print|intros _].
  destruct (isrc_blank track); [apply finishes_log_not_found|].
  apply finishes_bind; [apply finishes_gets|intros added].
  destruct (decide (_ ∈ added)); [apply finishes_ret|].
  apply finishes_try_except; [|intros msg; apply finishes_log_not_found].
  apply finishes_bind; [apply finishes_find_best_track_match|intros [found|]];
    [|apply finishes_log_not_found].
  apply finishes_bind; [apply finishes_add_to_playlist|intros _].
  repeat finishes_step.
Qed.

Lemma finishes_process_tracks (unique : string) (total k : nat)
    (tracks : list SourceTrack) :
  finishes false (process_tracks unique total k tracks).
Proof.
  revert k. induction tracks as [|track rest IH]; intros k; cbn [process_tracks];
    [apply finishes_ret|].
  apply finishes_bind; [apply finishes_process_track|intros _; apply IH].
Qed.

End Engine_ends.

Section Engine_runs.
Context {U : PyStr.Unicode}.
Context {W : Type} `{!Tidal W}.

Lemma try_except_bind {A B} (m : M W A) (k : A -> M W B) (handler : string -> M W B)
    (s : state W) (a : A) (s1 : state W) :
  m s = (Return a, s1) ->
  try_except (bind m k) handler s = try_except (k a) handler s1.
Proof. unfold try_except, bind. by intros ->. Qed.

(** [create_tidal_playlist] from the start of the loop on, when the user's
    playlists were listed and the playlist was created. *)
Lemma create_tidal_playlist_loop (name : string) (tracks : list SourceTrack)
    (s : state W) (existing : list TidalPlaylist) (unique : string)
    (created : TidalPlaylist) (w1 w2 : W) :
  user_playlists (world s) = (Ok existing, w1) ->
  unique_name (S (length existing)) existing name = Some unique ->
  user_create_playlist unique "Migrated from Spotify" w1 = (Ok created, w2) ->
  create_tidal_playlist name tracks s
  = try_except
      (let* _ := process_tracks unique (length tracks) 0 tracks in
       let* _ := print "" in
       let* l := gets not_found in
       ret (NotFoundList l))
      (creation_handler tracks)
      (loop_start s name unique created w2).
Proof.
  intros Hlist Hname Hcreate.
  unfold create_tidal_playlist, creation_handler, loop_start, opening, announce.
  do 4 (erewrite bind_return; [|reflexivity]).
  erewrite try_except_bind;
    [|unfold get_unique_playlist_name, call, bind; cbn [world snd fst emit print];
      rewrite Hlist; cbn; rewrite Hname; reflexivity].
  erewrite try_except_bind; [|reflexivity].
  destruct (decide (unique <> name));
    (erewrite try_except_bind; [|reflexivity]);
    (erewrite try_except_bind;
       [|unfold call; cbn [world snd fst print emit]; rewrite Hcreate; reflexivity]);
    (erewrite try_except_bind; [|reflexivity]);
    (erewrite try_except_bind; [|reflexivity]);
    f_equal; cbn; by rewrite <- !app_assoc.
Qed.

(** What [create_tidal_playlist] does once the playlist is created: the
    loop adds events of the engine, and the call ends with the list
    [not_found], which has the entries of the ledger rows of the call, or
    with [sys.exit]. *)
Lemma create_tidal_playlist_created (name : string) (tracks : list SourceTrack)
    (s : state W) (existing : list TidalPlaylist) (unique : string)
    (created : TidalPlaylist) (w1 w2 : W) :
  user_playlists (world s) = (Ok existing, w1) ->
  unique_name (S (length existing)) existing name = Some unique ->
  user_create_playlist unique "Migrated from Spotify" w1 = (Ok created, w2) ->
  exists new,
    trace (snd (create_tidal_playlist name tracks s))
      = trace s ++ opening name unique ++ new /\
    Forall (fun e => engine_event created unique e = true) new /\
    ((fst (create_tidal_playlist name tracks s)
        = Return (NotFoundList (entry_of <$> ledger new)))
     \/ (exists code, fst (create_tidal_playlist name tracks s) = Exited code /\
                      (code = 0%Z \/ code = 1%Z))).
Proof.
  intros Hlist Hname Hcreate.
  rewrite (create_tidal_playlist_loop name tracks s existing unique created w1 w2)
    by done.
  set (s0 := loop_start s name unique created w2).
  assert (engine_inv created unique s0) as Hinv by (intros p [= <-]; by left).
  destruct (respects_process_tracks created unique (length tracks) 0 tracks s0 Hinv)
    as (_ & new & Htr & Hall & Hnf).
  pose proof (finishes_process_tracks unique (length tracks) 0 tracks s0) as Hend.
  assert (trace s0 = trace s ++ opening name unique) as Hs0 by done.
  assert (not_found s0 = []) as Hnf0 by done.
  unfold try_except, bind. clearbody s0.
  destruct (process_tracks unique (length tracks) 0 tracks s0) as [[[]|msg|code|] s1];
    cbn [fst snd] in *; try done.
  - exists (new ++ [Print ""]). cbn [print emit trace fst snd ret gets]. split_and!.
    + by rewrite Htr, Hs0, <- !app_assoc.
    + apply Forall_app. split; [done|]. by constructor.
    + left. rewrite Hnf, Hnf0, ledger_app. cbn. by rewrite app_nil_r.
  - exists new. split_and!.
    + by rewrite Htr, Hs0, <- !app_assoc.
    + done.
    + right. by exists code.
Qed.

Lemma create_tidal_playlist_lookup_failure_trace (name : string)
    (tracks : list SourceTrack) (s : state W) (msg : string) (w : W) :
  user_playlists (world s) = (Raise msg, w) ->
  trace (snd (create_tidal_playlist name tracks s))
  = trace s ++ [announce name; UserPlaylists].
Proof.
  intros Hlist. unfold create_tidal_playlist, get_unique_playlist_name. run_step.
  rewrite Hlist. cbn. by rewrite <- app_assoc.
Qed.

Lemma create_tidal_playlist_creation_failure_trace (name : string)
    (tracks : list SourceTrack) (s : state W) (existing : list TidalPlaylist)
    (unique msg : string) (w1 w2 : W) :
  user_playlists (world s) = (Ok existing, w1) ->
  unique_name (S (length existing)) existing name = Some unique ->
  user_create_playlist unique "Migrated from Spotify" w1 = (Raise msg, w2) ->
  trace (snd (create_tidal_playlist name tracks s))
  = trace s ++ opening name unique
      ++ [Print (LF +:+ "Error creating playlist '" +:+ unique +:+ "': " +:+ msg)].
Proof.
  intros Hlist Hname Hcreate.
  unfold create_tidal_playlist, get_unique_playlist_name, opening, announce. run_step.
  rewrite Hlist. simpl. rewrite Hname. simpl.
  destruct (decide (unique <> name)); run_step; rewrite Hcreate; simpl;
    by rewrite <- !app_assoc.
Qed.

Lemma ledger_opening (name unique : string) : ledger (opening name unique) = [].
Proof. unfold opening. by destruct (decide (unique <> name)). Qed.

Lemma known_reason_inv (reason : string) :
  known_reason reason = true ->
  (reason = "isrc blank in input" \/ reason = "track not found on Tidal"
   \/ exists e, reason = "search error: " +:+ e)
  /\ PyStr.startswith "error after retries" reason = false.
Proof.
  unfold known_reason. intros Hr.
  apply orb_true_iff in Hr as [Hr|Hr]; [apply orb_true_iff in Hr as [Hr|Hr]|].
  - apply bool_decide_eq_true_1 in Hr as ->. split; [by left|done].
  - apply bool_decide_eq_true_1 in Hr as ->. split; [right; by left|done].
  - apply startswith_inv in Hr as [e ->]. split; [right; right; by exists e|done].
Qed.

Lemma engine_event_ledger (created : TidalPlaylist) (unique : string)
    (new : list event) :
  Forall (fun e => engine_event created unique e = true) new ->
  Forall (fun row => known_reason (row_reason row) = true) (ledger new).
Proof.
  induction 1 as [|e new He _ IH]; [constructor|].
  destruct e; try exact IH. cbn. by constructor.
Qed.

(** Every row that [create_tidal_playlist] appends to the ledger has one of
    three reasons; the reason ["error after retries"] of line 459 is not among
    them. *)
Theorem create_tidal_playlist_ledger_reasons (name : string)
    (tracks : list SourceTrack) (s : state W) :
  exists new,
    trace (snd (create_tidal_playlist name tracks s)) = trace s ++ new /\
    Forall (fun row =>
              (row_reason row = "isrc blank in input"
               \/ row_reason row = "track not found on Tidal"
               \/ exists e, row_reason row = "search error: " +:+ e)
              /\ PyStr.startswith "error after retries" (row_reason row) = false)
           (ledger new).
Proof.
  destruct (user_playlists (world s)) as [[existing|msg] w1] eqn:Hlist.
  2:{ eexists. split; [by eapply create_tidal_playlist_lookup_failure_trace|].
      constructor. }
  destruct (unique_name_spec existing name) as (unique & Hname & _).
  destruct (user_create_playlist unique "Migrated from Spotify" w1)
    as [[created|msg] w2] eqn:Hcreate.
  2:{ eexists. split; [by eapply create_tidal_playlist_creation_failure_trace|].
      rewrite ledger_app, ledger_opening. constructor. }
  destruct (create_tidal_playlist_created name tracks s existing unique created w1 w2)
    as (new & Htr & Hall & _); [done..|].
  exists (opening name unique ++ new). split; [done|].
  rewrite ledger_app, ledger_opening. cbn [app].
  eapply Forall_impl; [by eapply engine_event_ledger|].
  intros row. apply known_reason_inv.
Qed.

(** The list that [create_tidal_playlist] returns has one entry for each
    row that the call appended to the ledger, in the same order, with the
    row's track name, artist names and reason. *)
Theorem create_tidal_playlist_list_mirrors_ledger (name : string)
    (tracks : list SourceTrack) (s : state W) (l : list NotFound) :
  fst (create_tidal_playlist name tracks s) = Return (NotFoundList l) ->
  exists new,
    trace (snd (create_tidal_playlist name tracks s)) = trace s ++ new /\
    l = entry_of <$> ledger new.
Proof.
  intros Hret.
  destruct (user_playlists (world s)) as [[existing|msg] w1] eqn:Hlist.
  2:{ by rewrite (create_tidal_playlist_lookup_failure name tracks s msg w1)
        in Hret. }
  destruct (unique_name_spec existing name) as (unique & Hname & _).
  destruct (user_create_playlist unique "Migrated from Spotify" w1)
    as [[created|msg] w2] eqn:Hcreate.
  2:{ destruct (create_tidal_playlist_creation_failure name tracks s existing unique
                  msg w1 w2) as [Hfail _]; [done..|]. by rewrite Hfail in Hret. }
  destruct (create_tidal_playlist_created name tracks s existing unique created w1 w2)
    as (new & Htr & _ & [Hlist'|(code & Hexit & _)]); [done..| |].
  - exists (opening name unique ++ new). split; [done|].
    rewrite ledger_app, ledger_opening. cbn [app]. congruence.
  - by rewrite Hexit in Hret.
Qed.

(** When the playlist is created, every add call of [create_tidal_playlist]
    adds one track, to the playlist just created or to a playlist of its
    name, which is the name of none of the playlists that existed. *)
Theorem create_tidal_playlist_adds_to_new_playlist (name : string)
    (tracks : list SourceTrack) (s : state W) (existing : list TidalPlaylist)
    (unique : string) (created : TidalPlaylist) (w1 w2 : W) :
  user_playlists (world s) = (Ok existing, w1) ->
  unique_name (S (length existing)) existing name = Some unique ->
  user_create_playlist unique "Migrated from Spotify" w1 = (Ok created, w2) ->
  (unique ∉ (pl_name <$> existing)) /\
  exists new,
    trace (snd (create_tidal_playlist name tracks s)) = trace s ++ new /\
    forall p ids, PlaylistAdd p ids ∈ new ->
                  length ids = 1 /\ (p = created \/ pl_name p = unique).
Proof.
  intros Hlist Hname Hcreate. split.
  { destruct (unique_name_spec existing name) as (unique' & Hname' & _ & Hfree & _).
    congruence. }
  destruct (create_tidal_playlist_created name tracks s existing unique created w1 w2)
    as (new & Htr & Hall & _); [done..|].
  exists (opening name unique ++ new). split; [done|].
  intros p ids Hin. apply elem_of_app in Hin as [Hin|Hin].
  { unfold opening, announce in Hin. destruct (decide (unique <> name));
      repeat (apply elem_of_cons in Hin as [Hin|Hin]; [done|]);
      by apply elem_of_nil in Hin. }
  rewrite Forall_forall in Hall. specialize (Hall _ Hin). cbn in Hall.
  apply andb_true_iff in Hall as [Hlen Htarget].
  apply bool_decide_eq_true_1 in Hlen. split; [done|].
  apply orb_true_iff in Htarget as [Ht|Ht]; apply bool_decide_eq_true_1 in Ht; auto.
Qed.

(** [create_tidal_playlist] always ends, in one of four ways: it returns
    its list [not_found]; it returns the tracks it was given; it raises the
    [UnboundLocalError] of its own handler; or the program exits with status 0
    or 1. *)
Theorem create_tidal_playlist_outcomes (name : string) (tracks : list SourceTrack)
    (s : state W) :
  match fst (create_tidal_playlist name tracks s) with
  | Return (NotFoundList _) => True
  | Return (TrackList l) => l = tracks
  | Raised msg => msg = unbound_local "unique_playlist_name"
  | Exited code => code = 0%Z \/ code = 1%Z
  | OutOfFuel => False
  end.
Proof.
  destruct (user_playlists (world s)) as [[existing|msg] w1] eqn:Hlist.
  2:{ by rewrite (create_tidal_playlist_lookup_failure name tracks s msg w1). }
  destruct (unique_name_spec existing name) as (unique & Hname & _).
  destruct (user_create_playlist unique "Migrated from Spotify" w1)
    as [[created|msg] w2] eqn:Hcreate.
  2:{ destruct (create_tidal_playlist_creation_failure name tracks s existing unique
                  msg w1 w2) as [Hfail _]; [done..|]. by rewrite Hfail. }
  destruct (create_tidal_playlist_created name tracks s existing unique created w1 w2)
    as (new & _ & _ & [Hret|(code & Hexit & Hcode)]); [done..| |].
  - by rewrite Hret.
  - by rewrite Hexit.
Qed.

End Engine_runs.

(** The instance of [create_tidal_playlist_list_mirrors_ledger] at a
    playlist of one track without ISRC. *)
Lemma create_tidal_playlist_list_mirrors_ledger_witness :
  exists new,
    trace (snd (create_tidal_playlist "Road Trip" [blank] (initial quiet)))
      = trace (initial quiet) ++ new /\
    [{| nf_name := "Demo"; nf_artist := "Somebody"; nf_reason := "isrc blank in input" |}]
      = entry_of <$> ledger new.
Proof.
  apply (create_tidal_playlist_list_mirrors_ledger "Road Trip" [blank] (initial quiet)).
  vm_compute. reflexivity.
Defined.

(** The instance of [create_tidal_playlist_adds_to_new_playlist] at a
    playlist of one track that is found and added. *)
Lemma create_tidal_playlist_adds_to_new_playlist_witness :
  ("Road Trip" ∉ (pl_name <$> [])) /\
  exists new,
    trace (snd (create_tidal_playlist "Road Trip" [yellow] (initial adds_yellow)))
      = trace (initial adds_yellow) ++ new /\
    forall p ids, PlaylistAdd p ids ∈ new ->
                  length ids = 1 /\
                  (p = {| pl_id := 1; pl_name := "Road Trip" |}
                   \/ pl_name p = "Road Trip").
Proof.
  apply (create_tidal_playlist_adds_to_new_playlist "Road Trip" [yellow]
           (initial adds_yellow) [] "Road Trip" {| pl_id := 1; pl_name := "Road Trip" |}
           adds_yellow adds_yellow); reflexivity.
Defined.

(** ** The engine: how many calls *)

Section Engine_calls.
Context {U : PyStr.Unicode}.
Context {W : Type} `{!Tidal W}.

Lemma engine_calls_nil : engine_calls 0 0 0 [].
Proof. by repeat split. Qed.

Lemma engine_calls_app (a b c a' b' c' : nat) (l1 l2 : list event) :
  engine_calls a b c l1 -> engine_calls a' b' c' l2 ->
  engine_calls (a + a') (b + b') (c + c') (l1 ++ l2).
Proof.
  intros (H1 & H2 & H3) (H1' & H2' & H3'). unfold engine_calls.
  rewrite !count_app. lia.
Qed.

Lemma spends_weaken {A} (m : M W A) (a b c a' b' c' : nat) :
  spends m a b c -> a <= a' -> b <= b' -> c <= c' -> spends m a' b' c'.
Proof.
  intros Hm Ha Hb Hc s. destruct (Hm s) as (new & Htr & H1 & H2 & H3).
  exists new. split; [done|]. unfold engine_calls. lia.
Qed.

Lemma spends_bind {A B} (m : M W A) (k : A -> M W B) (a b c a' b' c' : nat) :
  spends m a b c -> (forall x, spends (k x) a' b' c') ->
  spends (bind m k) (a + a') (b + b') (c + c').
Proof.
  intros Hm Hk s. destruct (Hm s) as (new & Htr & Hnew). unfold bind.
  destruct (m s) as [[x|msg|code|] s1]; cbn [fst snd] in *;
    try (exists new; split; [done|]; destruct Hnew as (? & ? & ?);
         unfold engine_calls; lia).
  destruct (Hk x s1) as (new' & Htr' & Hnew'). exists (new ++ new').
  split; [by rewrite Htr', Htr, app_assoc|by apply engine_calls_app].
Qed.

Lemma spends_try_except {A} (body : M W A) (handler : string -> M W A)
    (a b c a' b' c' : nat) :
  spends body a b c -> (forall msg, spends (handler msg) a' b' c') ->
  spends (try_except body handler) (a + a') (b + b') (c + c').
Proof.
  intros Hm Hk s. destruct (Hm s) as (new & Htr & Hnew). unfold try_except.
  destruct (body s) as [[x|msg|code|] s1]; cbn [fst snd] in *;
    try (exists new; split; [done|]; destruct Hnew as (? & ? & ?);
         unfold engine_calls; lia).
  destruct (Hk msg s1) as (new' & Htr' & Hnew'). exists (new ++ new').
  split; [by rewrite Htr', Htr, app_assoc|by apply engine_calls_app].
Qed.

(** Steps that cost nothing, before or after one that does. *)
Lemma spends_bind_free {A B} (m : M W A) (k : A -> M W B) (a b c : nat) :
  spends m 0 0 0 -> (forall x, spends (k x) a b c) -> spends (bind m k) a b c.
Proof. intros Hm Hk. by apply (spends_bind m k 0 0 0 a b c). Qed.

Lemma spends_bind_then_free {A B} (m : M W A) (k : A -> M W B) (a b c : nat) :
  spends m a b c -> (forall x, spends (k x) 0 0 0) -> spends (bind m k) a b c.
Proof.
  intros Hm Hk. eapply spends_weaken; [by apply (spends_bind m k a b c 0 0 0)|lia..].
Qed.

Lemma spends_try_except_free {A} (body : M W A) (handler : string -> M W A)
    (a b c : nat) :
  spends body a b c -> (forall msg, spends (handler msg) 0 0 0) ->
  spends (try_except body handler) a b c.
Proof.
  intros Hm Hk.
  eapply spends_weaken; [by apply (spends_try_except body handler a b c 0 0 0)|lia..].
Qed.

Lemma spends_pure {A} (m : M W A) :
  (forall s, trace (snd (m s)) = trace s) -> spends m 0 0 0.
Proof.
  intros Hm s. exists []. rewrite Hm, app_nil_r. split; [done|apply engine_calls_nil].
Qed.

Lemma spends_emit (e : event) (a b c : nat) :
  engine_calls a b c [e] -> spends (emit (W:=W) e) a b c.
Proof. intros He s. by exists [e]. Qed.

Lemma spends_call {A} (e : event) (oracle : W -> answer A * W) (a b c : nat) :
  engine_calls a b c [e] -> spends (call e oracle) a b c.
Proof.
  intros He s. exists [e]. unfold call.
  by destruct (oracle (world s)) as [[x|msg] w].
Qed.

Ltac free_step :=
  lazymatch goal with
  | |- spends (bind _ _) 0 0 0 => apply spends_bind_free; [|intros ?]
  | |- spends (try_except _ _) 0 0 0 => apply spends_try_except_free; [|intros ?]
  | |- spends (ret _) _ _ _ => by apply spends_pure
  | |- spends (raise _) _ _ _ => by apply spends_pure
  | |- spends (sys_exit _) _ _ _ => by apply spends_pure
  | |- spends out_of_fuel _ _ _ => by apply spends_pure
  | |- spends (gets _) _ _ _ => by apply spends_pure
  | |- spends (set_playlist _) _ _ _ => by apply spends_pure
  | |- spends (set_added_tracks _) _ _ _ => by apply spends_pure
  | |- spends (set_not_found _) _ _ _ => by apply spends_pure
  | |- spends (set_unique_playlist_name _) _ _ _ => by apply spends_pure
  | |- spends (print _) _ _ _ => apply spends_emit; by repeat split
  | |- spends (call _ _) _ _ _ => apply spends_call; by repeat split
  | |- spends (if ?b then _ else _) _ _ _ => destruct b
  | |- spends (match ?x with _ => _ end) _ _ _ => destruct x
  end.

Lemma spends_authenticate_tidal : spends authenticate_tidal 0 0 0.
Proof. unfold authenticate_tidal. repeat free_step. Qed.

Lemma spends_reauthenticate (track : SourceTrack) (unique : string) :
  spends (reauthenticate track unique) 0 0 0.
Proof. unfold reauthenticate. repeat free_step. apply spends_authenticate_tidal. Qed.

Lemma spends_log_not_found (track : SourceTrack) (reason : string) :
  spends (log_not_found (W:=W) track reason) 0 0 0.
Proof. intros s. exists [LedgerAppend (row_of track reason)]. by repeat split. Qed.

Lemma spends_get_unique_playlist_name (desired_name : string) :
  spends (get_unique_playlist_name desired_name) 0 0 0.
Proof. unfold get_unique_playlist_name. repeat free_step. Qed.

(** The resolver: no add, and the searches and listings of
    [calls_within_find_best_track_match]. *)
Lemma spends_find_best_track_match (track : SourceTrack) :
  spends (find_best_track_match track) 0 4 3.
Proof.
  intros s. destruct (calls_within_find_best_track_match track s)
    as (new & Htr & (H1 & H2 & H3 & H4) & _).
  exists new. split; [done|]. unfold engine_calls. rewrite count_is_search.
  split_and!; [|lia|done].
  clear -H4. unfold count. induction H4 as [|e l He _ IH]; [done|].
  destruct e; try done; exact IH.
Qed.

(** The retry loop: one add for each iteration. *)
Lemma spends_add_to_playlist (attempts : nat) (found_track : TidalTrack)
    (track : SourceTrack) (key unique : string) :
  spends (add_to_playlist attempts found_track track key unique) attempts 0 0.
Proof.
  induction attempts as [|attempts IH]; cbn [add_to_playlist]; [by apply spends_pure|].
  apply (spends_try_except _ _ 1 0 0 attempts 0 0).
  - apply spends_bind_then_free; [|intros _; repeat free_step].
    unfold add_call. apply spends_bind_free; [by apply spends_pure|intros [p|]].
    + apply spends_call. by repeat split.
    + eapply spends_weaken; [by apply spends_pure|lia..].
  - intros msg. destruct (is_412 msg);
      [|eapply spends_weaken; [by apply spends_pure|lia..]].
    do 3 (apply spends_bind_free; [repeat free_step|intros ?]).
    destruct (PyStr.contains _ _).
    + apply spends_bind_free; [apply spends_reauthenticate|intros _; apply IH].
    + eapply spends_weaken; [|apply Nat.le_0_l..]. repeat free_step.
Qed.

Lemma spends_process_track (unique : string) (total k : nat) (track : SourceTrack) :
  spends (process_track unique total k track) 2 4 3.
Proof.
  unfold process_track, resolve_and_add.
  apply spends_bind_free; [repeat free_step|intros _].
  destruct (isrc_blank track);
    [eapply spends_weaken; [apply spends_log_not_found|lia..]|].
  apply spends_bind_free; [repeat free_step|intros added].
  destruct (decide (_ ∈ added));
    [eapply spends_weaken; [by apply spends_pure|lia..]|].
  apply spends_try_except_free; [|intros msg; apply spends_log_not_found].
  apply (spends_bind _ _ 0 4 3 2 0 0); [apply spends_find_best_track_match|].
  intros [found|]; [|eapply spends_weaken; [apply spends_log_not_found|lia..]].
  apply spends_bind_then_free; [apply spends_add_to_playlist|intros _].
  repeat free_step.
Qed.

Lemma spends_process_tracks (unique : string) (total k : nat)
    (tracks : list SourceTrack) :
  spends (process_tracks unique total k tracks)
         (2 * length tracks) (4 * length tracks) (3 * length tracks).
Proof.
  revert k. induction tracks as [|track rest IH]; intros k; cbn [process_tracks];
    [by apply spends_pure|].
  eapply spends_weaken;
    [apply (spends_bind _ _ 2 4 3); [apply spends_process_track|intros _; apply IH]
    |cbn [length]; lia..].
Qed.

(** One call of [create_tidal_playlist] makes, for each track, at most two
    add calls, four searches and three album listings. *)
Theorem create_tidal_playlist_call_bounds (name : string) (tracks : list SourceTrack)
    (s : state W) :
  exists new,
    trace (snd (create_tidal_playlist name tracks s)) = trace s ++ new /\
    count is_add new <= 2 * length tracks /\
    count is_search new <= 4 * length tracks /\
    count is_listing new <= 3 * length tracks.
Proof.
  assert (spends (create_tidal_playlist name tracks)
                 (2 * length tracks) (4 * length tracks) (3 * length tracks)) as Hm.
  { unfold create_tidal_playlist.
    do 4 (apply spends_bind_free; [repeat free_step|intros _]).
    apply spends_try_except_free; [|intros msg; repeat free_step].
    apply spends_bind_free; [apply spends_get_unique_playlist_name|intros unique].
    do 5 (apply spends_bind_free; [repeat free_step|intros ?]).
    apply spends_bind_then_free; [apply spends_process_tracks|intros _].
    repeat free_step. }
  exact (Hm s).
Qed.

End Engine_calls.

(** ** The engine: single tracks *)

Section Engine_tracks.
Context {U : PyStr.Unicode}.
Context {W : Type} `{!Tidal W}.

Lemma bind_exited {A B} (m : M W A) (k : A -> M W B) (s : state W) (code : Z)
    (s1 : state W) :
  m s = (Exited code, s1) -> bind m k s = (Exited code, s1).
Proof. unfold bind. by intros ->. Qed.

Lemma try_except_exited {A} (body : M W A) (handler : string -> M W A) (s : state W)
    (code : Z) (s1 : state W) :
  body s = (Exited code, s1) -> try_except body handler s = (Exited code, s1).
Proof. unfold try_except. by intros ->. Qed.

(** [process_track] up to the resolver, for a track with ISRC whose key is
    new. *)
Lemma process_track_resolve (unique : string) (total k : nat) (track : SourceTrack)
    (s : state W) :
  isrc_blank track = false ->
  track_id_key track ∉ added_tracks s ->
  process_track unique total k track s
  = try_except (resolve_and_add unique track (track_id_key track))
               (fun e => log_not_found track ("search error: " +:+ e))
               (snd (emit (progress unique k total) s)).
Proof.
  intros Hblank Hkey. unfold process_track, track_id_key in *.
  erewrite (bind_return _ _ s); [|reflexivity].
  rewrite Hblank. erewrite bind_return; [|reflexivity].
  cbn [added_tracks snd emit]. by destruct (decide (_ ∈ added_tracks s)).
Qed.

(** A track that is found and added: one add call, and the key goes to
    [added_tracks]. *)
Lemma process_track_added (unique : string) (total k : nat) (track : SourceTrack)
    (s s1 : state W) (found_track : TidalTrack) (pl : TidalPlaylist) (w : W) :
  isrc_blank track = false ->
  track_id_key track ∉ added_tracks s ->
  find_best_track_match track (snd (emit (progress unique k total) s))
    = (Return (Some found_track), s1) ->
  playlist s1 = Some pl ->
  playlist_add pl [tt_id found_track] (world s1) = (Ok tt, w) ->
  process_track unique total k track s
  = (Return tt,
     {| world := w; trace := trace s1 ++ [PlaylistAdd pl [tt_id found_track]];
        unique_playlist_name := unique_playlist_name s1; playlist := Some pl;
        added_tracks := {[track_id_key track]} ∪ added_tracks s1;
        not_found := not_found s1 |}).
Proof.
  intros Hblank Hkey Hfind Hpl Hadd.
  rewrite process_track_resolve by done.
  unfold try_except, resolve_and_add. rewrite (bind_return _ _ _ _ _ Hfind).
  unfold max_retries. cbn [add_to_playlist].
  unfold try_except, add_call, bind, gets, call. cbn [fst snd]. rewrite Hpl, Hadd.
  cbn. destruct (decide (_ ∈ _)) as [_|Hout]; [cbn; by rewrite ?Hpl|].
  exfalso. apply Hout. apply elem_of_union. left. by apply elem_of_singleton.
Qed.

(** A track whose key is in [added_tracks]: the progress line, and nothing
    else. *)
Lemma process_track_skipped (unique : string) (total k : nat) (track : SourceTrack)
    (s : state W) :
  isrc_blank track = false ->
  track_id_key track ∈ added_tracks s ->
  process_track unique total k track s
  = (Return tt, snd (emit (progress unique k total) s)).
Proof.
  intros Hblank Hkey. unfold process_track, track_id_key in *.
  erewrite (bind_return _ _ s); [|reflexivity].
  rewrite Hblank. erewrite bind_return; [|reflexivity].
  cbn [added_tracks snd emit]. by destruct (decide (_ ∈ added_tracks s)).
Qed.

(** A row of a playlist that has the track name and the artist names of a
    track added before it is passed over: after the first row's add, the
    second row gets its progress line and nothing else, whatever its ISRC
    and album are. *)
Theorem same_name_added_once (unique : string) (total k : nat)
    (first second : SourceTrack) (s s1 : state W) (found_track : TidalTrack)
    (pl : TidalPlaylist) (w : W) :
  isrc_blank first = false -> isrc_blank second = false ->
  track_name second = track_name first ->
  artist_names second = artist_names first ->
  track_id_key first ∉ added_tracks s ->
  find_best_track_match first (snd (emit (progress unique (S k) total) s))
    = (Return (Some found_track), s1) ->
  playlist s1 = Some pl ->
  playlist_add pl [tt_id found_track] (world s1) = (Ok tt, w) ->
  fst (process_tracks unique total k [first; second] s) = Return tt /\
  trace (snd (process_tracks unique total k [first; second] s))
    = trace s1 ++ [PlaylistAdd pl [tt_id found_track];
                   progress unique (S (S k)) total] /\
  not_found (snd (process_tracks unique total k [first; second] s)) = not_found s1 /\
  world (snd (process_tracks unique total k [first; second] s)) = w.
Proof.
  intros Hblank1 Hblank2 Hname Hartists Hkey Hfind Hpl Hadd.
  cbn [process_tracks].
  erewrite bind_return;
    [|by apply (process_track_added unique total (S k) first s s1 found_track pl w)].
  assert (track_id_key second = track_id_key first) as Hsame
    by (unfold track_id_key; by rewrite Hname, Hartists).
  erewrite bind_return;
    [|apply process_track_skipped; [done|]; rewrite Hsame; cbn [added_tracks];
      apply elem_of_union; left; by apply elem_of_singleton].
  cbn. split_and!; try done. by rewrite <- app_assoc.
Qed.

(** When an add fails with the 412 error and the user's answer has no
    letter y, the program exits with status 0: the track is not logged, and
    no handler of the engine takes the exit. *)
Theorem declined_reauthentication_exits (unique : string) (total k : nat)
    (track : SourceTrack) (s s1 : state W) (found_track : TidalTrack)
    (pl : TidalPlaylist) (msg user_response : string) (w1 w2 : W) :
  isrc_blank track = false ->
  track_id_key track ∉ added_tracks s ->
  find_best_track_match track (snd (emit (progress unique k total) s))
    = (Return (Some found_track), s1) ->
  playlist s1 = Some pl ->
  playlist_add pl [tt_id found_track] (world s1) = (Raise msg, w1) ->
  is_412 msg = true ->
  input w1 = (Ok user_response, w2) ->
  PyStr.contains "y" (PyStr.lower (PyStr.strip user_response)) = false ->
  fst (process_track unique total k track s) = Exited 0 /\
  trace (snd (process_track unique total k track s))
    = trace s1 ++
      [PlaylistAdd pl [tt_id found_track];
       Print (LF +:+ LF +:+ "Re-authentication required for track: "
                +:+ track_name track +:+ " by " +:+ artist_names track);
       Print "Would you like to authenticate again? (y/n): ";
       Input;
       Print "Exiting program as requested."].
Proof.
  intros Hblank Hkey Hfind Hpl Hadd H412 Hinput Hanswer.
  rewrite process_track_resolve by done.
  set (s2 := snd (call (PlaylistAdd pl [tt_id found_track])
                       (playlist_add pl [tt_id found_track]) s1)).
  assert (add_call [tt_id found_track] s1 = (Raised msg, s2)) as Hcall.
  { unfold s2, add_call, bind, gets. rewrite Hpl. unfold call. by rewrite Hadd. }
  assert (world s2 = w1 /\
          trace s2 = trace s1 ++ [PlaylistAdd pl [tt_id found_track]]) as [Hw2 Htr2].
  { unfold s2, call. by rewrite Hadd. }
  clearbody s2.
  assert (exists s3,
            add_to_playlist (S max_retries) found_track track (track_id_key track)
                            unique s1 = (Exited 0, s3) /\
            trace s3
            = trace s2 ++
              [Print (LF +:+ LF +:+ "Re-authentication required for track: "
                        +:+ track_name track +:+ " by " +:+ artist_names track);
               Print "Would you like to authenticate again? (y/n): ";
               Input;
               Print "Exiting program as requested."]) as (s3 & Hloop & Htr3).
  { unfold max_retries. cbn [add_to_playlist].
    rewrite (try_except_raised _ _ s1 msg s2) by (by rewrite (bind_raised _ _ s1 msg s2)).
    rewrite H412.
    do 2 (erewrite bind_return; [|reflexivity]).
    erewrite bind_return;
      [|unfold call; cbn [world snd print emit]; rewrite Hw2, Hinput; reflexivity].
    rewrite Hanswer. erewrite bind_return; [|reflexivity].
    eexists. split; [reflexivity|]. cbn. by rewrite <- !app_assoc. }
  assert (resolve_and_add unique track (track_id_key track)
            (snd (emit (progress unique k total) s)) = (Exited 0, s3)) as Hbody.
  { unfold resolve_and_add. rewrite (bind_return _ _ _ _ _ Hfind).
    by rewrite (bind_exited _ _ s1 0 s3). }
  rewrite (try_except_exited _ _ _ _ _ Hbody). cbn [fst snd].
  split; [done|]. rewrite Htr3, Htr2. by rewrite <- !app_assoc.
Qed.

(** When the retry loop ends and the track is not in [added_tracks], the
    branch of line 457 reads [add_error], which holds no value: the track is
    logged by the handler of line 474, with that error as its reason. *)
Theorem retries_used_up_logged_as_search_error (unique : string) (total k : nat)
    (track : SourceTrack) (s s1 s2 : state W) (found_track : TidalTrack) :
  isrc_blank track = false ->
  track_id_key track ∉ added_tracks s ->
  find_best_track_match track (snd (emit (progress unique k total) s))
    = (Return (Some found_track), s1) ->
  add_to_playlist (S max_retries) found_track track (track_id_key track) unique s1
    = (Return tt, s2) ->
  track_id_key track ∉ added_tracks s2 ->
  fst (process_track unique total k track s) = Return tt /\
  trace (snd (process_track unique total k track s))
    = trace s2 ++
      [LedgerAppend (row_of track ("search error: " +:+ unbound_local "add_error"))] /\
  not_found (snd (process_track unique total k track s))
    = not_found s2 ++
      [{| nf_name := track_name track; nf_artist := artist_names track;
          nf_reason := "search error: " +:+ unbound_local "add_error" |}].
Proof.
  intros Hblank Hkey Hfind Hloop Hout.
  rewrite process_track_resolve by done.
  assert (resolve_and_add unique track (track_id_key track)
            (snd (emit (progress unique k total) s))
          = (Raised (unbound_local "add_error"), s2)) as Hbody.
  { unfold resolve_and_add. rewrite (bind_return _ _ _ _ _ Hfind).
    rewrite (bind_return _ _ _ _ _ Hloop).
    erewrite bind_return; [|reflexivity].
    by destruct (decide (_ ∈ added_tracks s2)). }
  rewrite (try_except_raised _ _ _ _ _ Hbody). done.
Qed.

End Engine_tracks.

(** The instance of [same_name_added_once] at two rows for the song
    ["Yellow"]. *)
Lemma same_name_added_once_witness :
  fst (process_tracks "Road Trip" 2 0 [yellow; yellow_live] (in_loop adds_yellow))
    = Return tt /\
  trace (snd (process_tracks "Road Trip" 2 0 [yellow; yellow_live] (in_loop adds_yellow)))
    = [progress "Road Trip" 1 2; Search Tracks "Yellow Coldplay"]
      ++ [PlaylistAdd road_trip [42%Z]; progress "Road Trip" 2 2] /\
  not_found (snd (process_tracks "Road Trip" 2 0 [yellow; yellow_live]
                                 (in_loop adds_yellow))) = [] /\
  world (snd (process_tracks "Road Trip" 2 0 [yellow; yellow_live] (in_loop adds_yellow)))
    = adds_yellow.
Proof.
  apply (same_name_added_once "Road Trip" 2 0 yellow yellow_live (in_loop adds_yellow)
           {| world := adds_yellow;
              trace := [progress "Road Trip" 1 2; Search Tracks "Yellow Coldplay"];
              unique_playlist_name := Some "Road Trip"; playlist := Some road_trip;
              added_tracks := ∅; not_found := [] |}
           yellow_on_tidal road_trip adds_yellow); try reflexivity.
  vm_compute. intros H. inversion H.
Defined.

(** The instance of [declined_reauthentication_exits] at a track whose add
    fails with the 412 error, and the answer [n]. *)
Lemma declined_reauthentication_exits_witness :
  fst (process_track "Road Trip" 1 1 yellow (in_loop expired)) = Exited 0 /\
  trace (snd (process_track "Road Trip" 1 1 yellow (in_loop expired)))
    = [progress "Road Trip" 1 1; Search Tracks "Yellow Coldplay"] ++
      [PlaylistAdd road_trip [42%Z];
       Print (LF +:+ LF +:+ "Re-authentication required for track: "
                +:+ "Yellow" +:+ " by " +:+ "Coldplay");
       Print "Would you like to authenticate again? (y/n): ";
       Input;
       Print "Exiting program as requested."].
Proof.
  apply (declined_reauthentication_exits "Road Trip" 1 1 yellow (in_loop expired)
           {| world := expired;
              trace := [progress "Road Trip" 1 1; Search Tracks "Yellow Coldplay"];
              unique_playlist_name := Some "Road Trip"; playlist := Some road_trip;
              added_tracks := ∅; not_found := [] |}
           yellow_on_tidal road_trip
           "412 Client Error: Precondition Failed for url" "n" expired expired).
  - reflexivity.
  - apply not_elem_of_empty.
  - vm_compute. reflexivity.
  - reflexivity.
  - reflexivity.
  - vm_compute. reflexivity.
  - reflexivity.
  - vm_compute. reflexivity.
Defined.

(** The instance of [retries_used_up_logged_as_search_error] at a track
    whose add fails with the 412 error each time, and a user who agrees to
    authenticate again each time. *)
Lemma retries_used_up_logged_as_search_error_witness :
  fst (process_track "Road Trip" 1 1 yellow (in_loop expired_again)) = Return tt /\
  ledger (trace (snd (process_track "Road Trip" 1 1 yellow (in_loop expired_again))))
  = [row_of yellow
       "search error: cannot access local variable 'add_error' where it is not associated with a value"].
Proof.
  set (s1 := snd (find_best_track_match yellow
                    (snd (emit (progress "Road Trip" 1 1) (in_loop expired_again))))).
  set (s2 := snd (add_to_playlist (S max_retries) yellow_on_tidal yellow
                    (track_id_key yellow) "Road Trip" s1)).
  assert (isrc_blank yellow = false) as Hblank by reflexivity.
  assert (track_id_key yellow ∉ added_tracks (in_loop expired_again)) as Hkey
    by apply not_elem_of_empty.
  assert (find_best_track_match yellow
            (snd (emit (progress "Road Trip" 1 1) (in_loop expired_again)))
          = (Return (Some yellow_on_tidal), s1)) as Hfind
    by (vm_compute; reflexivity).
  assert (add_to_playlist (S max_retries) yellow_on_tidal yellow
            (track_id_key yellow) "Road Trip" s1 = (Return tt, s2)) as Hloop
    by (vm_compute; reflexivity).
  assert (track_id_key yellow ∉ added_tracks s2) as Hout
    by (vm_compute; intros H; inversion H).
  destruct (retries_used_up_logged_as_search_error "Road Trip" 1 1 yellow
              (in_loop expired_again) s1 s2 yellow_on_tidal
              Hblank Hkey Hfind Hloop Hout) as (Hret & Htrace & _).
  split; [exact Hret|]. rewrite Htrace. vm_compute. reflexivity.
Defined.

Section Main_loop.
Context {U : PyStr.Unicode}.
Context {W : Type} `{!Tidal W}.

(** When the playlist cannot be created, [main] reports it as created and
    then fails: [display_not_found_songs] gets the list of tracks, whose
    entries have no key ['name'], and the [KeyError] ends the loop over the
    selected playlists. *)
Theorem creation_failure_ends_main_loop (df : list DataRow) (playlist_id name : string)
    (rest : list (string * string)) (s : state W) (existing : list TidalPlaylist)
    (unique msg : string) (w1 w2 : W) :
  get_playlist_tracks df playlist_id <> [] ->
  user_playlists (world s) = (Ok existing, w1) ->
  unique_name (S (length existing)) existing name = Some unique ->
  user_create_playlist unique "Migrated from Spotify" w1 = (Raise msg, w2) ->
  fst (process_playlists df ((playlist_id, name) :: rest) s) = Raised "'name'" /\
  trace (snd (process_playlists df ((playlist_id, name) :: rest) s))
    = trace s ++ opening name unique
        ++ [Print (LF +:+ "Error creating playlist '" +:+ unique +:+ "': " +:+ msg);
            Print ("Playlist '" +:+ name +:+ "' has been created.");
            Print "The following songs were not found on Tidal:"].
Proof.
  intros Htracks Hlist Hname Hcreate. cbn [process_playlists]. cbv zeta.
  destruct (create_tidal_playlist_creation_failure name
              (get_playlist_tracks df playlist_id) s existing unique msg w1 w2)
    as [Hfail _]; [done..|].
  pose proof (create_tidal_playlist_creation_failure_trace name
                (get_playlist_tracks df playlist_id) s existing unique msg w1 w2
                Hlist Hname Hcreate) as Htrace.
  destruct (create_tidal_playlist name (get_playlist_tracks df playlist_id) s)
    as [o s1] eqn:Hrun. cbn [fst snd] in *. subst o.
  rewrite (bind_return _ _ _ _ _ Hrun).
  destruct (get_playlist_tracks df playlist_id) as [|track tracks]; [done|].
  erewrite bind_raised; [split; [reflexivity|]|].
  2:{ unfold display_not_found_songs.
      erewrite bind_return; [|reflexivity].
      erewrite bind_raised; [reflexivity|].
      erewrite bind_return; reflexivity. }
  cbn [snd trace print emit]. rewrite Htrace. by rewrite <- !app_assoc.
Qed.

End Main_loop.

(** The instance of [creation_failure_ends_main_loop] at two selected
    playlists, in a world where no playlist can be created: the second
    playlist is not reached. *)
Lemma creation_failure_ends_main_loop_witness :
  fst (process_playlists [{| df_playlist_id := "id-a"; df_track := yellow |}]
                         two_playlists (initial create_fails))
    = Raised "'name'" /\
  trace (snd (process_playlists [{| df_playlist_id := "id-a"; df_track := yellow |}]
                                two_playlists (initial create_fails)))
    = trace (initial create_fails) ++ opening "Alpha" "Alpha"
        ++ [Print (LF +:+ "Error creating playlist '" +:+ "Alpha" +:+ "': "
                      +:+ "400 Client Error: Bad Request");
            Print ("Playlist '" +:+ "Alpha" +:+ "' has been created.");
            Print "The following songs were not found on Tidal:"].
Proof.
  apply (creation_failure_ends_main_loop
           [{| df_playlist_id := "id-a"; df_track := yellow |}] "id-a" "Alpha"
           [("id-b", "Beta")] (initial create_fails) [] "Alpha"
           "400 Client Error: Bad Request" create_fails create_fails).
  - vm_compute. intros H. inversion H.
  - reflexivity.
  - vm_compute. reflexivity.
  - reflexivity.
Defined.

(** ** The selection of playlists *)

Section Selection.
Context {U : PyStr.Unicode}.
Context {W : Type} `{!Tidal W}.

Lemma with_trace_nil (s : state W) : with_trace s [] = s.
Proof. destruct s. unfold with_trace. cbn. by rewrite app_nil_r. Qed.

Lemma with_trace_app (s : state W) (l1 l2 : list event) :
  with_trace (with_trace s l1) l2 = with_trace s (l1 ++ l2).
Proof. unfold with_trace. cbn. by rewrite app_assoc. Qed.

Lemma print_with_trace (text : string) (s : state W) :
  print text s = (Return tt, with_trace s [Print text]).
Proof. done. Qed.

(** What one part of the answer selects does not depend on what was
    selected before it, nor on the state: the part adds its numbers, all of
    them numbers of the list, or it adds nothing and a warning is printed. *)
Lemma parse_part_picks (max_num : Z) (part : string) :
  exists picks new,
    in_list max_num picks /\ Forall (fun e => is_warning e = true) new /\
    length new <= 1 /\
    forall (selected : gset Z) (s : state W),
      parse_part max_num selected part s = (Return (selected ∪ picks), with_trace s new).
Proof.
  assert (forall text,
            exists picks new,
              in_list max_num picks /\
              Forall (fun e => is_warning e = true) new /\ length new <= 1 /\
              forall (selected : gset Z) (s : state W),
                (let* _ := print ("Warning: " +:+ text) in ret selected) s
                = (Return (selected ∪ picks), with_trace s new)) as Hwarn.
  { intros text. exists ∅, [Print ("Warning: " +:+ text)].
    split_and!; [by intros i Hi%not_elem_of_empty|by repeat constructor|done|].
    intros selected s. by rewrite (right_id_L ∅ (∪)). }
  assert (forall picks,
            in_list max_num picks ->
            exists picks' new,
              in_list max_num picks' /\
              Forall (fun e => is_warning e = true) new /\ length new <= 1 /\
              forall (selected : gset Z) (s : state W),
                ret (selected ∪ picks) s
                = (Return (selected ∪ picks'), with_trace s new)) as Hpick.
  { intros picks Hin. exists picks, []. split_and!; [done|constructor|cbn; lia|].
    intros selected s. by rewrite with_trace_nil. }
  unfold parse_part. destruct (PyStr.contains "-" part).
  - destruct (split_on "-" part) as [|a [|b [|c rest]]];
      try apply (Hwarn ("Invalid range format " +:+ part +:+ ", skipping")).
    destruct (py_int (PyStr.strip a)) as [start|];
      [|destruct (py_int (PyStr.strip b));
        apply (Hwarn ("Invalid range format " +:+ part +:+ ", skipping"))].
    destruct (py_int (PyStr.strip b)) as [end_|];
      [|apply (Hwarn ("Invalid range format " +:+ part +:+ ", skipping"))].
    case_bool_decide as Hrange;
      [|apply (Hwarn ("Invalid range " +:+ part +:+ ", skipping"))].
    apply Hpick. intros i Hi. apply elem_of_list_to_set, elem_of_seqZ in Hi. lia.
  - destruct (py_int (PyStr.strip part)) as [num|];
      [|apply (Hwarn ("Invalid number " +:+ part +:+ ", skipping"))].
    case_bool_decide as Hrange;
      [|apply (Hwarn ("Number " +:+ pretty num +:+ " out of range, skipping"))].
    apply Hpick. intros i Hi. apply elem_of_singleton in Hi as ->. done.
Qed.

Lemma parse_parts_picks (max_num : Z) (parts : list string) :
  exists picks new,
    in_list max_num picks /\ Forall (fun e => is_warning e = true) new /\
    length new <= length parts /\
    forall (selected : gset Z) (s : state W),
      parse_parts max_num selected parts s
      = (Return (selected ∪ picks), with_trace s new).
Proof.
  induction parts as [|part rest IH]; cbn [parse_parts].
  - exists ∅, []. split_and!; [by intros i Hi%not_elem_of_empty|constructor|done|].
    intros selected s. by rewrite (right_id_L ∅ (∪)), with_trace_nil.
  - destruct (parse_part_picks max_num part) as (p1 & n1 & Hin1 & Hw1 & Hl1 & Hrun1).
    destruct IH as (p2 & n2 & Hin2 & Hw2 & Hl2 & Hrun2).
    exists (p1 ∪ p2), (n1 ++ n2). split_and!.
    + intros i [Hi|Hi]%elem_of_union; auto.
    + by apply Forall_app.
    + rewrite List.length_app. cbn [length]. lia.
    + intros selected s. rewrite (bind_return _ _ _ _ _ (Hrun1 selected s)).
      by rewrite Hrun2, with_trace_app, (assoc_L (∪)).
Qed.

Lemma parse_playlist_selection_safe_aux (user_input : string) (max_num : Z)
    (s : state W) :
  exists selected,
    fst (parse_playlist_selection user_input max_num s) = Return selected /\
    in_list max_num selected.
Proof.
  unfold parse_playlist_selection.
  destruct (parse_parts_picks max_num (PyStr.strip <$> split_on "," user_input))
    as (picks & new & Hin & _ & _ & Hrun).
  exists picks. by rewrite Hrun, (left_id_L ∅ (∪)).
Qed.

(** The parser always returns; it selects only numbers of the displayed
    list; and all it does besides is print warnings, at most one for each
    part of the answer. *)
Theorem parse_playlist_selection_safe (user_input : string) (max_num : Z)
    (s : state W) :
  exists selected new,
    parse_playlist_selection user_input max_num s = (Return selected, with_trace s new) /\
    (forall i, i ∈ selected -> (1 <= i <= max_num)%Z) /\
    Forall (fun e => is_warning e = true) new /\
    length new <= length (split_on ","%char user_input).
Proof.
  unfold parse_playlist_selection.
  destruct (parse_parts_picks max_num (PyStr.strip <$> split_on "," user_input))
    as (picks & new & Hin & Hwarn & Hlen & Hrun).
  exists picks, new. rewrite Hrun, (left_id_L ∅ (∪)).
  rewrite length_fmap in Hlen. done.
Qed.

Lemma split_on_app (sep : ascii) (a b : string) :
  split_on sep (a +:+ String sep b)
  = match split_on sep a with
    | [] => split_on sep b
    | _ :: _ => split_on sep a ++ split_on sep b
    end.
Proof.
  destruct (split_on sep a) as [|w ws] eqn:Ha.
  { destruct a as [|c a]; [done|]. cbn in Ha.
    destruct (decide (c = sep)); [done|]. by destruct (split_on sep a). }
  rewrite <- Ha. clear w ws Ha.
  induction a as [|c a IH].
  - rewrite app_empty_l. cbn [split_on]. by destruct (decide (sep = sep)).
  - rewrite app_String. cbn [split_on]. destruct (decide (c = sep)); [by rewrite IH|].
    rewrite IH. destruct (split_on sep a) as [|w ws] eqn:Ha; [|done].
    destruct a as [|c' a]; [done|]. cbn in Ha.
    destruct (decide (c' = sep)); [done|]. by destruct (split_on sep a).
Qed.

Lemma split_on_not_nil (sep : ascii) (a : string) : split_on sep a <> [].
Proof.
  destruct a as [|c a]; [done|]. cbn.
  destruct (decide (c = sep)); [done|]. by destruct (split_on sep a).
Qed.

Lemma parse_parts_app (max_num : Z) (l1 l2 : list string) (selected : gset Z)
    (s : state W) :
  parse_parts max_num selected (l1 ++ l2) s
  = (let* selected' := parse_parts max_num selected l1 in
     parse_parts max_num selected' l2) s.
Proof.
  revert selected s. induction l1 as [|part rest IH]; intros selected s; [done|].
  cbn [parse_parts app].
  destruct (parse_part_picks max_num part) as (p & n & _ & _ & _ & Hrun).
  rewrite (bind_return _ _ _ _ _ (Hrun selected s)). unfold bind at 1.
  rewrite (bind_return _ _ _ _ _ (Hrun selected s)). apply IH.
Qed.

(** The selection of an answer with a comma is the union of the selections
    of the text before the comma and of the text after it. *)
Theorem parse_playlist_selection_union (before after : string) (max_num : Z)
    (s : state W) :
  exists first second,
    (forall s' : state W,
       fst (parse_playlist_selection before max_num s') = Return first) /\
    (forall s' : state W,
       fst (parse_playlist_selection after max_num s') = Return second) /\
    fst (parse_playlist_selection (before +:+ "," +:+ after) max_num s)
    = Return (first ∪ second).
Proof.
  unfold parse_playlist_selection.
  destruct (parse_parts_picks max_num (PyStr.strip <$> split_on "," before))
    as (p1 & n1 & _ & _ & _ & Hrun1).
  destruct (parse_parts_picks max_num (PyStr.strip <$> split_on "," after))
    as (p2 & n2 & _ & _ & _ & Hrun2).
  exists p1, p2. split_and!.
  - intros s'. by rewrite Hrun1, (left_id_L ∅ (∪)).
  - intros s'. by rewrite Hrun2, (left_id_L ∅ (∪)).
  - change ("," +:+ after) with (String "," after). rewrite split_on_app.
    pose proof (split_on_not_nil "," before) as Hne.
    destruct (split_on "," before) as [|w ws] eqn:Hbefore; [done|].
    rewrite fmap_app, parse_parts_app.
    rewrite (bind_return _ _ _ _ _ (Hrun1 ∅ s)), Hrun2. cbn [fst].
    by rewrite (left_id_L ∅ (∪)).
Qed.

(** *** Numerals *)

Lemma pretty_N_char_digit (d : N) :
  (d < 10)%N ->
  PyStr.is_digit (pretty_N_char d) = true /\
  Z.of_nat (nat_of_ascii (pretty_N_char d) - 48) = Z.of_N d.
Proof.
  intros Hd.
  assert (d = 0 \/ d = 1 \/ d = 2 \/ d = 3 \/ d = 4 \/ d = 5 \/ d = 6 \/ d = 7
          \/ d = 8 \/ d = 9)%N as Hcases by lia.
  repeat (destruct Hcases as [->|Hcases]; [by split|]). subst. by split.
Qed.

Lemma every_digit_pretty_N_go (x : N) (s : string) :
  every PyStr.is_digit s -> every PyStr.is_digit (pretty_N_go x s).
Proof.
  revert s. induction (N.lt_wf_0 x) as [x _ IH]; intros s Hs.
  destruct (decide (x = 0)%N) as [->|Hx]; [by rewrite pretty_N_go_0|].
  rewrite pretty_N_go_step by lia. apply IH; [apply N.div_lt; lia|].
  split; [|done]. apply pretty_N_char_digit, N.mod_lt. lia.
Qed.

Lemma int_digits_pretty_N_go (x : N) (s : string) :
  (0 < x)%N ->
  int_digits 0 false (pretty_N_go x s) = int_digits (Z.of_N x) true s.
Proof.
  revert s. induction (N.lt_wf_0 x) as [x _ IH]; intros s Hx.
  rewrite pretty_N_go_step by done.
  destruct (pretty_N_char_digit (x `mod` 10)) as [Hd Hv]; [apply N.mod_lt; lia|].
  assert (x = 10 * (x `div` 10) + x `mod` 10)%N as Hdiv by (by apply N.div_mod).
  destruct (decide (x `div` 10 = 0)%N) as [Hz|Hnz].
  - rewrite Hz in *. rewrite pretty_N_go_0. cbn [int_digits]. rewrite Hd, Hv.
    f_equal. generalize dependent (x `mod` 10)%N. intros. lia.
  - rewrite IH; [|by apply N.div_lt|by apply N.neq_0_lt_0].
    cbn [int_digits]. rewrite Hd, Hv. f_equal.
    generalize dependent (x `mod` 10)%N. generalize dependent (x `div` 10)%N.
    intros. lia.
Qed.

Lemma is_digit_no_space (c : ascii) : PyStr.is_digit c = true -> no_space c = true.
Proof.
  intros Hd. unfold no_space.
  assert (PyStr.is_ascii c = true /\ PyStr.ascii_space c = false) as [Ha Hs]
    by (revert Hd; destruct c as [[] [] [] [] [] [] [] []]; vm_compute; auto; congruence).
  by rewrite PyStr.is_space_ascii, Hs.
Qed.

Lemma is_digit_not (c d : ascii) :
  PyStr.is_digit d = false -> PyStr.is_digit c = true ->
  negb (bool_decide (c = d)) = true.
Proof. intros Hd Hc. case_bool_decide; [congruence|done]. Qed.

Lemma strip_no_space (s : string) : every no_space s -> PyStr.strip s = s.
Proof.
  intros Hs. unfold PyStr.strip.
  assert (PyStr.lstrip s = s) as ->.
  { destruct s as [|c s]; [done|]. destruct Hs as [Hc _]. unfold no_space in Hc.
    cbn. by apply negb_true_iff in Hc as ->. }
  induction s as [|c s IH]; [done|]. destruct Hs as [Hc Hs]. unfold no_space in Hc.
  apply negb_true_iff in Hc. rewrite rstrip_no_space by done. by rewrite IH.
Qed.

Lemma split_on_every (sep : ascii) (s : string) :
  every (fun c => negb (bool_decide (c = sep))) s -> split_on sep s = [s].
Proof.
  induction s as [|c s IH]; [done|]. intros [Hc Hs]. cbn [split_on].
  apply negb_true_iff, bool_decide_eq_false in Hc.
  destruct (decide (c = sep)); [done|]. by rewrite IH.
Qed.

Lemma contains_char (c : ascii) (s : string) :
  every (fun x => negb (bool_decide (x = c))) s ->
  PyStr.contains (String c "") s = false.
Proof.
  induction s as [|x s IH]; [done|]. intros [Hx Hs].
  cbn [PyStr.contains PyStr.startswith].
  apply negb_true_iff, bool_decide_eq_false in Hx.
  destruct (decide (c = x)) as [->|_]; [done|]. by apply IH.
Qed.

(** [int(str(k)) == k] for a positive [k]; the numeral is made of digits. *)
Lemma py_int_pretty (k : Z) :
  (0 < k)%Z -> py_int (pretty k) = Some k /\ every PyStr.is_digit (pretty k).
Proof.
  intros Hk. destruct k as [|p|p]; [lia| |lia].
  change (pretty (Z.pos p)) with (pretty_N_go (N.pos p) "").
  pose proof (every_digit_pretty_N_go (N.pos p) "" I) as Hdigits.
  pose proof (int_digits_pretty_N_go (N.pos p) "" eq_refl) as Hint.
  split; [|done]. unfold py_int.
  rewrite strip_no_space by (eapply every_impl; [apply is_digit_no_space|done]).
  destruct (pretty_N_go (N.pos p) "") as [|c t]; [done|].
  destruct Hdigits as [Hc _].
  destruct (decide (c = "-"%char)) as [->|_]; [done|].
  destruct (decide (c = "+"%char)) as [->|_]; [done|].
  by rewrite Hint.
Qed.

(** The facts about a numeral that the parser uses: it parses to its number,
    has no white space at its ends, no comma and no dash. *)
Lemma numeral_facts (k : Z) :
  (0 < k)%Z ->
  py_int (pretty k) = Some k /\
  PyStr.strip (pretty k) = pretty k /\
  every no_space (pretty k) /\
  every (fun c => negb (bool_decide (c = ","%char))) (pretty k) /\
  every (fun c => negb (bool_decide (c = "-"%char))) (pretty k).
Proof.
  intros Hk. destruct (py_int_pretty k Hk) as [Hint Hdigits].
  assert (every no_space (pretty k)) as Hns
    by (eapply every_impl; [apply is_digit_no_space|done]).
  split_and!; [done|by apply strip_no_space|done| |];
    (eapply every_impl; [|exact Hdigits]); intros c; by apply is_digit_not.
Qed.

(** The answer that is one number of the list. *)
Lemma parse_numeral (k max_num : Z) (s : state W) :
  (1 <= k <= max_num)%Z ->
  parse_playlist_selection (pretty k) max_num s = (Return {[k]}, s).
Proof.
  intros Hk. destruct (numeral_facts k) as (Hint & Hstrip & _ & Hcomma & Hdash); [lia|].
  unfold parse_playlist_selection. rewrite split_on_every by done.
  cbn [fmap list_fmap parse_parts]. rewrite Hstrip. unfold parse_part.
  rewrite contains_char by done. rewrite Hstrip, Hint.
  rewrite bool_decide_eq_true_2 by lia. cbn. by rewrite (left_id_L ∅ (∪)).
Qed.

(** The answers that are one number of the list, or a range of them,
    written in decimal: the number, or the numbers of the range, are
    selected, and nothing is printed. *)
Theorem parse_playlist_selection_numerals (a b max_num : Z) (s : state W) :
  (1 <= a <= b)%Z -> (b <= max_num)%Z ->
  parse_playlist_selection (pretty a) max_num s = (Return {[a]}, s) /\
  exists selected,
    parse_playlist_selection (pretty a +:+ "-" +:+ pretty b) max_num s
    = (Return selected, s) /\
    forall i, i ∈ selected <-> (a <= i <= b)%Z.
Proof.
  intros Hab Hb. split; [apply parse_numeral; lia|].
  destruct (numeral_facts a) as (Ha & Hsa & Hna & Hca & Hda); [lia|].
  destruct (numeral_facts b) as (Hb' & Hsb & Hnb & Hcb & Hdb); [lia|].
  unfold parse_playlist_selection. eexists. split.
  - rewrite split_on_every by (rewrite !every_app; by split_and!).
    cbn [fmap list_fmap parse_parts].
    rewrite strip_no_space
      by (rewrite !every_app; split_and!; try done;
          by split; [unfold no_space; ascii_char|]).
    unfold parse_part.
    assert (PyStr.contains "-" (pretty a +:+ "-" +:+ pretty b) = true) as ->
      by (apply contains_inv; by exists (pretty a), (pretty b)).
    change ("-" +:+ pretty b) with (String "-" (pretty b)).
    rewrite split_on_app, !split_on_every by done.
    cbn [app]. rewrite Hsa, Hsb, Ha, Hb'.
    rewrite bool_decide_eq_true_2 by lia. cbn. rewrite (left_id_L ∅ (∪)).
    reflexivity.
  - intros i. rewrite elem_of_list_to_set, elem_of_seqZ. lia.
Qed.

(** The indexing [playlists[i-1]] of [main] never fails on what the
    parser selected: every selected number has its playlist, each once, and
    all of them are playlists of the list. *)
Theorem selected_playlists_defined (playlists : list (string * string))
    (user_input : string) (s : state W) :
  exists selected_indices selected,
    fst (parse_playlist_selection user_input (Z.of_nat (length playlists)) s)
      = Return selected_indices /\
    selected_playlists playlists selected_indices = Some selected /\
    length selected = size selected_indices /\
    Forall (fun p => p ∈ playlists) selected.
Proof.
  destruct (parse_playlist_selection_safe_aux user_input (Z.of_nat (length playlists)) s)
    as (sel & Hrun & Hin).
  destruct (selected_playlists_total playlists sel Hin) as (selected & Hsel).
  exists sel, selected. split_and!; [done|done| |].
  - unfold selected_playlists in Hsel. apply length_mapM in Hsel. rewrite <- Hsel.
    unfold sorted. by rewrite merge_sort_Permutation.
  - unfold selected_playlists in Hsel. apply mapM_Some_1 in Hsel.
    induction Hsel as [|i p l l' Hp _ IH]; constructor; [|done].
    unfold py_index in Hp. repeat case_bool_decide; try done;
      by eapply list_elem_of_lookup_2.
Qed.

Lemma pretty_nat_Z (k : nat) : pretty (Z.of_nat (S k)) = pretty (S k).
Proof. done. Qed.

Lemma display_lines_trace (i : nat) (playlists : list (string * string)) (s : state W) :
  display_lines i playlists s
  = (Return tt,
     with_trace s (imap (fun j p => Print (pretty (i + j) +:+ ". " +:+ p.2)) playlists)).
Proof.
  revert i s. induction playlists as [|[id name] rest IH]; intros i s.
  - by rewrite with_trace_nil.
  - cbn [display_lines imap]. erewrite bind_return; [|apply print_with_trace].
    rewrite IH, with_trace_app. cbn [snd]. rewrite Nat.add_0_r. do 3 f_equal.
    apply imap_ext. intros j p _. cbn. by rewrite Nat.add_succ_r.
Qed.

(** The number that [display_playlists] shows beside a playlist is the
    answer that selects it: the lines shown are numbered from 1 in the order
    of the list, and on the answer [k+1] the loop of [main] runs over the
    playlist at index [k] alone. *)
Theorem displayed_number_selects_playlist (df : list DataRow)
    (playlists : list (string * string)) (k : nat) (playlist_id name : string)
    (s : state W) :
  playlists !! k = Some (playlist_id, name) ->
  trace (snd (display_playlists playlists s))
    = trace s ++ [Print "Here's all the playlists I can auto-create:"]
        ++ imap (fun j p => Print (pretty (S j) +:+ ". " +:+ p.2)) playlists
        ++ [Print ""] /\
  imap (fun j p => Print (pretty (S j) +:+ ". " +:+ p.2)) playlists !! k
    = Some (Print (pretty (S k) +:+ ". " +:+ name)) /\
  main_selected df playlists (pretty (S k)) s
    = (let* _ := print "" in process_playlists df [(playlist_id, name)]) s.
Proof.
  intros Hk. split_and!.
  - unfold display_playlists.
    erewrite bind_return; [|apply print_with_trace].
    erewrite bind_return; [|apply display_lines_trace].
    cbn. by rewrite <- !app_assoc.
  - by rewrite list_lookup_imap, Hk.
  - pose proof (lookup_lt_Some _ _ _ Hk) as Hlt.
    unfold main_selected. rewrite <- pretty_nat_Z.
    pose proof (parse_numeral (Z.of_nat (S k)) (Z.of_nat (length playlists)) s) as Hrun.
    specialize (Hrun ltac:(lia)).
    rewrite (bind_return _ _ _ _ _ Hrun).
    assert (selected_playlists playlists {[Z.of_nat (S k)]} = Some [(playlist_id, name)])
      as Hsel.
    { unfold selected_playlists, sorted. rewrite elements_singleton.
      cbn [merge_sort]. cbn. unfold py_index.
      rewrite bool_decide_eq_true_2 by lia.
      replace (Z.to_nat (Z.of_nat (S k) - 1)) with k by lia. by rewrite Hk. }
    by rewrite Hsel.
Qed.

End Selection.

(** The instance of [parse_playlist_selection_numerals] at the answers [2]
    and [2-4] for a list of five playlists. *)
Lemma parse_playlist_selection_numerals_witness :
  parse_playlist_selection (pretty 2%Z) 5 (initial quiet) = (Return {[2%Z]}, initial quiet) /\
  exists selected,
    parse_playlist_selection (pretty 2%Z +:+ "-" +:+ pretty 4%Z) 5 (initial quiet)
    = (Return selected, initial quiet) /\
    forall i, i ∈ selected <-> (2 <= i <= 4)%Z.
Proof.
  apply (parse_playlist_selection_numerals 2 4 5 (initial quiet)); lia.
Defined.

(** The instance of [displayed_number_selects_playlist] at the second of
    two playlists. *)
Lemma displayed_number_selects_playlist_witness :
  trace (snd (display_playlists two_playlists (initial quiet)))
    = trace (initial quiet) ++ [Print "Here's all the playlists I can auto-create:"]
        ++ imap (fun j p => Print (pretty (S j) +:+ ". " +:+ p.2)) two_playlists
        ++ [Print ""] /\
  imap (fun j p => Print (pretty (S j) +:+ ". " +:+ p.2)) two_playlists !! 1
    = Some (Print (pretty 2 +:+ ". " +:+ "Beta")) /\
  main_selected [] two_playlists (pretty 2) (initial quiet)
    = (let* _ := print "" in process_playlists [] [("id-b", "Beta")]) (initial quiet).
Proof.
  apply (displayed_number_selects_playlist [] two_playlists 1 "id-b" "Beta"
           (initial quiet)).
  reflexivity.
Defined.

(** ** The loop that asks for the selection *)

Section Asking.
Context {U : PyStr.Unicode}.
Context {W : Type} `{!Tidal W}.

Lemma returns_only_parse_playlist_selection (user_input : string) (max_num : Z) :
  returns_only (in_list max_num) (parse_playlist_selection (W:=W) user_input max_num).
Proof.
  intros s selected Hs.
  destruct (parse_playlist_selection_safe_aux user_input max_num s)
    as (selected' & Hrun & Hin). rewrite Hrun in Hs. by injection Hs as <-.
Qed.

Lemma returns_only_ask_selection (fuel : nat) (max_num : Z) :
  returns_only (fun selected => selected <> ∅ /\ in_list max_num selected)
               (ask_selection (W:=W) fuel max_num).
Proof.
  induction fuel as [|fuel IH]; cbn [ask_selection]; [by intros s a|].
  apply (returns_only_bind (fun _ => True)); [apply returns_only_any|].
  intros answer _. destruct (decide (PyStr.strip answer = "")).
  { apply (returns_only_bind (fun _ => True)); [apply returns_only_any|].
    intros _ _. exact IH. }
  apply (returns_only_bind (in_list max_num));
    [apply returns_only_parse_playlist_selection|].
  intros selected Hin. destruct (decide (selected = ∅)).
  - apply (returns_only_bind (fun _ => True)); [apply returns_only_any|].
    intros _ _. exact IH.
  - by apply returns_only_ret.
Qed.

(** [main] leaves its loop only with a selection that is not empty and
    has numbers of the list only, so that the list of playlists it goes on
    with is not empty either. *)
Theorem ask_selection_selects (fuel : nat) (playlists : list (string * string))
    (s : state W) (selected_indices : gset Z) :
  fst (ask_selection fuel (Z.of_nat (length playlists)) s) = Return selected_indices ->
  selected_indices <> ∅ /\
  (forall i, i ∈ selected_indices -> (1 <= i <= Z.of_nat (length playlists))%Z) /\
  exists p selected, selected_playlists playlists selected_indices = Some (p :: selected).
Proof.
  intros Hrun.
  destruct (returns_only_ask_selection fuel _ s selected_indices Hrun) as [Hne Hin].
  split_and!; [done|done|].
  destruct (selected_playlists_total playlists selected_indices Hin)
    as ([|p selected] & Hsel); [|by exists p, selected].
  exfalso. apply Hne. unfold selected_playlists in Hsel.
  apply length_mapM in Hsel. cbn in Hsel. unfold sorted in Hsel.
  rewrite merge_sort_Permutation in Hsel. apply nil_length_inv in Hsel.
  by apply elements_empty_inv, leibniz_equiv in Hsel.
Qed.

End Asking.

(** The instance of [ask_selection_selects] at the answer [2] for two
    playlists. *)
Lemma ask_selection_selects_witness :
  ({[2%Z]} : gset Z) <> ∅ /\
  (forall i, i ∈ ({[2%Z]} : gset Z) -> (1 <= i <= Z.of_nat (length two_playlists))%Z) /\
  exists p selected, selected_playlists two_playlists {[2%Z]} = Some (p :: selected).
Proof.
  apply (ask_selection_selects 1 two_playlists (initial answers_two) {[2%Z]}).
  vm_compute. reflexivity.
Defined.

(** ** The exporter's row helpers *)

Section Exporter.
Context {U : PyStr.Unicode}.

Lemma join_items_strings (i : nat) (names : list string) :
  join_items i (VStr <$> names) = inr names.
Proof.
  revert i. induction names as [|n rest IH]; intros i; [done|].
  cbn [fmap list_fmap join_items]. fold (fmap (M:=list) VStr rest). by rewrite IH.
Qed.

Lemma py_join_cons (sep s : string) (rest : list string) :
  py_join sep (s :: rest)
  = s +:+ match rest with [] => "" | _ :: _ => sep +:+ py_join sep rest end.
Proof.
  destruct rest; cbn [py_join]; [|done].
  induction s as [|c s IH]; [done|]. by rewrite app_String, <- IH.
Qed.

(** The text before the first [", "] of a text that starts with a name
    without [", "], followed by [", "]. *)
Lemma split_first_comma (name rest : string) :
  PyStr.contains ", " name = false ->
  PyStr.split_first ", " (name +:+ ", " +:+ rest) = name.
Proof.
  induction name as [|c name IH]; intros Hname.
  - rewrite app_empty_l. by cbn.
  - cbn [PyStr.contains] in Hname. apply orb_false_iff in Hname as [Hstart Hname].
    rewrite app_String. cbn [PyStr.split_first].
    assert (PyStr.startswith ", " (String c (name +:+ ", " +:+ rest)) = false) as ->.
    { cbn [PyStr.startswith] in *. destruct (decide (","%char = c)) as [<-|]; [|done].
      destruct name as [|c' name]; [done|]. rewrite app_String.
      cbn [PyStr.startswith] in *. by destruct (decide (" "%char = c')). }
    by rewrite IH.
Qed.

(** The artist names that the exporter joins come apart again in the
    importer: for two artists or more, each with a name that is not empty,
    [safe_join_names] returns the names joined by [", "] and logs nothing,
    and [get_primary_artist] of that text is the first name, trimmed, when
    that name has no [", "] in it. *)
Theorem primary_artist_of_joined_names (artists : list (list (string * value)))
    (first second : string) (others : list string) (ERROR_LOG : list log_entry) :
  Forall2 (fun d name => dict_get d "name" = VStr name /\ name <> "")
          artists (first :: second :: others) ->
  PyStr.contains ", " first = false ->
  safe_join_names (VList (VDict <$> artists)) "name" ERROR_LOG
    = (Some (py_join ", " (first :: second :: others)), ERROR_LOG) /\
  get_primary_artist (py_join ", " (first :: second :: others)) = PyStr.strip first.
Proof.
  intros Hartists Hfirst. split.
  - assert (name_of "name" <$> List.filter (has_name "name") (VDict <$> artists)
            = VStr <$> first :: second :: others) as Hnames.
    { induction Hartists as [|d name ds names [Hd Hne] _ IH]; [done|].
      cbn [fmap list_fmap List.filter has_name]. rewrite Hd.
      destruct name as [|c name]; [done|]. cbn [truthy fmap list_fmap name_of].
      rewrite Hd. f_equal. exact IH. }
    unfold safe_join_names. destruct artists as [|d ds]; [by inversion Hartists|].
    cbn [fmap list_fmap truthy iterate]. fold (fmap (M:=list) VDict ds).
    change (VDict d :: (VDict <$> ds)) with (VDict <$> (d :: ds)). rewrite Hnames.
    cbn [fmap list_fmap]. fold (fmap (M:=list) VStr others).
    change (VStr first :: VStr second :: (VStr <$> others))
      with (VStr <$> (first :: second :: others)).
    by rewrite join_items_strings.
  - rewrite py_join_cons.
    set (rest := py_join ", " (second :: others)).
    assert (PyStr.contains ", " (first +:+ ", " +:+ rest) = true) as Hin
      by (apply contains_inv; by exists first, rest).
    unfold get_primary_artist.
    destruct (decide (first +:+ ", " +:+ rest = "")) as [Hempty|_].
    { rewrite Hempty in Hin. done. }
    unfold separators. cbn [List.find].
    assert (PyStr.contains ", " (PyStr.lower (first +:+ ", " +:+ rest)) = true) as ->
      by exact (contains_lower ", " _ (conj eq_refl (conj eq_refl I)) Hin).
    by rewrite split_first_comma.
Qed.

Lemma dict_set_new (d : list (string * value)) (key : string) (v : value) :
  key ∉ d.*1 -> dict_set d key v = d ++ [(key, v)].
Proof.
  induction d as [|[k v'] d IH]; [done|]. intros Hnew. cbn [dict_set].
  apply not_elem_of_cons in Hnew as [Hne Hnew].
  destruct (decide (k = key)); [done|]. by rewrite IH.
Qed.

Lemma dict_of_NoDup (f : string -> value) (expected_columns : list string) :
  NoDup expected_columns ->
  dict_of f expected_columns = (fun col => (col, f col)) <$> expected_columns.
Proof.
  unfold dict_of.
  cut (forall acc, NoDup (acc.*1 ++ expected_columns) ->
         foldl (fun d col => dict_set d col (f col)) acc expected_columns
         = acc ++ ((fun col => (col, f col)) <$> expected_columns)).
  { intros Hcut Hcols. by apply (Hcut []). }
  induction expected_columns as [|col rest IH]; intros acc Hnodup.
  - by rewrite app_nil_r.
  - cbn [foldl fmap list_fmap].
    apply NoDup_app in Hnodup as (Hacc & Hdisj & Hrest).
    apply NoDup_cons in Hrest as [Hcol Hrest].
    rewrite dict_set_new by (intros Hin; apply (Hdisj _ Hin); by left).
    rewrite IH; [by rewrite <- app_assoc|].
    rewrite fmap_app. cbn [fmap list_fmap]. rewrite <- app_assoc. cbn [app].
    apply NoDup_app. split_and!; [done| |by apply NoDup_cons].
    intros x Hx Hin. by apply (Hdisj x Hx).
Qed.

(** [safe_row_append] appends exactly one row, whatever it is given, and
    the row has exactly the expected columns, in their order: under each
    column the value of the given dictionary, [None] where it has none; for a
    value that is no dictionary a row of [None]s, and, unless that value is
    false or there is no column, one more error counted and logged. *)
Theorem safe_row_append_full_row (st : RowState) (row_dict : value)
    (expected_columns : list string) (ctx : option string) :
  NoDup expected_columns ->
  exists row,
    rows (safe_row_append st row_dict expected_columns ctx) = rows st ++ [row] /\
    row.*1 = expected_columns /\
    row = (fun col => (col, match row_dict with
                            | VDict d => dict_get d col
                            | _ => VNone
                            end)) <$> expected_columns /\
    (if truthy row_dict && negb (bool_decide (type_name row_dict = "dict"))
        && negb (bool_decide (expected_columns = []))
     then errors_count (safe_row_append st row_dict expected_columns ctx)
            = (fun n => n + 1)%Z <$> errors_count st /\
          length (error_log (safe_row_append st row_dict expected_columns ctx))
            = S (length (error_log st))
     else errors_count (safe_row_append st row_dict expected_columns ctx)
            = errors_count st /\
          error_log (safe_row_append st row_dict expected_columns ctx) = error_log st).
Proof.
  intros Hcols.
  exists ((fun col => (col, match row_dict with
                            | VDict d => dict_get d col
                            | _ => VNone
                            end)) <$> expected_columns).
  assert (forall f : string -> value,
            ((fun col => (col, f col)) <$> expected_columns).*1 = expected_columns)
    as Hkeys.
  { intros f. rewrite <- list_fmap_compose. apply list_fmap_id. }
  split_and!; [|apply Hkeys|done|].
  - unfold safe_row_append.
    destruct row_dict as [|b|n|s|l|[|entry d]]; cbn [truthy];
      repeat match goal with
             | |- context [if ?b then _ else _] => destruct b
             | |- context [match ?l with [] => _ | _ :: _ => _ end] => destruct l
             end;
      cbn [rows]; rewrite ?dict_of_NoDup by done; try done.
  - unfold safe_row_append.
    destruct row_dict as [|b|n|s|l|[|entry d]]; cbn [truthy type_name];
      [|destruct b|destruct (n =? 0)%Z|destruct s|destruct l| |];
      destruct expected_columns; cbn [negb andb errors_count error_log];
      try done.
    all: split; [done|]; rewrite List.length_app; cbn [length]; lia.
Qed.

End Exporter.

(** The instance of [primary_artist_of_joined_names] at a track of two
    artists. *)
Lemma primary_artist_of_joined_names_witness :
  safe_join_names
    (VList (VDict <$> [[("id", VStr "a1"); ("name", VStr "Daft Punk")];
                       [("id", VStr "a2"); ("name", VStr "Pharrell Williams")]]))
    "name" []
    = (Some (py_join ", " ["Daft Punk"; "Pharrell Williams"]), []) /\
  get_primary_artist (py_join ", " ["Daft Punk"; "Pharrell Williams"])
    = PyStr.strip "Daft Punk".
Proof.
  apply (primary_artist_of_joined_names
           [[("id", VStr "a1"); ("name", VStr "Daft Punk")];
            [("id", VStr "a2"); ("name", VStr "Pharrell Williams")]]
           "Daft Punk" "Pharrell Williams" [] []).
  - repeat constructor; done.
  - reflexivity.
Defined.

(** The instance of [safe_row_append_full_row] at a list given in the
    place of the row, for two columns. *)
Lemma safe_row_append_full_row_witness :
  exists row,
    rows (safe_row_append {| rows := []; errors_count := Some 0%Z; error_log := [] |}
                          (VList [VInt 1]) ["track_name"; "isrc"] (Some "liked:1"))
      = [] ++ [row] /\
    row.*1 = ["track_name"; "isrc"] /\
    row = (fun col => (col, VNone)) <$> ["track_name"; "isrc"] /\
    errors_count (safe_row_append {| rows := []; errors_count := Some 0%Z; error_log := [] |}
                                  (VList [VInt 1]) ["track_name"; "isrc"] (Some "liked:1"))
      = Some 1%Z /\
    length (error_log (safe_row_append
                         {| rows := []; errors_count := Some 0%Z; error_log := [] |}
                         (VList [VInt 1]) ["track_name"; "isrc"] (Some "liked:1")))
      = 1.
Proof.
  apply (safe_row_append_full_row {| rows := []; errors_count := Some 0%Z; error_log := [] |}
           (VList [VInt 1]) ["track_name"; "isrc"] (Some "liked:1")).
  apply NoDup_cons. split; [by rewrite list_elem_of_singleton|apply NoDup_singleton].
Defined.
